(** * Specialization generators: JSON tree form and mindmap graph form

    A shallow embedding of [generate/generate_js.py] and
    [generate/generate_mm.py].  Both generators are event sinks of one
    depth-first traversal of a specialization; the first assembles an
    ordered JSON object, the second an ElementTree mindmap.

    Python objects that are mutated after they have been shared (the
    fragments held in [_maps], the ElementTree elements held in [nodes])
    live in an explicit store and are referred to by location. *)

From Stdlib Require Import Ascii String.
From stdpp Require Import gmap strings list fin_maps pretty.

Set Warnings "-register-all".

(* String literals are read in [string_scope]; the scopes opened after it
   keep [++], [≤] and [=?] on lists and numbers. *)
Open Scope string_scope.
Open Scope list_scope.
Open Scope nat_scope.
Open Scope stdpp_scope.

(** ** Python exceptions and the state-and-error monad *)

Inductive error :=
  | KeyError
  | AttributeError
  | TypeError
  | ValueError
  | ParseError
  | RecursionError
  | DanglingReference.   (* a location that refers to no object: no Python
                            reference is like that, and no run gets there *)

Inductive result (A : Type) :=
  | OK (a : A)
  | Err (e : error).
Arguments OK {A} a.
Arguments Err {A} e.

Definition M (S A : Type) : Type := S → result (A * S).

Definition ret {S A} (a : A) : M S A := λ s, OK (a, s).
Definition raise {S A} (e : error) : M S A := λ _, Err e.
Definition bind {S A B} (m : M S A) (k : A → M S B) : M S B :=
  λ s, match m s with
       | OK (a, s') => k a s'
       | Err e => Err e
       end.
Definition gets {S A} (f : S → A) : M S A := λ s, OK (f s, s).
Definition modify {S} (f : S → S) : M S unit := λ s, OK (tt, f s).
Definition lift {S A} (r : result A) : M S A :=
  λ s, match r with OK a => OK (a, s) | Err e => Err e end.

Declare Scope py_scope.
Delimit Scope py_scope with py.
Notation "'let*' x := m 'in' k" := (bind m (λ x, k))
  (at level 10, x name, m at level 100, k at level 200) : py_scope.
Notation "m >> k" := (bind m (λ _, k))
  (at level 100, k at level 200, right associativity) : py_scope.
Open Scope py_scope.

(** [for x in xs: body(x)] *)
Fixpoint for_each {S A} (xs : list A) (body : A → M S unit) : M S unit :=
  match xs with
  | [] => ret tt
  | x :: xs' => body x >> for_each xs' body
  end.

(** [d[k]] on a dict held as an option: a missing key raises [KeyError]. *)
Definition subscript {A} (o : option A) : result A :=
  match o with
  | Some a => OK a
  | None => Err KeyError
  end.

Definition result_map {A B} (f : A → B) (r : result A) : result B :=
  match r with
  | OK a => OK (f a)
  | Err e => Err e
  end.

(** [[f(x) for x in xs]] with a fallible, state-free [f] *)
Section MapR.
Context {A B : Type} (f : A → result B).

Fixpoint map_r (xs : list A) : result (list B) :=
  match xs with
  | [] => OK []
  | x :: xs' =>
      match f x with
      | OK y => result_map (cons y) (map_r xs')
      | Err e => Err e
      end
  end.
End MapR.

(** ** The string methods the generators call *)

Module PyStr.

(** [sep.join(parts)] *)
Fixpoint join (sep : string) (parts : list string) : string :=
  match parts with
  | [] => ""
  | [p] => p
  | p :: ps => p +:+ sep +:+ join sep ps
  end.

(** [s.split(c)] for a one-character separator: never returns [[]]. *)
Fixpoint split (c : ascii) (s : string) : list string :=
  match s with
  | "" => [""]
  | String a s' =>
      if decide (a = c) then "" :: split c s'
      else match split c s' with
           | [] => [String a ""]
           | w :: ws => String a w :: ws
           end
  end.

(** The characters [str.strip()] removes from an ASCII text: space, \t,
    \n, \v, \f, \r and the four separators 0x1c to 0x1f.  White space
    beyond ASCII is outside the model: what is proved of [strip] is
    stated for ASCII texts. *)
Definition is_space (a : ascii) : bool :=
  let n := nat_of_ascii a in
  (n =? 32) || ((9 <=? n) && (n <=? 13)) || ((28 <=? n) && (n <=? 31)).

Fixpoint lstrip (s : string) : string :=
  match s with
  | "" => ""
  | String a s' => if is_space a then lstrip s' else s
  end.

Definition rstrip (s : string) : string :=
  String.rev (lstrip (String.rev s)).

Definition strip (s : string) : string := rstrip (lstrip s).

Fixpoint startswith (p s : string) : bool :=
  match p, s with
  | "", _ => true
  | String a p', String b s' => if decide (a = b) then startswith p' s' else false
  | String _ _, "" => false
  end.

(** [s.replace(old, new)] for a non-empty [old]; [skip] counts the
    characters of a match that are still to be dropped. *)
Fixpoint replace_from (old new : string) (skip : nat) (s : string) : string :=
  match s with
  | "" => ""
  | String a s' =>
      match skip with
      | S k => replace_from old new k s'
      | O =>
          if startswith old s
          then new +:+ replace_from old new (String.length old - 1) s'
          else String a (replace_from old new 0 s')
      end
  end.

Definition replace (old new s : string) : string := replace_from old new 0 s.

Definition lower_ascii (a : ascii) : ascii :=
  let n := nat_of_ascii a in
  if (65 <=? n) && (n <=? 90) then ascii_of_nat (n + 32) else a.

Fixpoint lower (s : string) : string :=
  match s with
  | "" => ""
  | String a s' => String (lower_ascii a) (lower s')
  end.

(** [str(b)] for a bool and [str(n)] for a non-negative int. *)
Definition of_bool (b : bool) : string := if b then "True" else "False".
Definition of_int (n : N) : string := pretty n.

End PyStr.

Example split_authors :
  PyStr.strip <$> PyStr.split "," "Ada L , Bob M,Cy" = ["Ada L"; "Bob M"; "Cy"].
Proof. reflexivity. Qed.

Example split_empty : PyStr.split "," "" = [""].
Proof. reflexivity. Qed.

Example strip_separators :
  PyStr.strip (String "028" (String "009" ("Ada L" +:+ String "031" " "))) = "Ada L".
Proof. reflexivity. Qed.

Example replace_amp : PyStr.replace "&" "and" "sea & ice & air" = "sea and ice and air".
Proof. reflexivity. Qed.

Example replace_word : PyStr.replace "TOPIC" "{}" "var x = TOPIC; // TOPICAL" = "var x = {}; // {}AL".
Proof. reflexivity. Qed.

Example lower_true : PyStr.lower (PyStr.of_bool true) = "true".
Proof. reflexivity. Qed.

Example str_14 : PyStr.of_int 14 = "14".
Proof. reflexivity. Qed.

(** ** The specialization model *)

(** Python object identity: the key under which a generator caches what it
    built for a node. *)
Abbreviation ident := nat (only parsing).

(** Modelled from the spec: the section keys of [utils_constants], which is
    not part of the sources; the values are the keys of [_CONFIG]. *)
Definition TYPE_KEY_ENUM_CHOICE : string := "enum-choice".
Definition TYPE_KEY_GRID : string := "grid".
Definition TYPE_KEY_KEYPROPS : string := "keyprops".
Definition TYPE_KEY_PROCESS : string := "process".
Definition TYPE_KEY_PROPERTY : string := "property".
Definition TYPE_KEY_PROPERTY_SET : string := "property-set".
Definition TYPE_KEY_REALM : string := "realm".
Definition TYPE_KEY_SUBPROCESS : string := "subprocess".

(** Modelled from the spec: the node classes of [utils_model], which is not
    part of the sources.  Each record carries the attributes the two
    generators read.  A back-reference ([owner], [root_topic], [parent],
    [enum.detail]) is held as the identity of the node referred to; [url]
    is [None] when the object has no such attribute; [description] is
    [None] for Python's [None]. *)
Record EnumChoice := {
  ec_ident : ident;
  ec_type_key : string;
  ec_id : string;
  ec_description : option string;
  ec_value : string;
  ec_name : option string;           (* None: the class has no such attribute *)
  ec_enum_detail : ident;            (* choice.enum.detail *)
  ec_url : option string
}.

Record Enum := {
  en_name : string;
  en_description : option string;
  en_is_open : bool;
  en_choices : list EnumChoice       (* iteration order of [for choice in enum] *)
}.

Record Property := {
  p_ident : ident;
  p_type_key : string;
  p_id : string;
  p_name : string;
  p_description : option string;
  p_cardinality : string;
  p_typeof : string;
  p_was_injected : bool;
  p_enum : option Enum;
  p_owner : ident;
  p_root_topic : ident;
  p_url : option string
}.

Record PropertySet := {
  ps_ident : ident;
  ps_type_key : string;
  ps_id : string;
  ps_name : string;
  ps_description : option string;
  ps_are_cim_properties : bool;
  ps_owner : ident;
  ps_url : option string;
  ps_properties : list Property
}.

Record Subprocess := {
  sp_ident : ident;
  sp_type_key : string;
  sp_id : string;
  sp_name : string;
  sp_description : option string;
  sp_parent : ident;
  sp_url : option string;
  sp_properties : list Property;
  sp_property_sets : list PropertySet
}.

Inductive TopicKind := Realm | Grid | Keyprops | Process.

Record Topic := {
  t_ident : ident;
  t_kind : TopicKind;
  t_type_key : string;
  t_id : string;
  t_name : string;
  t_description : option string;
  t_contact : string;
  t_url : option string;
  t_properties : list Property;
  t_property_sets : list PropertySet;
  t_subprocesses : list Subprocess
}.

Record Root := {
  r_ident : ident;
  r_type_key : string;
  r_id : string;
  r_name : string;
  r_description : option string;
  r_contact : string;
  r_authors : string;
  r_contributors : string;
  r_change_history : list (string * string * string * string);
  r_url : option string;
  r_sub_topics : list Topic
}.

(** ** The traversal *)

(** Modelled from the spec: the events of [utils_parser.SpecializationParser],
    which is not part of the sources (section 4.1: the fixed taxonomy
    root-enter, root-exit, topic-enter, subprocess-enter,
    property-set-enter, property-enter, enum-choice-enter). *)
Inductive event :=
  | RootEnter (r : Root)
  | RootExit (r : Root)
  | TopicEnter (t : Topic)
  | SubprocessEnter (s : Subprocess)
  | PropertySetEnter (ps : PropertySet)
  | PropertyEnter (p : Property)
  | EnumChoiceEnter (c : EnumChoice).

(** Modelled from the spec: the depth-first walk of the parser, one enter
    event per node in declaration order, and the exit event of the root
    after all of its sub-topics. *)
Module Walk.

Definition of_property (p : Property) : list event :=
  PropertyEnter p ::
  match p_enum p with
  | Some e => EnumChoiceEnter <$> en_choices e
  | None => []
  end.

Definition of_property_set (ps : PropertySet) : list event :=
  PropertySetEnter ps :: (ps_properties ps ≫= of_property).

Definition of_details (props : list Property) (sets : list PropertySet) : list event :=
  (props ≫= of_property) ++ (sets ≫= of_property_set).

Definition of_subprocess (s : Subprocess) : list event :=
  SubprocessEnter s :: of_details (sp_properties s) (sp_property_sets s).

Definition of_topic (t : Topic) : list event :=
  TopicEnter t :: of_details (t_properties t) (t_property_sets t)
               ++ (t_subprocesses t ≫= of_subprocess).

Definition of_root (r : Root) : list event :=
  RootEnter r :: (r_sub_topics r ≫= of_topic) ++ [RootExit r].

End Walk.

(** ** Tree form: [generate_js.Generator] *)

Module JS.

(** JSON values as [json.dumps] sees them.  A fragment that is reachable
    both from [_maps] and from a list it was appended to is held in the
    store and referred to by [JRef]. *)
Inductive jval :=
  | JNull
  | JBool (b : bool)
  | JStr (s : string)
  | JList (xs : list jval)
  | JDict (kvs : list (string * jval))
  | JRef (l : nat).

(** [collections.OrderedDict]: keys in insertion order. *)
Abbreviation odict := (list (string * jval)) (only parsing).

Fixpoint od_get (k : string) (d : odict) : option jval :=
  match d with
  | [] => None
  | (k', v) :: d' => if decide (k' = k) then Some v else od_get k d'
  end.

(** [d[k] = v]: an existing key keeps its position. *)
Fixpoint od_set (k : string) (v : jval) (d : odict) : odict :=
  match d with
  | [] => [(k, v)]
  | (k', v') :: d' =>
      if decide (k' = k) then (k, v) :: d' else (k', v') :: od_set k v d'
  end.

(** A run of assignments [obj[k1] = v1; obj[k2] = v2; ...] on [obj]. *)
Definition od_assign (d : odict) (kvs : list (string * jval)) : odict :=
  foldl (λ d kv, od_set kv.1 kv.2 d) d kvs.

Definition od_keys (d : odict) : list string := d.*1.

Definition jopt (o : option string) : jval :=
  match o with
  | Some s => JStr s
  | None => JNull
  end.

(** The generator instance: [self.root] is fixed by the constructor,
    [self._maps] maps a node to the fragment built for it. *)
Record state := {
  root : Root;
  _maps : gmap ident nat;
  store : list (list (string * jval))
}.

(** [Generator(project, root)] *)
Definition init (r : Root) : state :=
  {| root := r; _maps := ∅; store := [] |}.

(** [self._maps[node] = obj] for a freshly built [obj]. *)
Definition set_map (k : ident) (obj : odict) : M state unit :=
  modify (λ s, {| root := root s;
                  _maps := <[k := length (store s)]> (_maps s);
                  store := store s ++ [obj] |}).

(** [self._maps[node]] *)
Definition get_map (k : ident) : M state nat :=
  λ s, match _maps s !! k with
       | Some l => OK (l, s)
       | None => Err KeyError
       end.

(** [frag[key].append(v)] on the fragment at [l]: [KeyError] when the
    fragment has no such key, [AttributeError] when the value under it is
    not a list. *)
Definition append_to (l : nat) (key : string) (v : jval) : M state unit :=
  λ s, match store s !! l with
       | None => Err DanglingReference
       | Some d =>
           match od_get key d with
           | None => Err KeyError
           | Some (JList xs) =>
               OK (tt, {| root := root s;
                          _maps := _maps s;
                          store := <[l := od_set key (JList (xs ++ [v])) d]> (store s) |})
           | Some _ => Err AttributeError
           end
       end.

(** [[f(x) for x in xs]] with a fallible [f] *)
Fixpoint map_m {S A B} (f : A → M S B) (xs : list A) : M S (list B) :=
  match xs with
  | [] => ret []
  | x :: xs' => let* y := f x in let* ys := map_m f xs' in ret (y :: ys)
  end.

Section Generator.

(** [utils.get_label], the template file next to the module and
    [json.dumps] on a value without references are collaborators. *)
Variable get_label : string → string.
Variable template : string.
Variable dumps : jval → string.

(** [_get_change] of [on_root_parse]. *)
Definition _get_change (i : string * string * string * string) : jval :=
  let '(version, date, author, note) := i in
  JDict [("version", JStr version); ("date", JStr date);
         ("author", JStr author); ("note", JStr note)].

(** The [obj] that [on_root_parse] builds. *)
Definition root_obj (r : Root) : odict :=
  od_assign [] [
    ("id", JStr (r_id r));
    ("label", JStr (get_label (r_name r)));
    ("description", jopt (r_description r));
    ("contact", JStr (r_contact r));
    ("authors", JList (JStr ∘ PyStr.strip <$> PyStr.split "," (r_authors r)));
    ("contributors", JList (JStr ∘ PyStr.strip <$> PyStr.split "," (r_contributors r)));
    ("project", JStr "cordex");
    ("changeHistory", JList (_get_change <$> r_change_history r));
    ("subTopics", JList [])
  ].

Definition on_root_parse (r : Root) : M state unit :=
  set_map (r_ident r) (root_obj r).

Definition on_root_parsed (r : Root) : M state unit :=
  let* self_root := gets root in
  let* objs := map_m (λ i, get_map (t_ident i)) (r_sub_topics self_root) in
  for_each objs (λ obj,
    let* l := get_map (r_ident r) in
    append_to l "subTopics" (JRef obj)).

(** The [obj] that [on_topic_parse] builds. *)
Definition topic_obj (t : Topic) : odict :=
  od_assign [] [
    ("id", JStr (t_id t));
    ("label", JStr (get_label (t_name t)));
    ("description", jopt (t_description t));
    ("contact", JStr (t_contact t));
    ("properties", JList [])
  ].

Definition on_topic_parse (t : Topic) : M state unit :=
  set_map (t_ident t) (topic_obj t).

Definition _get_enum (enum : Enum) : odict :=
  let obj := od_assign [] [
    ("id", jopt (en_description enum));
    ("label", JStr (get_label (en_name enum)));
    ("description", jopt (en_description enum));
    ("is_open", JBool (en_is_open enum));
    ("choices", JList [])
  ] in
  foldl (λ obj choice,
           match od_get "choices" obj with
           | Some (JList xs) =>
               od_set "choices"
                 (JList (xs ++ [JDict [("description", jopt (ec_description choice));
                                       ("value", JStr (ec_value choice))]])) obj
           | _ => obj
           end)
        obj (en_choices enum).

(** The [obj] that [on_property_parse] builds; [prop.enum] is true
    when the property has an enumeration. *)
Definition property_obj (prop : Property) : odict :=
  let obj := od_assign [] [
    ("id", JStr (p_id prop));
    ("label", JStr (PyStr.join " > " (get_label <$> drop 3 (PyStr.split "." (p_id prop)))));
    ("description", jopt (p_description prop));
    ("cardinality", JStr (p_cardinality prop));
    ("type", JStr (if p_enum prop is Some _ then "enum" else p_typeof prop));
    ("is_cim_property", JBool (p_was_injected prop))
  ] in
  match p_enum prop with
  | Some enum => od_set "enum" (JDict (_get_enum enum)) obj
  | None => obj
  end.

Definition on_property_parse (prop : Property) : M state unit :=
  let obj := property_obj prop in
  let* l := get_map (p_root_topic prop) in
  append_to l "properties" (JDict obj).

(** Dispatch of a traversal event to the handler the class defines:
    [on_grid_parse], [on_keyprops_parse] and [on_process_parse] are
    bound to [on_topic_parse]; the class has no handler for a realm
    below the root, for subprocesses, property sets and enum choices. *)
Definition handle (e : event) : M state unit :=
  match e with
  | RootEnter r => on_root_parse r
  | RootExit r => on_root_parsed r
  | TopicEnter t =>
      match t_kind t with
      | Grid => on_topic_parse t
      | Keyprops => on_topic_parse t
      | Process => on_topic_parse t
      | Realm => ret tt
      end
  | PropertyEnter p => on_property_parse p
  | SubprocessEnter _ | PropertySetEnter _ | EnumChoiceEnter _ => ret tt
  end.

Definition run (evs : list event) : M state unit := for_each evs handle.

(** What [json.dumps] walks: every reference replaced by the fragment
    it points to.  [deref] is the walk of a referenced fragment. *)
Fixpoint resolve_in (h : list (list (string * jval))) (deref : jval → result jval)
  (v : jval) : result jval :=
  match v with
  | JNull => OK JNull
  | JBool b => OK (JBool b)
  | JStr s => OK (JStr s)
  | JList xs => result_map JList (map_r (resolve_in h deref) xs)
  | JDict kvs =>
      result_map JDict
        (map_r (λ '(k, x), result_map (pair k) (resolve_in h deref x)) kvs)
  | JRef l =>
      match h !! l with
      | Some d => deref (JDict d)
      | None => Err DanglingReference
      end
  end.

(** The fuel bounds the nesting of references; a cycle exhausts it
    ([json.dumps] raises [ValueError] on a circular reference). *)
Fixpoint resolve (fuel : nat) (h : list (list (string * jval))) (v : jval)
  : result jval :=
  match fuel with
  | O => Err ValueError
  | S fuel' => resolve_in h (resolve fuel' h) v
  end.

(** The value handed to [json.dumps]: [self._maps[self.root]]. *)
Definition output_value : M state jval :=
  let* self_root := gets root in
  let* l := get_map (r_ident self_root) in
  let* h := gets store in
  lift (resolve (S (length h)) h (JRef l)).

Definition get_output : M state string :=
  let* data := output_value in
  ret (PyStr.replace "TOPIC" (dumps data) template).

(** A generation run: construct, traverse, read the output. *)
Definition generate_from (s : state) (evs : list event) : result string :=
  match (run evs >> get_output) s with
  | OK (text, _) => OK text
  | Err e => Err e
  end.

Definition generate (r : Root) : result string :=
  generate_from (init r) (Walk.of_root r).

End Generator.

End JS.

(** ** Graph form: [generate_mm.Generator] *)

Module MM.

(** An XML tree as a value: what [ET.fromstring] returns and what
    [ET.tostring] serialises. *)
Inductive xml :=
  | XElem (tag : string) (attrib : gmap string string) (text : string) (kids : list xml).

(** An [ET.Element] under construction.  Elements are shared between the
    tree and [self.nodes] and grow after they were attached, so they live
    in the store; a child is another stored element or a parsed tree that
    is never touched again. *)
Inductive child :=
  | ChildRef (l : nat)
  | ChildTree (x : xml).

Record Element := {
  tag : string;
  attrib : gmap string string;
  children : list child
}.

(** A section of [_CONFIG]. *)
Record Style := {
  bg_color : string;
  font_bold : bool;
  font_color : string;
  font_name : string;
  font_size : N;
  is_collapsed : bool;
  description : string
}.

Definition _CONFIG : list (string * Style) := [
  ("model",
   {| bg_color := "#F5A9BC"; font_bold := true; font_color := "#000000";
      font_name := "courier"; font_size := 14; is_collapsed := false;
      description := "A model component." |});
  ("realm",
   {| bg_color := "#66cc00"; font_bold := true; font_color := "#000000";
      font_name := "courier"; font_size := 14; is_collapsed := false;
      description := "Scientific area of a numerical model." |});
  ("grid",
   {| bg_color := "#ccccff"; font_bold := true; font_color := "#000000";
      font_name := "courier"; font_size := 12; is_collapsed := false;
      description := "The grid used to layout the variables (e.g. the Global ENDGAME-grid)." |});
  ("keyprops",
   {| bg_color := "#ffff66"; font_bold := true; font_color := "#000000";
      font_name := "courier"; font_size := 12; is_collapsed := false;
      description := "Realm key properties which differ from model defaults (grid, timestep etc)." |});
  ("process",
   {| bg_color := "#FFFFFF"; font_bold := true; font_color := "#000000";
      font_name := "courier"; font_size := 12; is_collapsed := false;
      description := "Process simulated within the realm." |});
  ("subprocess",
   {| bg_color := "#ACF0F2"; font_bold := true; font_color := "#000000";
      font_name := "courier"; font_size := 12; is_collapsed := false;
      description := "A sub-process simulated within a realm process." |});
  ("property-set",
   {| bg_color := "#F3FFE2"; font_bold := true; font_color := "#000000";
      font_name := "courier"; font_size := 10; is_collapsed := true;
      description := "Provides details of specific properties of a process, sub-process, key properties, etc.  There are two possible specialisations expected: (1) A detail_vocabulary is identified, and a cardinality is assigned to that for possible responses; (2) Detail is used to provide a collection or a set of properties which are defined in the sub-class." |});
  ("property",
   {| bg_color := "#C9D787"; font_bold := true; font_color := "#000000";
      font_name := "courier"; font_size := 10; is_collapsed := true;
      description := "A property associated with a detail defined as a 4 member tuple: name, type, cardinality, description." |});
  ("enum-choice",
   {| bg_color := "#FFFFFF"; font_bold := true; font_color := "#000000";
      font_name := "courier"; font_size := 10; is_collapsed := true;
      description := "A choice within an enumeration." |})
].

(** [_SECTIONS], an [OrderedDict]: keys in insertion order. *)
Definition _SECTIONS : list (string * option string) := [
  (TYPE_KEY_ENUM_CHOICE, None);
  (TYPE_KEY_GRID, Some "science.topic");
  (TYPE_KEY_KEYPROPS, Some "science.topic");
  (TYPE_KEY_PROCESS, Some "science.topic");
  (TYPE_KEY_PROPERTY, None);
  (TYPE_KEY_PROPERTY_SET, None);
  (TYPE_KEY_REALM, Some "science.realm");
  (TYPE_KEY_SUBPROCESS, Some "science.topic")
].

(** [_Configuration.get_section]: [self._data.get(key, {})]; [None] is
    the empty dict. *)
Fixpoint dict_get {A} (key : string) (d : list (string * A)) : option A :=
  match d with
  | [] => None
  | (k, v) :: d' => if decide (k = key) then Some v else dict_get key d'
  end.

Definition get_section (key : string) : option Style := dict_get key _CONFIG.

(** [cfg['field']] *)
Definition item {A} (cfg : option Style) (field : Style → A) : result A :=
  match cfg with
  | Some c => OK (field c)
  | None => Err KeyError
  end.

(** What a handler is handed: an object of one of the model classes. *)
Inductive node :=
  | NRoot (r : Root)
  | NTopic (t : Topic)
  | NSubprocess (s : Subprocess)
  | NPropertySet (ps : PropertySet)
  | NProperty (p : Property)
  | NEnumChoice (c : EnumChoice).

Definition node_ident (n : node) : ident :=
  match n with
  | NRoot r => r_ident r
  | NTopic t => t_ident t
  | NSubprocess s => sp_ident s
  | NPropertySet ps => ps_ident ps
  | NProperty p => p_ident p
  | NEnumChoice c => ec_ident c
  end.

Definition type_key (n : node) : string :=
  match n with
  | NRoot r => r_type_key r
  | NTopic t => t_type_key t
  | NSubprocess s => sp_type_key s
  | NPropertySet ps => ps_type_key ps
  | NProperty p => p_type_key p
  | NEnumChoice c => ec_type_key c
  end.

Definition node_id (n : node) : string :=
  match n with
  | NRoot r => r_id r
  | NTopic t => t_id t
  | NSubprocess s => sp_id s
  | NPropertySet ps => ps_id ps
  | NProperty p => p_id p
  | NEnumChoice c => ec_id c
  end.

(** [owner.name] *)
Definition node_name (n : node) : result string :=
  match n with
  | NRoot r => OK (r_name r)
  | NTopic t => OK (t_name t)
  | NSubprocess s => OK (sp_name s)
  | NPropertySet ps => OK (ps_name ps)
  | NProperty p => OK (p_name p)
  | NEnumChoice c =>
      match ec_name c with
      | Some s => OK s
      | None => Err AttributeError
      end
  end.

Definition node_description (n : node) : option string :=
  match n with
  | NRoot r => r_description r
  | NTopic t => t_description t
  | NSubprocess s => sp_description s
  | NPropertySet ps => ps_description ps
  | NProperty p => p_description p
  | NEnumChoice c => ec_description c
  end.

(** [owner.url]; [None] when the access raises [AttributeError]. *)
Definition node_url (n : node) : option string :=
  match n with
  | NRoot r => r_url r
  | NTopic t => t_url t
  | NSubprocess s => sp_url s
  | NPropertySet ps => ps_url ps
  | NProperty p => p_url p
  | NEnumChoice c => ec_url c
  end.

(** The generator instance. *)
Record state := {
  root : Root;
  mmap : option nat;
  nodes : gmap ident nat;
  store : list Element
}.

(** [Generator(project, root)] *)
Definition init (r : Root) : state :=
  {| root := r; mmap := None; nodes := ∅; store := [] |}.

Definition with_store (s : state) (h : list Element) : state :=
  {| root := root s; mmap := mmap s; nodes := nodes s; store := h |}.

Definition add_child (c : child) (e : Element) : Element :=
  {| tag := tag e; attrib := attrib e; children := children e ++ [c] |}.

(** [ET.Element(tag, attrib)] *)
Definition new_element (t : string) (a : gmap string string) : M state nat :=
  λ s, OK (length (store s),
           with_store s (store s ++ [{| tag := t; attrib := a; children := [] |}])).

(** [parent.append(c)] *)
Definition append_child (parent : nat) (c : child) : M state unit :=
  λ s, match store s !! parent with
       | Some e => OK (tt, with_store s (<[parent := add_child c e]> (store s)))
       | None => Err DanglingReference
       end.

(** [ET.SubElement(parent, tag, attrib)]: [parent] is an element that
    exists when the call is made. *)
Definition sub_element (parent : nat) (t : string) (a : gmap string string) : M state nat :=
  λ s, match store s !! parent with
       | Some _ => (let* l := new_element t a in
                    append_child parent (ChildRef l) >>
                    ret l) s
       | None => Err DanglingReference
       end.

(** [self.nodes[k]] *)
Definition get_node (k : ident) : M state nat :=
  λ s, match nodes s !! k with
       | Some l => OK (l, s)
       | None => Err KeyError
       end.

(** [self.nodes[k] = l] *)
Definition set_node (k : ident) (l : nat) : M state unit :=
  modify (λ s, {| root := root s; mmap := mmap s;
                  nodes := <[k := l]> (nodes s); store := store s |}).

Definition set_mmap (l : nat) : M state unit :=
  modify (λ s, {| root := root s; mmap := Some l;
                  nodes := nodes s; store := store s |}).

(** The first argument of [_emit_node]: an element or a model node. *)
Inductive parent_ref :=
  | PElem (l : nat)
  | PNode (k : ident).

(** The first argument of [_emit_notes]. *)
Inductive notes_owner :=
  | OwnerNode (n : node)
  | OwnerElem (l : nat).

(** The second component of a note: a text, or a function of the owner. *)
Inductive note_value :=
  | NoteText (s : string)
  | NoteFun (f : node → result string).

Definition _NOTES_HTML (body : string) : string :=
  "
<html>
  <head></head>
  <body>
    <dl>
        " +:+ body +:+ "
    </dl>
  </body>
</html>
".

Definition _NOTE_HTML (k value : string) : string :=
  "<dt><b>" +:+ k +:+ "</b></dt><dd>" +:+ value +:+ "</dd>".

(** [_get_notes]: every note is a label and a function of the node.
    [PropertySpecialization] is the class of properties; the root is the
    one [TopicSpecialization] without a parent. *)
Definition _get_notes (spec : notes_owner) : list (string * note_value) :=
  let result := [
    ("Description", NoteFun (λ i,
       OK match node_description i with
          | None => "N/A"
          | Some d => PyStr.replace "&" "and" d
          end));
    ("Spec. ID", NoteFun (λ i, OK (node_id i)))
  ] in
  match spec with
  | OwnerNode (NProperty _) =>
      result ++ [
        ("Type", NoteFun (λ i,
           match i with NProperty p => OK (p_typeof p) | _ => Err AttributeError end));
        ("Cardinality", NoteFun (λ i,
           match i with NProperty p => OK (p_cardinality p) | _ => Err AttributeError end));
        ("Specialization ID", NoteFun (λ i, OK (node_id i)))
      ]
  | OwnerNode (NRoot _) =>
      result ++ [
        ("Contact", NoteFun (λ i,
           match i with
           | NRoot r => OK (r_contact r)
           | NTopic t => OK (t_contact t)
           | _ => Err AttributeError
           end));
        ("Authors", NoteFun (λ i,
           match i with NRoot r => OK (r_authors r) | _ => Err AttributeError end));
        ("Contributors", NoteFun (λ i,
           match i with NRoot r => OK (r_contributors r) | _ => Err AttributeError end))
      ]
  | _ => result
  end.

(** One turn of the loop of [_emit_notes]: a model node has an [id], so
    the value is called on it; an element has none and the value is
    formatted as it is.  A function formatted as it is reads
    [<function <lambda> at 0x...>], which [ET.fromstring] rejects. *)
Definition note_html (owner : notes_owner) (note : string * note_value) : result string :=
  let '(k, value) := note in
  match owner, value with
  | OwnerNode n, NoteFun f => result_map (_NOTE_HTML k) (f n)
  | OwnerNode _, NoteText _ => Err TypeError
  | OwnerElem _, NoteText s => OK (_NOTE_HTML k s)
  | OwnerElem _, NoteFun _ => Err ParseError
  end.

Definition string_concat (parts : list string) : string := PyStr.join "" parts.

Section Generator.

(** [ET.fromstring] ([None]: the text is not well-formed) and
    [ET.tostring] are collaborators. *)
Variable fromstring : string → option xml.
Variable tostring : xml → string.

Definition parse (html : string) : result xml :=
  match fromstring html with
  | Some x => OK x
  | None => Err ParseError
  end.

(** [notes = []] stands for the default [None]: [notes or ...] treats
    both alike. *)
Definition _emit_notes (owner : notes_owner) (notes : list (string * note_value))
  : M state unit :=
  let* parent := match owner with
                 | OwnerElem l => ret l
                 | OwnerNode n => get_node (node_ident n)
                 end in
  let notes := match notes with [] => _get_notes owner | _ => notes end in
  let* html := lift (map_r (note_html owner) notes) in
  let html := _NOTES_HTML (string_concat html) in
  let* node := sub_element parent "richcontent" {[ "TYPE" := "NOTE" ]} in
  let* tree := lift (parse html) in
  append_child node (ChildTree tree).

Definition _emit_font (owner : node) (cfg : option Style) : M state unit :=
  let* parent := get_node (node_ident owner) in
  let* bold := lift (item cfg font_bold) in
  let* name := lift (item cfg font_name) in
  let* size := lift (item cfg font_size) in
  let* _ := sub_element parent "font"
              (list_to_map [("BOLD", PyStr.of_bool bold);
                            ("NAME", name);
                            ("SIZE", PyStr.of_int size)]) in
  ret tt.

Definition _emit_node (parent : parent_ref) (owner : node)
  (text : option string) (style : string) : M state unit :=
  let cfg := get_section (type_key owner) in
  let* folded := lift (item cfg is_collapsed) in
  let* color := lift (item cfg font_color) in
  let* background := lift (item cfg bg_color) in
  let* text := match text with
               | Some (String a t) => ret (String a t)
               | _ => lift (node_name owner)
               end in
  let atts : gmap string string :=
    list_to_map [("FOLDED", PyStr.lower (PyStr.of_bool folded));
                 ("COLOR", color);
                 ("BACKGROUND_COLOR", background);
                 ("STYLE", style);
                 ("TEXT", text)] in
  let atts := match node_url owner with
              | Some url => <["LINK" := url]> atts
              | None => atts
              end in
  let* parent := match parent with
                 | PElem l => ret l
                 | PNode k => get_node k
                 end in
  let* l := sub_element parent "node" atts in
  set_node (node_ident owner) l >>
  _emit_font owner cfg >>
  _emit_notes (OwnerNode owner) [].

Definition _emit_legend (r : Root) : M state unit :=
  let cfg := get_section in
  let* parent := get_node (r_ident r) in
  let* root_node := sub_element parent "node"
                      (list_to_map [("FOLDED", "true"); ("STYLE", "bubble");
                                    ("TEXT", "LEGEND"); ("POSITION", "left")]) in
  for_each _SECTIONS.*1 (λ section,
    let* background := lift (item (cfg section) bg_color) in
    let* color := lift (item (cfg section) font_color) in
    let* node := sub_element root_node "node"
                   (list_to_map [("BACKGROUND_COLOR", background);
                                 ("COLOR", color);
                                 ("STYLE", "bubble");
                                 ("TEXT", section)]) in
    let* descr := lift (item (cfg section) description) in
    _emit_notes (OwnerElem node) [("Description", NoteText descr)]).

Definition _emit_change_history (r : Root) : M state unit :=
  let* parent := get_node (r_ident r) in
  let* root_node := sub_element parent "node"
                      (list_to_map [("FOLDED", "true"); ("STYLE", "bubble");
                                    ("TEXT", "CHANGE HISTORY"); ("POSITION", "left")]) in
  for_each (r_change_history r) (λ '(version, date, person, comment),
    let* node := sub_element root_node "node"
                   (list_to_map [("STYLE", "bubble"); ("TEXT", version)]) in
    _emit_notes (OwnerElem node) [
      ("Version", NoteText version);
      ("Date", NoteText date);
      ("Person", NoteText person);
      ("Comment", NoteText comment)
    ]).

Definition on_root_parse (r : Root) : M state unit :=
  let* m := new_element "map" ∅ in
  set_mmap m >>
  _emit_node (PElem m) (NRoot r) None "fork" >>
  _emit_change_history r >>
  _emit_legend r.

Definition on_grid_parse (grid : Topic) : M state unit :=
  let* self_root := gets root in
  _emit_node (PNode (r_ident self_root)) (NTopic grid) None "bubble".

Definition on_keyprops_parse (key_props : Topic) : M state unit :=
  let* self_root := gets root in
  _emit_node (PNode (r_ident self_root)) (NTopic key_props) None "bubble".

Definition on_process_parse (process : Topic) : M state unit :=
  let* self_root := gets root in
  _emit_node (PNode (r_ident self_root)) (NTopic process) None "bubble" >>
  _emit_notes (OwnerNode (NTopic process)) [].

Definition on_subprocess_parse (subprocess : Subprocess) : M state unit :=
  _emit_node (PNode (sp_parent subprocess)) (NSubprocess subprocess) None "bubble".

Definition on_property_set_parse (prop_set : PropertySet) : M state unit :=
  if ps_are_cim_properties prop_set then ret tt
  else _emit_node (PNode (ps_owner prop_set)) (NPropertySet prop_set) None "bubble".

Definition on_property_parse (prop : Property) : M state unit :=
  if p_was_injected prop then ret tt
  else
    _emit_node (PNode (p_owner prop)) (NProperty prop) None "bubble" >>
    _emit_notes (OwnerNode (NProperty prop)) [].

Definition on_enum_choice_parse (choice : EnumChoice) : M state unit :=
  _emit_node (PNode (ec_enum_detail choice)) (NEnumChoice choice)
    (Some (ec_value choice)) "bubble".

(** Dispatch of a traversal event to the handler the class defines; it
    has none for a realm below the root and none for the exit of the
    root. *)
Definition handle (e : event) : M state unit :=
  match e with
  | RootEnter r => on_root_parse r
  | RootExit _ => ret tt
  | TopicEnter t =>
      match t_kind t with
      | Grid => on_grid_parse t
      | Keyprops => on_keyprops_parse t
      | Process => on_process_parse t
      | Realm => ret tt
      end
  | SubprocessEnter s => on_subprocess_parse s
  | PropertySetEnter ps => on_property_set_parse ps
  | PropertyEnter p => on_property_parse p
  | EnumChoiceEnter c => on_enum_choice_parse c
  end.

Definition run (evs : list event) : M state unit := for_each evs handle.

(** The tree [ET.tostring] serialises: the element at [l] with every
    child reference replaced by the element it points to.  The fuel
    bounds the depth. *)
Fixpoint reify (fuel : nat) (h : list Element) (l : nat) : result xml :=
  match fuel with
  | O => Err RecursionError
  | S fuel' =>
      match h !! l with
      | None => Err DanglingReference
      | Some e =>
          result_map (XElem (tag e) (attrib e) "")
            (map_r (λ c, match c with
                         | ChildRef l' => reify fuel' h l'
                         | ChildTree x => OK x
                         end) (children e))
      end
  end.

(** The tree of [self.mmap]. *)
Definition output_tree : M state xml :=
  λ s, match mmap s with
       | None => Err AttributeError
       | Some l =>
           match reify (length (store s)) (store s) l with
           | OK x => OK (x, s)
           | Err e => Err e
           end
       end.

Definition get_output : M state string :=
  let* x := output_tree in
  ret (tostring x).

Definition generate_from (s : state) (evs : list event) : result string :=
  match (run evs >> get_output) s with
  | OK (text, _) => OK text
  | Err e => Err e
  end.

Definition generate (r : Root) : result string :=
  generate_from (init r) (Walk.of_root r).

End Generator.

End MM.

(** ** A small specialization used in the examples

    A realm with one process; the process has one property with an open
    enumeration of two choices, one injected property and one subprocess. *)

Module Sample.

Definition choice_a : EnumChoice :=
  {| ec_ident := 10; ec_type_key := TYPE_KEY_ENUM_CHOICE;
     ec_id := "cordexp.atmos.dynamics.scheme.type.eulerian";
     ec_description := Some "Eulerian"; ec_value := "eulerian";
     ec_name := None; ec_enum_detail := 3; ec_url := None |}.

Definition choice_b : EnumChoice :=
  {| ec_ident := 11; ec_type_key := TYPE_KEY_ENUM_CHOICE;
     ec_id := "cordexp.atmos.dynamics.scheme.type.lagrangian";
     ec_description := None; ec_value := "lagrangian";
     ec_name := None; ec_enum_detail := 3; ec_url := None |}.

Definition scheme_types : Enum :=
  {| en_name := "scheme_types"; en_description := Some "Advection schemes";
     en_is_open := true; en_choices := [choice_a; choice_b] |}.

Definition scheme_type : Property :=
  {| p_ident := 3; p_type_key := TYPE_KEY_PROPERTY;
     p_id := "cordexp.atmos.dynamics.scheme.type"; p_name := "type";
     p_description := Some "Kind of scheme"; p_cardinality := "1.1";
     p_typeof := "ENUM:scheme_types"; p_was_injected := false;
     p_enum := Some scheme_types; p_owner := 2; p_root_topic := 2;
     p_url := None |}.

Definition overview : Property :=
  {| p_ident := 5; p_type_key := TYPE_KEY_PROPERTY;
     p_id := "cordexp.atmos.dynamics.overview"; p_name := "overview";
     p_description := Some "Overview"; p_cardinality := "0.1";
     p_typeof := "str"; p_was_injected := true;
     p_enum := None; p_owner := 2; p_root_topic := 2; p_url := None |}.

Definition core : Subprocess :=
  {| sp_ident := 4; sp_type_key := TYPE_KEY_SUBPROCESS;
     sp_id := "cordexp.atmos.dynamics.core"; sp_name := "core";
     sp_description := None; sp_parent := 2; sp_url := None;
     sp_properties := []; sp_property_sets := [] |}.

Definition dynamics : Topic :=
  {| t_ident := 2; t_kind := Process; t_type_key := TYPE_KEY_PROCESS;
     t_id := "cordexp.atmos.dynamics"; t_name := "dynamics";
     t_description := Some "Dynamics & transport"; t_contact := "someone";
     t_url := Some "https://example.org/dynamics";
     t_properties := [scheme_type; overview]; t_property_sets := [];
     t_subprocesses := [core] |}.

Definition atmos : Root :=
  {| r_ident := 1; r_type_key := TYPE_KEY_REALM;
     r_id := "cordexp.atmos"; r_name := "atmos"; r_description := None;
     r_contact := "someone"; r_authors := "Ada L, Bob M";
     r_contributors := "Cy N";
     r_change_history := [("0.1.0", "2017-01-01", "Ada L", "Initialised");
                          ("0.2.0", "2017-03-01", "Bob M", "Reviewed")];
     r_url := None; r_sub_topics := [dynamics] |}.

(** A realm whose grid has one injected property with an enumeration. *)
Definition choice_c : EnumChoice :=
  {| ec_ident := 12; ec_type_key := TYPE_KEY_ENUM_CHOICE;
     ec_id := "cordexp.atmos.grid.kind.regular";
     ec_description := Some "Regular"; ec_value := "regular";
     ec_name := None; ec_enum_detail := 6; ec_url := None |}.

Definition kind_types : Enum :=
  {| en_name := "kind_types"; en_description := Some "Kinds of grid";
     en_is_open := false; en_choices := [choice_c] |}.

Definition kind : Property :=
  {| p_ident := 6; p_type_key := TYPE_KEY_PROPERTY;
     p_id := "cordexp.atmos.grid.kind"; p_name := "kind";
     p_description := None; p_cardinality := "1.1";
     p_typeof := "ENUM:kind_types"; p_was_injected := true;
     p_enum := Some kind_types; p_owner := 7; p_root_topic := 7;
     p_url := None |}.

Definition grid : Topic :=
  {| t_ident := 7; t_kind := Grid; t_type_key := TYPE_KEY_GRID;
     t_id := "cordexp.atmos.grid"; t_name := "grid";
     t_description := None; t_contact := "someone"; t_url := None;
     t_properties := [kind]; t_property_sets := []; t_subprocesses := [] |}.

Definition atmos_grid : Root :=
  {| r_ident := 1; r_type_key := TYPE_KEY_REALM;
     r_id := "cordexp.atmos"; r_name := "atmos"; r_description := None;
     r_contact := "someone"; r_authors := "Ada L";
     r_contributors := ""; r_change_history := [];
     r_url := None; r_sub_topics := [grid] |}.

(** The same realm with an empty change history and no sub-topic. *)
Definition bare : Root :=
  {| r_ident := 1; r_type_key := TYPE_KEY_REALM;
     r_id := "cordexp.atmos"; r_name := "atmos"; r_description := None;
     r_contact := "someone"; r_authors := "Ada L";
     r_contributors := ""; r_change_history := [];
     r_url := None; r_sub_topics := [] |}.

(** A realm whose process has one property of its own and a subprocess
    with one property. *)
Definition closure : Property :=
  {| p_ident := 23; p_type_key := TYPE_KEY_PROPERTY;
     p_id := "cordexp.atmos.convection.closure"; p_name := "closure";
     p_description := Some "Closure"; p_cardinality := "1.1";
     p_typeof := "str"; p_was_injected := false;
     p_enum := None; p_owner := 21; p_root_topic := 21; p_url := None |}.

Definition order : Property :=
  {| p_ident := 24; p_type_key := TYPE_KEY_PROPERTY;
     p_id := "cordexp.atmos.convection.shallow.order"; p_name := "order";
     p_description := Some "Order"; p_cardinality := "1.1";
     p_typeof := "int"; p_was_injected := false;
     p_enum := None; p_owner := 22; p_root_topic := 21; p_url := None |}.

Definition shallow : Subprocess :=
  {| sp_ident := 22; sp_type_key := TYPE_KEY_SUBPROCESS;
     sp_id := "cordexp.atmos.convection.shallow"; sp_name := "shallow";
     sp_description := None; sp_parent := 21; sp_url := None;
     sp_properties := [order]; sp_property_sets := [] |}.

Definition convection : Topic :=
  {| t_ident := 21; t_kind := Process; t_type_key := TYPE_KEY_PROCESS;
     t_id := "cordexp.atmos.convection"; t_name := "convection";
     t_description := None; t_contact := "someone"; t_url := None;
     t_properties := [closure]; t_property_sets := [];
     t_subprocesses := [shallow] |}.

Definition atmos_deep : Root :=
  {| r_ident := 1; r_type_key := TYPE_KEY_REALM;
     r_id := "cordexp.atmos"; r_name := "atmos"; r_description := None;
     r_contact := "someone"; r_authors := "Ada L";
     r_contributors := ""; r_change_history := [];
     r_url := None; r_sub_topics := [convection] |}.

(** A realm whose one sub-topic is a realm, for which the generators have
    no handler. *)
Definition ocean : Topic :=
  {| t_ident := 31; t_kind := Realm; t_type_key := TYPE_KEY_REALM;
     t_id := "cordexp.atmos.ocean"; t_name := "ocean";
     t_description := None; t_contact := "someone"; t_url := None;
     t_properties := []; t_property_sets := []; t_subprocesses := [] |}.

Definition atmos_nested : Root :=
  {| r_ident := 1; r_type_key := TYPE_KEY_REALM;
     r_id := "cordexp.atmos"; r_name := "atmos"; r_description := None;
     r_contact := "someone"; r_authors := "Ada L";
     r_contributors := ""; r_change_history := [];
     r_url := None; r_sub_topics := [ocean] |}.

(** A realm whose authors are written with blanks around a name. *)
Definition atmos_spaced : Root :=
  {| r_ident := 1; r_type_key := TYPE_KEY_REALM;
     r_id := "cordexp.atmos"; r_name := "atmos"; r_description := None;
     r_contact := "someone"; r_authors := " Ada L ,Bob M";
     r_contributors := ""; r_change_history := [];
     r_url := None; r_sub_topics := [] |}.

(** A realm without sub-topic whose description holds an ampersand and
    whose change history has one entry, with the given comment. *)
Definition revised (comment : string) : Root :=
  {| r_ident := 1; r_type_key := TYPE_KEY_REALM;
     r_id := "cordexp.atmos"; r_name := "atmos";
     r_description := Some "Air & sea";
     r_contact := "someone"; r_authors := "Ada L";
     r_contributors := "";
     r_change_history := [("0.2.0", "2017-03-01", "Bob M", comment)];
     r_url := None; r_sub_topics := [] |}.

(** Stand-ins for the collaborators: a label is the name itself, the
    serialisers return a fixed text, every notes text is well-formed and
    is kept as the text of one element. *)
Definition get_label (name : string) : string := name.
Definition dumps (v : JS.jval) : string := "{}".
Definition template : string := "var spec = TOPIC;".
Definition fromstring (html : string) : option MM.xml :=
  Some (MM.XElem "html" ∅ html []).
Definition tostring (x : MM.xml) : string := "<map/>".

(** A parser that accepts less: as every XML parser does, it rejects a
    text in which an ampersand is followed by a blank, and keeps any
    other text as the text of one element. *)
Fixpoint bare_ampersand (s : string) : bool :=
  match s with
  | "" => false
  | String a s' =>
      (bool_decide (a = "&"%char) && PyStr.startswith " " s') || bare_ampersand s'
  end.

Definition strict_fromstring (html : string) : option MM.xml :=
  if bare_ampersand html then None else Some (MM.XElem "html" ∅ html []).

End Sample.

(** ** Facts about the monad and the loops *)

Lemma bind_inv {S A B} (m : M S A) (f : A → M S B) s b s' :
  bind m f s = OK (b, s') → ∃ a s1, m s = OK (a, s1) ∧ f a s1 = OK (b, s').
Proof.
  unfold bind. destruct (m s) as [[a s1] |]; [| done]. intros H. by exists a, s1.
Qed.

Lemma for_each_app {S A} (xs ys : list A) (f : A → M S unit) (s : S) :
  for_each (xs ++ ys) f s =
    match for_each xs f s with
    | OK (_, s') => for_each ys f s'
    | Err e => Err e
    end.
Proof.
  revert s. induction xs as [| x xs IH]; intros s; simpl; [done |].
  unfold bind. destruct (f x s) as [[[] s'] | e]; [apply IH | done].
Qed.

Lemma for_each_cons {S A} (x : A) (xs : list A) (f : A → M S unit) (s : S) :
  for_each (x :: xs) f s =
    match f x s with
    | OK (_, s') => for_each xs f s'
    | Err e => Err e
    end.
Proof. reflexivity. Qed.

Lemma map_r_id {A} (f : A → result A) (xs : list A) :
  Forall (λ x, f x = OK x) xs → map_r f xs = OK xs.
Proof.
  induction 1 as [| x xs Hx _ IH]; simpl; [done |].
  by rewrite Hx, IH.
Qed.

Lemma map_r_length {A B} (f : A → result B) (xs : list A) (ys : list B) :
  map_r f xs = OK ys → length ys = length xs.
Proof.
  revert ys. induction xs as [| x xs IH]; intros ys; simpl.
  - by intros [= <-].
  - destruct (f x) as [y |]; [| done].
    destruct (map_r f xs) as [ys' |]; [| done]. simpl.
    intros [= <-]. simpl. by rewrite (IH ys').
Qed.

Lemma for_each_ext {S A} (xs : list A) (f g : A → M S unit) (s : S) :
  (∀ x s, x ∈ xs → f x s = g x s) → for_each xs f s = for_each xs g s.
Proof.
  revert s. induction xs as [| x xs IH]; intros s Hfg; [done |].
  rewrite !for_each_cons, Hfg by apply list_elem_of_here.
  destruct (g x s) as [[[] s'] |]; [| done].
  apply IH. intros y s0 Hy. apply Hfg. by apply list_elem_of_further.
Qed.

Lemma map_r_sim {X Y} (f g : X → result Y) (h : X → X) (xs : list X) ys :
  Forall (λ x, ∀ y, f x = OK y → g (h x) = OK y) xs →
  map_r f xs = OK ys → map_r g (h <$> xs) = OK ys.
Proof.
  intros Hfg. revert ys. induction Hfg as [| x xs Hx _ IH]; intros ys; [done |].
  rewrite fmap_cons. cbn [map_r].
  destruct (f x) as [y |]; [| done]. rewrite (Hx y eq_refl).
  destruct (map_r f xs) as [ys' |]; [| done]. by rewrite (IH ys' eq_refl).
Qed.


(** ** Facts about the string methods *)

Module PyStrFacts.
Import PyStr.

(** [s.count(c)] and [c in s] for a character [c]. *)
Fixpoint count (c : ascii) (s : string) : nat :=
  match s with
  | "" => 0
  | String a s' => (if decide (a = c) then 1 else 0) + count c s'
  end.

Fixpoint contains (c : ascii) (s : string) : bool :=
  match s with
  | "" => false
  | String a s' => if decide (a = c) then true else contains c s'
  end.

Lemma append_cons a s t : String a s +:+ t = String a (s +:+ t).
Proof. reflexivity. Qed.

Lemma append_nil_l s : "" +:+ s = s.
Proof. reflexivity. Qed.

Lemma append_nil_r s : s +:+ "" = s.
Proof. induction s as [| a s IH]; [done |]. by rewrite append_cons, IH. Qed.

Lemma append_assoc s t u : (s +:+ t) +:+ u = s +:+ t +:+ u.
Proof. induction s as [| a s IH]; [done |]. by rewrite !append_cons, IH. Qed.

Lemma contains_app c s t : contains c (s +:+ t) = contains c s || contains c t.
Proof.
  induction s as [| a s IH]; [done |]. rewrite append_cons. simpl.
  by destruct (decide (a = c)).
Qed.

Lemma contains_count c s : contains c s = false ↔ count c s = 0.
Proof.
  induction s as [| a s IH]; [done |]. simpl.
  destruct (decide (a = c)); [done |]. by rewrite IH.
Qed.

(** *** [split] *)

Lemma split_length c s : length (split c s) = S (count c s).
Proof.
  induction s as [| a s IH]; [done |]. simpl.
  destruct (decide (a = c)) as [-> | Hne]; simpl; [by rewrite IH |].
  by destruct (split c s).
Qed.

Lemma split_absent c s : contains c s = false → split c s = [s].
Proof.
  induction s as [| a s IH]; [done |]. simpl.
  destruct (decide (a = c)); [done |]. intros Hs. by rewrite IH.
Qed.

(** The first segment ends at the first separator. *)
Lemma split_first c a rest :
  contains c a = false → split c (a +:+ String c rest) = a :: split c rest.
Proof.
  induction a as [| x a IH]; simpl.
  - intros _. cbn. by rewrite decide_True.
  - destruct (decide (x = c)); [done |]. intros Ha.
    by rewrite IH.
Qed.

(** *** [replace] *)

Lemma startswith_app old s : startswith old (old +:+ s) = true.
Proof.
  induction old as [| a old IH]; [done |]. rewrite append_cons. simpl.
  by rewrite decide_True.
Qed.

Lemma replace_from_skip old new x s :
  replace_from old new (String.length x) (x +:+ s) = replace_from old new 0 s.
Proof. induction x as [| a x IH]; [done |]. by rewrite append_cons. Qed.

(** In front of the first character of [old] nothing is replaced. *)
Lemma replace_from_prefix c old new pre s :
  contains c pre = false →
  replace_from (String c old) new 0 (pre +:+ s)
  = pre +:+ replace_from (String c old) new 0 s.
Proof.
  induction pre as [| a pre IH]; [done |]. simpl.
  destruct (decide (a = c)) as [| Hne]; [done |]. intros Hpre.
  rewrite !append_cons. cbn [replace_from startswith].
  rewrite decide_False by done. by rewrite IH.
Qed.

Lemma replace_absent c old new s :
  contains c s = false → replace (String c old) new s = s.
Proof.
  intros Hs. unfold replace.
  rewrite <- (append_nil_r s) at 1. rewrite replace_from_prefix by done.
  by rewrite append_nil_r.
Qed.

(** One occurrence, with the first character of [old] nowhere else: the
    occurrence is replaced and what was put in is not looked at again. *)
Lemma replace_once c old new pre post :
  contains c pre = false → contains c post = false →
  replace (String c old) new (pre +:+ String c old +:+ post) = pre +:+ new +:+ post.
Proof.
  intros Hpre Hpost. unfold replace. rewrite replace_from_prefix by done. f_equal.
  rewrite append_cons. cbn [replace_from].
  rewrite <- append_cons, startswith_app. f_equal.
  cbn [String.length]. rewrite Nat.sub_succ, Nat.sub_0_r, replace_from_skip.
  by apply (replace_absent c old new).
Qed.

(** Replacing a character by a text without it leaves none. *)
Lemma replace_char_gone c new s :
  contains c new = false → contains c (replace (String c "") new s) = false.
Proof.
  intros Hnew. unfold replace. induction s as [| a s IH]; [done |].
  cbn [replace_from startswith String.length].
  destruct (decide (c = a)) as [<- | Hne].
  - destruct s; rewrite contains_app, Hnew; exact IH.
  - simpl. by rewrite decide_False.
Qed.

Lemma split_nonempty c s : split c s ≠ [].
Proof. intros H. pose proof (split_length c s) as Hl. by rewrite H in Hl. Qed.

(** No segment holds the separator. *)
Lemma split_separator_free c s : Forall (λ seg, contains c seg = false) (split c s).
Proof.
  induction s as [| a s IH]; [by repeat constructor |]. cbn [split].
  destruct (decide (a = c)) as [-> | Hne]; [by constructor |].
  destruct (split c s) as [| w ws].
  - repeat constructor. simpl. by rewrite decide_False.
  - apply Forall_cons in IH as [Hw Hws]. constructor; [| done].
    simpl. by rewrite decide_False.
Qed.

Lemma join_cons_char sep a w ws : join sep (String a w :: ws) = String a (join sep (w :: ws)).
Proof. by destruct ws. Qed.

(** Joining the segments with the separator gives the text back. *)
Lemma join_split c s : join (String c "") (split c s) = s.
Proof.
  induction s as [| a s IH]; [done |]. cbn [split].
  pose proof (split_nonempty c s) as Hne.
  destruct (decide (a = c)) as [-> | Hac].
  - destruct (split c s) as [| w ws]; [done |].
    change (join (String c "") ("" :: w :: ws))
      with (String c (join (String c "") (w :: ws))).
    by rewrite IH.
  - destruct (split c s) as [| w ws]; [done |].
    by rewrite join_cons_char, IH.
Qed.

(** Texts without the separator, joined and split, come back. *)
Lemma split_join c segs :
  segs ≠ [] → Forall (λ seg, contains c seg = false) segs →
  split c (join (String c "") segs) = segs.
Proof.
  induction segs as [| p segs IH]; [done |].
  intros _ [Hp Hsegs]%Forall_cons.
  destruct segs as [| q l]; [by apply split_absent |].
  change (join (String c "") (p :: q :: l))
    with (p +:+ String c (join (String c "") (q :: l))).
  rewrite split_first by done. by rewrite IH.
Qed.

(** *** [strip] *)

(** A text of ASCII characters, and a text of white space only. *)
Fixpoint is_ascii (s : string) : bool :=
  match s with
  | "" => true
  | String a s' => (nat_of_ascii a <? 128) && is_ascii s'
  end.

Fixpoint all_space (s : string) : bool :=
  match s with
  | "" => true
  | String a s' => is_space a && all_space s'
  end.

Lemma all_space_app s t : all_space (s +:+ t) = all_space s && all_space t.
Proof.
  induction s as [| a s IH]; [done |].
  rewrite append_cons. cbn [all_space]. by rewrite IH, andb_assoc.
Qed.

Lemma lstrip_clean s a t : lstrip s = String a t → is_space a = false.
Proof.
  induction s as [| b s IH]; [done |]. simpl.
  destruct (is_space b) eqn:Hb; [done |]. by intros [= <- _].
Qed.

Lemma lstrip_all_space s : all_space s = true → lstrip s = "".
Proof.
  induction s as [| a s IH]; [done |]. cbn [all_space lstrip].
  intros [Ha Hs]%andb_true_iff. rewrite Ha. by apply IH.
Qed.

(** White space in front is dropped, and nothing else. *)
Lemma lstrip_skip lead s : all_space lead = true → lstrip (lead +:+ s) = lstrip s.
Proof.
  induction lead as [| a lead IH]; [done |]. cbn [all_space].
  intros [Ha Hl]%andb_true_iff. rewrite append_cons. cbn [lstrip]. rewrite Ha. by apply IH.
Qed.

Lemma lstrip_lead s : ∃ u, s = u +:+ lstrip s ∧ all_space u = true.
Proof.
  induction s as [| a s (u & IH & Hu)]; [by exists "" |]. cbn [lstrip].
  destruct (is_space a) eqn:Ha.
  - exists (String a u). rewrite append_cons, <- IH. cbn [all_space]. by rewrite Ha, Hu.
  - by exists "".
Qed.

End PyStrFacts.

(** ** Facts about the tree form *)

Module JSFacts.
Import JS.

(** *** Ordered dictionaries *)

Lemma od_get_set_eq k v d : od_get k (od_set k v d) = Some v.
Proof.
  induction d as [| [k' v'] d IH]; simpl.
  - by rewrite decide_True.
  - destruct (decide (k' = k)) as [-> | Hne]; simpl.
    + by rewrite decide_True.
    + by rewrite decide_False.
Qed.

Lemma od_get_set_ne k k' v d : k ≠ k' → od_get k' (od_set k v d) = od_get k' d.
Proof.
  intros Hne. induction d as [| [k0 v0] d IH]; simpl.
  - by rewrite decide_False.
  - destruct (decide (k0 = k)) as [-> | Hne0]; simpl.
    + by rewrite !decide_False.
    + by rewrite IH.
Qed.

Lemma od_set_set k v v' d : od_set k v' (od_set k v d) = od_set k v' d.
Proof.
  induction d as [| [k0 v0] d IH]; simpl.
  - by rewrite decide_True.
  - destruct (decide (k0 = k)) as [-> | Hne]; simpl.
    + by rewrite decide_True.
    + by rewrite decide_False, IH.
Qed.

Lemma od_set_id k v d : od_get k d = Some v → od_set k v d = d.
Proof.
  induction d as [| [k0 v0] d IH]; simpl; [done |].
  destruct (decide (k0 = k)) as [-> | Hne]; [congruence |].
  intros Hd. by rewrite IH.
Qed.

Lemma od_keys_set k v v' d :
  od_get k d = Some v' → od_keys (od_set k v d) = od_keys d.
Proof.
  unfold od_keys. induction d as [| [k0 v0] d IH]; simpl; [done |].
  destruct (decide (k0 = k)) as [-> | Hne]; [done |].
  intros Hd. simpl. f_equal. by apply IH.
Qed.

(** *** Values without references *)

Section Ind.
Variable P : jval → Prop.
Hypothesis Hnull : P JNull.
Hypothesis Hbool : ∀ b, P (JBool b).
Hypothesis Hstr : ∀ s, P (JStr s).
Hypothesis Hlist : ∀ xs, Forall P xs → P (JList xs).
Hypothesis Hdict : ∀ kvs, Forall (λ kv, P kv.2) kvs → P (JDict kvs).
Hypothesis Href : ∀ l, P (JRef l).

Fixpoint jval_nested_ind (v : jval) : P v :=
  match v with
  | JNull => Hnull
  | JBool b => Hbool b
  | JStr s => Hstr s
  | JList xs =>
      Hlist xs ((fix go (xs : list jval) : Forall P xs :=
                   match xs with
                   | [] => @List.Forall_nil _ P
                   | x :: xs' => @List.Forall_cons _ P x xs' (jval_nested_ind x) (go xs')
                   end) xs)
  | JDict kvs =>
      Hdict kvs ((fix go (kvs : list (string * jval)) : Forall (λ kv, P kv.2) kvs :=
                    match kvs with
                    | [] => @List.Forall_nil _ _
                    | (k, x) :: kvs' =>
                        @List.Forall_cons _ (λ kv, P kv.2) (k, x) kvs' (jval_nested_ind x) (go kvs')
                    end) kvs)
  | JRef l => Href l
  end.
End Ind.

Fixpoint no_refs (v : jval) : bool :=
  match v with
  | JNull | JBool _ | JStr _ => true
  | JList xs => forallb no_refs xs
  | JDict kvs => forallb (λ '(_, x), no_refs x) kvs
  | JRef _ => false
  end.

Lemma resolve_in_no_refs h deref v :
  no_refs v = true → resolve_in h deref v = OK v.
Proof.
  induction v as [| b | s | xs IH | kvs IH | l] using jval_nested_ind; intros Hv; try done.
  - simpl in *. rewrite map_r_id; [done |].
    rewrite forallb_forall in Hv. rewrite Forall_forall in *.
    intros x Hx. apply IH; [done |]. apply Hv. by apply list_elem_of_In.
  - simpl in *. rewrite map_r_id; [done |].
    rewrite forallb_forall in Hv. rewrite Forall_forall in *.
    intros [k x] Hx. specialize (IH (k, x) Hx). simpl in *. rewrite IH; [done |].
    apply (Hv (k, x)). by apply list_elem_of_In.
Qed.

Section WithLabel.
Variable get_label : string → string.

(** *** The fragments *)

Definition choice_entry (c : EnumChoice) : jval :=
  JDict [("description", jopt (ec_description c)); ("value", JStr (ec_value c))].

Definition enum_with (enum : Enum) (choices : list jval) : list (string * jval) :=
  [("id", jopt (en_description enum));
   ("label", JStr (get_label (en_name enum)));
   ("description", jopt (en_description enum));
   ("is_open", JBool (en_is_open enum));
   ("choices", JList choices)].

Lemma get_enum_loop enum (cs : list EnumChoice) (acc : list jval) :
  foldl (λ obj choice,
           match od_get "choices" obj with
           | Some (JList xs) =>
               od_set "choices"
                 (JList (xs ++ [JDict [("description", jopt (ec_description choice));
                                       ("value", JStr (ec_value choice))]])) obj
           | _ => obj
           end)
        (enum_with enum acc) cs
  = enum_with enum (acc ++ (choice_entry <$> cs)).
Proof.
  revert acc. induction cs as [| c cs IH]; intros acc.
  - simpl. by rewrite app_nil_r.
  - rewrite fmap_cons, (cons_middle (choice_entry c)), (assoc_L (++)), <- IH.
    reflexivity.
Qed.

Lemma get_enum_choices (enum : Enum) :
  _get_enum get_label enum = enum_with enum (choice_entry <$> en_choices enum).
Proof. apply (get_enum_loop enum (en_choices enum) []). Qed.

Lemma property_obj_keys (prop : Property) :
  od_keys (property_obj get_label prop) =
    ["id"; "label"; "description"; "cardinality"; "type"; "is_cim_property"]
    ++ (if p_enum prop is Some _ then ["enum"] else []).
Proof. unfold property_obj. by destruct (p_enum prop). Qed.

(** C2 (amended).  The mapping built for a property has the keys [id],
    [label], [description], [cardinality], [type] and
    [is_cim_property], in this order, followed by [enum] when the
    property has an enumeration; the value under [is_cim_property] is
    the property's was-injected flag.  There is no key [isInjected]. *)
Theorem property_fragment_fields (prop : Property) :
  od_keys (property_obj get_label prop) =
    ["id"; "label"; "description"; "cardinality"; "type"; "is_cim_property"]
    ++ (if p_enum prop is Some _ then ["enum"] else [])
  ∧ od_get "is_cim_property" (property_obj get_label prop)
    = Some (JBool (p_was_injected prop))
  ∧ od_get "isInjected" (property_obj get_label prop) = None.
Proof.
  split; [apply property_obj_keys |].
  unfold property_obj. by destruct (p_enum prop).
Qed.

(** C4.  The [type] of the mapping built for a property is the text
    "enum" when the property has an enumeration and the declared type
    name otherwise.  With an enumeration the mapping holds, under
    [enum], a mapping with the fields [id] (the enumeration's
    description), [label] (the label of its name), [description],
    [is_open] and [choices]; [choices] has one
    [{description, value}] entry per choice, in the order of the
    enumeration.  Without one there is no [enum] key. *)
Theorem property_fragment_enum (prop : Property) :
  match p_enum prop with
  | Some enum =>
      od_get "type" (property_obj get_label prop) = Some (JStr "enum")
      ∧ od_get "enum" (property_obj get_label prop) =
          Some (JDict [("id", jopt (en_description enum));
                       ("label", JStr (get_label (en_name enum)));
                       ("description", jopt (en_description enum));
                       ("is_open", JBool (en_is_open enum));
                       ("choices", JList (choice_entry <$> en_choices enum))])
      ∧ length (choice_entry <$> en_choices enum) = length (en_choices enum)
  | None =>
      od_get "type" (property_obj get_label prop) = Some (JStr (p_typeof prop))
      ∧ od_get "enum" (property_obj get_label prop) = None
  end.
Proof.
  unfold property_obj. destruct (p_enum prop) as [enum |]; [| done].
  rewrite get_enum_choices. split_and!; [done | done |].
  by rewrite length_fmap.
Qed.

Definition root_keys : list string :=
  ["id"; "label"; "description"; "contact"; "authors"; "contributors";
   "project"; "changeHistory"; "subTopics"].

(** C5 (amended).  On enter of the root the builder creates an ordered
    mapping whose fields are exactly [id], [label], [description],
    [contact], [authors], [contributors], [project], [changeHistory]
    and [subTopics], in this order, with [project] the text "cordex"
    and [subTopics] an empty list, and stores it in the cache under the
    identity of the root.  The handler cannot fail. *)
Theorem root_fragment_fields (r : Root) (s : state) :
  ∃ s' l d,
    on_root_parse get_label r s = OK (tt, s')
    ∧ _maps s' !! r_ident r = Some l
    ∧ store s' !! l = Some d
    ∧ od_keys d = root_keys
    ∧ od_get "project" d = Some (JStr "cordex")
    ∧ od_get "subTopics" d = Some (JList []).
Proof.
  eexists _, (length (store s)), (root_obj get_label r).
  split; [reflexivity |]. simpl. split_and!; try done.
  - apply lookup_insert_eq.
  - by rewrite lookup_app_r, Nat.sub_diag.
Qed.

Lemma append_to_ok s l d key xs v :
  store s !! l = Some d → od_get key d = Some (JList xs) →
  append_to l key v s =
    OK (tt, {| root := root s; _maps := _maps s;
               store := <[l := od_set key (JList (xs ++ [v])) d]> (store s) |}).
Proof. intros Hl Hk. unfold append_to. by rewrite Hl, Hk. Qed.

(** Appending [vs] one by one to the list under [key] of the fragment that
    [k] is cached under. *)
Lemma append_loop {A} (k : ident) (key : string) (f : A → jval) (l : nat) (vs : list A) :
  ∀ s d xs,
    _maps s !! k = Some l → store s !! l = Some d → od_get key d = Some (JList xs) →
    for_each vs (λ v, let* l := get_map k in append_to l key (f v)) s =
      OK (tt, {| root := root s; _maps := _maps s;
                 store := <[l := od_set key (JList (xs ++ (f <$> vs))) d]> (store s) |}).
Proof.
  induction vs as [| v vs IH]; intros s d xs Hk Hl Hd.
  - simpl. unfold ret. rewrite app_nil_r, (od_set_id _ _ _ Hd), (list_insert_id _ _ _ Hl).
    by destruct s.
  - cbn [for_each]. unfold bind at 1. unfold bind at 1. unfold get_map at 1. rewrite Hk.
    rewrite (append_to_ok _ _ _ _ _ _ Hl Hd).
    pose proof (lookup_lt_Some _ _ _ Hl) as Hlt.
    rewrite (IH _ (od_set key (JList (xs ++ [f v])) d) (xs ++ [f v])); cbn [root _maps store].
    + rewrite list_insert_insert_eq, od_set_set, fmap_cons.
      by rewrite <- (assoc_L (++)).
    + done.
    + by apply list_lookup_insert_eq.
    + apply od_get_set_eq.
Qed.

Definition event_property (e : event) : list Property :=
  match e with
  | PropertyEnter p => [p]
  | _ => []
  end.

Definition inner (e : event) : Prop :=
  match e with
  | RootEnter _ | RootExit _ | TopicEnter _ => False
  | _ => True
  end.

Lemma run_inner (k : ident) (evs : list event) (s : state) :
  Forall inner evs →
  Forall (λ p, p_root_topic p = k) (evs ≫= event_property) →
  run get_label evs s =
    for_each (evs ≫= event_property)
      (λ p, let* l := get_map k in
            append_to l "properties" (JDict (property_obj get_label p))) s.
Proof.
  unfold run. revert s. induction evs as [| e evs IH]; intros s Hin Hk; [done |].
  apply Forall_cons in Hin as [He Hin].
  rewrite bind_cons in Hk |- *. apply Forall_app in Hk as [Hk1 Hk2].
  rewrite for_each_app, for_each_cons.
  destruct e; try done; cbn [handle event_property for_each ret];
    try by apply IH.
  apply Forall_cons in Hk1 as [<- _].
  unfold on_property_parse at 1. unfold bind at 2.
  destruct (bind (get_map _) _ s) as [[[] s'] | err]; [| done].
  by apply IH.
Qed.

(** The properties met below a topic, in the order of the walk. *)
Definition details_properties (props : list Property) (sets : list PropertySet)
  : list Property :=
  props ++ (sets ≫= ps_properties).

Definition topic_properties (t : Topic) : list Property :=
  details_properties (t_properties t) (t_property_sets t)
  ++ (t_subprocesses t ≫= λ sp, details_properties (sp_properties sp) (sp_property_sets sp)).

Lemma walk_property_inner p :
  Forall inner (Walk.of_property p) ∧ Walk.of_property p ≫= event_property = [p].
Proof.
  unfold Walk.of_property. destruct (p_enum p) as [e |]; [| by repeat constructor].
  split.
  - constructor; [done |]. by apply Forall_fmap, Forall_true.
  - rewrite bind_cons. simpl. f_equal.
    induction (en_choices e) as [| c cs IH]; [done |].
    by rewrite fmap_cons, bind_cons.
Qed.

Lemma walk_properties_inner props :
  Forall inner (props ≫= Walk.of_property)
  ∧ (props ≫= Walk.of_property) ≫= event_property = props.
Proof.
  induction props as [| p props [IH1 IH2]]; [by split |].
  destruct (walk_property_inner p) as [H1 H2].
  rewrite bind_cons. split.
  - by apply Forall_app.
  - by rewrite bind_app, H2, IH2.
Qed.

Lemma walk_details_inner props sets :
  Forall inner (Walk.of_details props sets)
  ∧ Walk.of_details props sets ≫= event_property = details_properties props sets.
Proof.
  unfold Walk.of_details, details_properties.
  destruct (walk_properties_inner props) as [H1 H2].
  assert (Forall inner (sets ≫= Walk.of_property_set)
          ∧ (sets ≫= Walk.of_property_set) ≫= event_property = sets ≫= ps_properties)
    as [H3 H4].
  { induction sets as [| ps sets [IH1 IH2]]; [by split |].
    destruct (walk_properties_inner (ps_properties ps)) as [H3 H4].
    rewrite !bind_cons. unfold Walk.of_property_set at 1 3. split.
    - apply Forall_app. split; [by constructor | done].
    - rewrite bind_app, bind_cons. simpl. by rewrite H4, IH2. }
  split.
  - by apply Forall_app.
  - by rewrite bind_app, H2, H4.
Qed.

Lemma walk_topic_inner t :
  ∃ evs, Walk.of_topic t = TopicEnter t :: evs
         ∧ Forall inner evs
         ∧ evs ≫= event_property = topic_properties t.
Proof.
  eexists. split; [reflexivity |]. unfold topic_properties.
  destruct (walk_details_inner (t_properties t) (t_property_sets t)) as [H1 H2].
  assert (Forall inner (t_subprocesses t ≫= Walk.of_subprocess)
          ∧ (t_subprocesses t ≫= Walk.of_subprocess) ≫= event_property
            = t_subprocesses t ≫= λ sp, details_properties (sp_properties sp) (sp_property_sets sp))
    as [H3 H4].
  { induction (t_subprocesses t) as [| sp sps [IH1 IH2]]; [by split |].
    destruct (walk_details_inner (sp_properties sp) (sp_property_sets sp)) as [H3 H4].
    rewrite !bind_cons. unfold Walk.of_subprocess at 1 3. split.
    - apply Forall_app. split; [by constructor | done].
    - rewrite bind_app, bind_cons. simpl. by rewrite H4, IH2. }
  split.
  - by apply Forall_app.
  - by rewrite bind_app, H2, H4.
Qed.

Definition topic_with (t : Topic) (props : list jval) : list (string * jval) :=
  [("id", JStr (t_id t));
   ("label", JStr (get_label (t_name t)));
   ("description", jopt (t_description t));
   ("contact", JStr (t_contact t));
   ("properties", JList props)].

Definition root_fields (r : Root) : list (string * jval) :=
  [("id", JStr (r_id r));
   ("label", JStr (get_label (r_name r)));
   ("description", jopt (r_description r));
   ("contact", JStr (r_contact r));
   ("authors", JList (JStr ∘ PyStr.strip <$> PyStr.split "," (r_authors r)));
   ("contributors", JList (JStr ∘ PyStr.strip <$> PyStr.split "," (r_contributors r)));
   ("project", JStr "cordex");
   ("changeHistory", JList (_get_change <$> r_change_history r))].

Definition root_with (r : Root) (subs : list jval) : list (string * jval) :=
  root_fields r ++ [("subTopics", JList subs)].

(** The rendering the builder is to produce: one fragment for the root,
    one per sub-topic of the root, one per property below a sub-topic. *)
Definition topic_fragment (t : Topic) : list (string * jval) :=
  topic_with t (JDict ∘ property_obj get_label <$> topic_properties t).

Definition root_fragment (r : Root) : jval :=
  JDict (root_with r (JDict ∘ topic_fragment <$> r_sub_topics r)).

Definition topic_wf (t : Topic) : Prop :=
  t_kind t ≠ Realm
  ∧ Forall (λ p, p_root_topic p = t_ident t) (topic_properties t).

(** Well-formed: the root and its sub-topics are distinct objects, a
    sub-topic is a grid, the key properties or a process, and the root
    topic of a property is the sub-topic it is met under. *)
Definition wf (r : Root) : Prop :=
  NoDup (r_ident r :: (t_ident <$> r_sub_topics r))
  ∧ Forall topic_wf (r_sub_topics r).

Lemma run_topic (t : Topic) (s : state) :
  topic_wf t →
  run get_label (Walk.of_topic t) s =
    OK (tt, {| root := root s;
               _maps := <[t_ident t := length (store s)]> (_maps s);
               store := store s ++ [topic_fragment t] |}).
Proof.
  intros [Hkind Hwf]. destruct (walk_topic_inner t) as (evs & -> & Hin & Hprops).
  unfold run. rewrite for_each_cons.
  assert (handle get_label (TopicEnter t) = on_topic_parse get_label t) as ->
    by (cbn [handle]; by destruct (t_kind t)).
  unfold on_topic_parse, set_map, modify.
  fold (run get_label evs).
  rewrite (run_inner (t_ident t)); [| done | by rewrite Hprops].
  rewrite (append_loop (t_ident t) "properties" (JDict ∘ property_obj get_label)
             (length (store s)) _ _ (topic_with t []) []); cbn [root _maps store].
  - rewrite Hprops. do 2 f_equal. f_equal.
    rewrite <- (Nat.add_0_r (length (store s))), insert_app_r. done.
  - apply lookup_insert_eq.
  - by rewrite lookup_app_r, Nat.sub_diag.
  - done.
Qed.

(** The cache after the sub-topics [ts] were entered, the first of them
    when the store held [n] fragments. *)
Fixpoint maps_after (m : gmap ident nat) (n : nat) (ts : list Topic) : gmap ident nat :=
  match ts with
  | [] => m
  | t :: ts' => maps_after (<[t_ident t := n]> m) (S n) ts'
  end.

Lemma maps_after_notin m n ts k :
  k ∉ t_ident <$> ts → maps_after m n ts !! k = m !! k.
Proof.
  revert m n. induction ts as [| t ts IH]; intros m n Hk; [done |].
  rewrite fmap_cons in Hk. apply not_elem_of_cons in Hk as [Hne Hk].
  simpl. rewrite IH by done. by rewrite lookup_insert_ne.
Qed.

Lemma maps_after_lookup m n ts :
  NoDup (t_ident <$> ts) →
  Forall2 (λ t l, maps_after m n ts !! t_ident t = Some l) ts (seq n (length ts)).
Proof.
  revert m n. induction ts as [| t ts IH]; intros m n Hnd; [constructor |].
  rewrite fmap_cons in Hnd. apply NoDup_cons in Hnd as [Hnotin Hnd].
  simpl. constructor.
  - rewrite maps_after_notin by done. apply lookup_insert_eq.
  - by apply IH.
Qed.

Lemma run_topics (ts : list Topic) :
  ∀ s, Forall topic_wf ts →
    run get_label (ts ≫= Walk.of_topic) s =
      OK (tt, {| root := root s;
                 _maps := maps_after (_maps s) (length (store s)) ts;
                 store := store s ++ (topic_fragment <$> ts) |}).
Proof.
  induction ts as [| t ts IH]; intros s Hwf.
  - simpl. unfold ret. rewrite app_nil_r. by destruct s.
  - apply Forall_cons in Hwf as [Ht Hts].
    rewrite bind_cons. unfold run. rewrite for_each_app.
    fold (run get_label (Walk.of_topic t)). rewrite run_topic by done.
    fold (run get_label (ts ≫= Walk.of_topic)). rewrite IH by done.
    cbn [root _maps store maps_after]. rewrite length_app, Nat.add_1_r.
    by rewrite <- (assoc_L (++)).
Qed.

Lemma map_m_get_map (ts : list Topic) (s : state) (ls : list nat) :
  Forall2 (λ t l, _maps s !! t_ident t = Some l) ts ls →
  map_m (λ i, get_map (t_ident i)) ts s = OK (ls, s).
Proof.
  induction 1 as [| t l ts ls Ht _ IH]; [done |].
  cbn [map_m]. unfold bind at 1. unfold get_map at 1. rewrite Ht.
  unfold bind at 1. by rewrite IH.
Qed.

Lemma resolve_no_refs fuel h v : no_refs v = true → resolve (S fuel) h v = OK v.
Proof. apply resolve_in_no_refs. Qed.

Lemma no_refs_fmap {A} (f : A → jval) (xs : list A) :
  (∀ x, no_refs (f x) = true) → forallb no_refs (f <$> xs) = true.
Proof.
  intros Hf. induction xs as [| x xs IH]; [done |].
  rewrite fmap_cons. simpl. by rewrite Hf, IH.
Qed.

Lemma no_refs_jopt o : no_refs (jopt o) = true.
Proof. by destruct o. Qed.

Lemma no_refs_property_obj p : no_refs (JDict (property_obj get_label p)) = true.
Proof.
  unfold property_obj. destruct (p_enum p) as [e |].
  - rewrite get_enum_choices. simpl. rewrite !no_refs_jopt. simpl.
    rewrite no_refs_fmap; [done |]. intros c. simpl. by rewrite no_refs_jopt.
  - simpl. by rewrite no_refs_jopt.
Qed.

Lemma no_refs_topic_fragment t : no_refs (JDict (topic_fragment t)) = true.
Proof.
  simpl. rewrite no_refs_jopt. simpl.
  rewrite (no_refs_fmap (JDict ∘ property_obj get_label)); [done |].
  intros p. apply no_refs_property_obj.
Qed.

Lemma map_r_refs h deref (ls : list nat) (ds : list (list (string * jval))) :
  Forall2 (λ l d, h !! l = Some d ∧ deref (JDict d) = OK (JDict d)) ls ds →
  map_r (resolve_in h deref) (JRef <$> ls) = OK (JDict <$> ds).
Proof.
  induction 1 as [| l d ls ds [Hl Hd] _ IH]; [done |].
  rewrite !fmap_cons. cbn [map_r resolve_in]. by rewrite Hl, Hd, IH.
Qed.

Lemma lookup_seq_suffix {A} (P : A → Prop) (pre ds : list A) :
  Forall P ds →
  Forall2 (λ l d, (pre ++ ds) !! l = Some d ∧ P d) (seq (length pre) (length ds)) ds.
Proof.
  intros HP. revert pre. induction HP as [| d ds Hd _ IH]; intros pre; [constructor |].
  simpl. constructor.
  - by rewrite lookup_app_r, Nat.sub_diag.
  - specialize (IH (pre ++ [d])).
    rewrite length_app, Nat.add_1_r, <- (assoc_L (++)) in IH. done.
Qed.

Lemma resolve_in_dict_last h deref kvs k v v' :
  forallb (λ '(_, x), no_refs x) kvs = true →
  resolve_in h deref v = OK v' →
  resolve_in h deref (JDict (kvs ++ [(k, v)])) = OK (JDict (kvs ++ [(k, v')])).
Proof.
  intros Hkvs Hv. cbn [resolve_in].
  assert (map_r (λ '(k, x), result_map (pair k) (resolve_in h deref x)) (kvs ++ [(k, v)])
          = OK (kvs ++ [(k, v')])) as ->; [| done].
  induction kvs as [| [k0 v0] kvs IH]; simpl.
  - by rewrite Hv.
  - simpl in Hkvs. apply andb_true_iff in Hkvs as [H0 Hkvs].
    rewrite (resolve_in_no_refs _ _ _ H0). simpl. by rewrite IH.
Qed.

Lemma no_refs_root_fields (r : Root) :
  forallb (λ '(_, x), no_refs x) (root_fields r) = true.
Proof.
  unfold root_fields. cbn [forallb no_refs]. rewrite no_refs_jopt.
  rewrite !(no_refs_fmap (JStr ∘ PyStr.strip)) by done.
  rewrite no_refs_fmap; [done |]. by intros [[[v d] a] n].
Qed.

Lemma resolve_root_fragment (r : Root) (h : list (list (string * jval))) :
  h = root_with r (JRef <$> seq 1 (length (r_sub_topics r)))
      :: (topic_fragment <$> r_sub_topics r) →
  resolve (S (length h)) h (JRef 0) = OK (root_fragment r).
Proof.
  intros Hh. cbn [resolve resolve_in].
  replace (h !! 0) with (Some (root_with r (JRef <$> seq 1 (length (r_sub_topics r)))))
    by by rewrite Hh.
  replace (length h) with (S (length (r_sub_topics r)))
    by by rewrite Hh; cbn [length]; rewrite length_fmap.
  cbn [resolve].
  apply resolve_in_dict_last; [apply no_refs_root_fields |].
  cbn [resolve_in].
  rewrite (map_r_refs _ _ _ (topic_fragment <$> r_sub_topics r)).
  { cbn [result_map]. by rewrite <- list_fmap_compose. }
  destruct (r_sub_topics r) as [| t0 ts] eqn:Hts; [constructor |].
  rewrite <- Hts in *.
  pose proof (lookup_seq_suffix (λ d, no_refs (JDict d) = true)
                [root_with r (JRef <$> seq 1 (length (r_sub_topics r)))]
                (topic_fragment <$> r_sub_topics r)) as Hs.
  rewrite length_fmap in Hs. cbn [length app] in Hs. rewrite <- Hh in Hs.
  eapply Forall2_impl; [apply Hs |].
  - apply Forall_fmap, Forall_forall. intros t _. apply no_refs_topic_fragment.
  - intros l d [Hl Hd]. split; [done |].
    rewrite Hts. cbn [length]. by apply resolve_no_refs.
Qed.

Lemma run_root (r : Root) :
  wf r →
  run get_label (Walk.of_root r) (init r) =
    OK (tt, {| root := r;
               _maps := maps_after {[r_ident r := 0]} 1 (r_sub_topics r);
               store := root_with r (JRef <$> seq 1 (length (r_sub_topics r)))
                        :: (topic_fragment <$> r_sub_topics r) |}).
Proof.
  intros [Hnd Hwf]. apply NoDup_cons in Hnd as [Hroot Hnd].
  unfold Walk.of_root, run. rewrite for_each_cons. cbn [handle].
  unfold on_root_parse, set_map, modify, init. cbn [root _maps store length app].
  rewrite for_each_app. fold (run get_label (r_sub_topics r ≫= Walk.of_topic)).
  rewrite run_topics by done. cbn [root _maps store length app].
  rewrite for_each_cons. cbn [handle for_each ret].
  unfold on_root_parsed, bind at 1, gets. cbn [root].
  unfold bind at 1.
  rewrite (map_m_get_map _ _ (seq 1 (length (r_sub_topics r))));
    [| by apply maps_after_lookup].
  rewrite (append_loop (r_ident r) "subTopics" JRef 0 _ _ (root_with r []) []);
    cbn [root _maps store]; [done | | done | done].
  rewrite maps_after_notin by done. apply lookup_insert_eq.
Qed.

(** The dicts of a rendering other than the entries of the change
    history: the fragments built for nodes. *)
Fixpoint count_fragments (v : jval) : nat :=
  match v with
  | JDict kvs =>
      S (sum_list_with (λ '(k, x), if decide (k = "changeHistory") then 0
                                   else count_fragments x) kvs)
  | JList xs => sum_list_with count_fragments xs
  | _ => 0
  end.

Definition count_enum (p : Property) : nat :=
  match p_enum p with
  | Some e => S (length (en_choices e))
  | None => 0
  end.

Definition count_properties (ps : list Property) : nat :=
  sum_list_with (λ p, S (count_enum p)) ps.

(** The Root, Topic, Subprocess, Property, Enum and EnumChoice nodes
    reachable from a root. *)
Definition count_details (props : list Property) (sets : list PropertySet) : nat :=
  count_properties props + sum_list_with (count_properties ∘ ps_properties) sets.

Definition count_subprocess (sp : Subprocess) : nat :=
  S (count_details (sp_properties sp) (sp_property_sets sp)).

Definition count_topic (t : Topic) : nat :=
  S (count_details (t_properties t) (t_property_sets t)
     + sum_list_with count_subprocess (t_subprocesses t)).

Definition count_nodes (r : Root) : nat :=
  S (sum_list_with count_topic (r_sub_topics r)).

Definition count_subprocesses (r : Root) : nat :=
  sum_list_with (length ∘ t_subprocesses) (r_sub_topics r).

Lemma count_properties_app ps qs :
  count_properties (ps ++ qs) = count_properties ps + count_properties qs.
Proof. apply sum_list_with_app. Qed.

Lemma count_details_properties props sets :
  count_properties (details_properties props sets) = count_details props sets.
Proof.
  unfold details_properties, count_details. rewrite count_properties_app. f_equal.
  induction sets as [| ps sets IH]; [done |].
  rewrite bind_cons, count_properties_app, IH. done.
Qed.

Lemma count_topic_properties t :
  count_topic t = S (count_properties (topic_properties t) + length (t_subprocesses t)).
Proof.
  unfold count_topic, topic_properties.
  rewrite count_properties_app, count_details_properties. f_equal.
  rewrite <- Nat.add_assoc. f_equal.
  induction (t_subprocesses t) as [| sp sps IH]; [done |].
  rewrite bind_cons, count_properties_app, count_details_properties.
  cbn [sum_list_with length]. unfold count_subprocess at 1. rewrite IH. lia.
Qed.

Lemma count_jopt o : count_fragments (jopt o) = 0.
Proof. by destruct o. Qed.

Lemma count_list_fmap {A} (f : A → jval) (g : A → nat) (xs : list A) :
  (∀ x, count_fragments (f x) = g x) →
  count_fragments (JList (f <$> xs)) = sum_list_with g xs.
Proof.
  intros Hf. cbn [count_fragments].
  induction xs as [| x xs IH]; [done |].
  rewrite fmap_cons. cbn [sum_list_with]. by rewrite Hf, IH.
Qed.

Lemma count_list_zero {A} (f : A → jval) (xs : list A) :
  (∀ x, count_fragments (f x) = 0) → count_fragments (JList (f <$> xs)) = 0.
Proof.
  intros Hf. rewrite (count_list_fmap f (λ _, 0)) by done.
  induction xs as [| x xs IH]; [done |]. done.
Qed.

Lemma count_choices (cs : list EnumChoice) :
  count_fragments (JList (choice_entry <$> cs)) = length cs.
Proof.
  rewrite (count_list_fmap choice_entry (λ _, 1)).
  - induction cs as [| c cs IH]; [done |]. simpl. by rewrite IH.
  - intros c. simpl. by rewrite count_jopt.
Qed.

Lemma count_property_obj p :
  count_fragments (JDict (property_obj get_label p)) = S (count_enum p).
Proof.
  unfold property_obj, count_enum. destruct (p_enum p) as [e |].
  - rewrite get_enum_choices.
    change (count_fragments _) with
      (S (count_fragments (jopt (p_description p))
          + S (count_fragments (jopt (en_description e))
               + (count_fragments (jopt (en_description e))
                  + (count_fragments (JList (choice_entry <$> en_choices e)) + 0))
               + 0))).
    rewrite !count_jopt, count_choices. lia.
  - simpl. by rewrite count_jopt.
Qed.

Lemma count_topic_fragment t :
  count_fragments (JDict (topic_fragment t)) = S (count_properties (topic_properties t)).
Proof.
  change (count_fragments _) with
    (S (count_fragments (jopt (t_description t))
        + (count_fragments
             (JList (JDict ∘ property_obj get_label <$> topic_properties t)) + 0))).
  rewrite count_jopt.
  rewrite (count_list_fmap _ (λ p, S (count_enum p))) by apply count_property_obj.
  unfold count_properties. lia.
Qed.

Lemma count_root_fragment r :
  count_fragments (root_fragment r) + count_subprocesses r = count_nodes r.
Proof.
  change (count_fragments (root_fragment r)) with
    (S (count_fragments (jopt (r_description r))
        + (count_fragments (JList (JStr ∘ PyStr.strip <$> PyStr.split "," (r_authors r)))
           + (count_fragments
                (JList (JStr ∘ PyStr.strip <$> PyStr.split "," (r_contributors r)))
              + (count_fragments (JList (JDict ∘ topic_fragment <$> r_sub_topics r)) + 0))))).
  rewrite count_jopt, !(count_list_zero (JStr ∘ PyStr.strip)) by done.
  rewrite (count_list_fmap _ (λ t, S (count_properties (topic_properties t))))
    by apply count_topic_fragment.
  unfold count_nodes, count_subprocesses.
  induction (r_sub_topics r) as [| t ts IH]; [done |].
  cbn [sum_list_with] in *. rewrite count_topic_properties. simpl. lia.
Qed.

(** The list and the value under a key of a fragment. *)
Definition fragment_list (key : string) (v : jval) : list jval :=
  match v with
  | JDict d => match od_get key d with Some (JList xs) => xs | _ => [] end
  | _ => []
  end.

Definition fragment_field (key : string) (v : jval) : jval :=
  match v with
  | JDict d => default JNull (od_get key d)
  | _ => JNull
  end.

(** The lengths a rendering shows: of the [properties] of each fragment
    in its [subTopics], and of the [choices] of the enumeration of each
    of these properties (none without enumeration). *)
Definition properties_lengths (out : jval) : list nat :=
  length ∘ fragment_list "properties" <$> fragment_list "subTopics" out.

Definition choices_lengths (out : jval) : list (list nat) :=
  (λ t, length ∘ fragment_list "choices" ∘ fragment_field "enum"
        <$> fragment_list "properties" t)
  <$> fragment_list "subTopics" out.

Lemma sub_topics_of_root_fragment r :
  fragment_list "subTopics" (root_fragment r) = JDict ∘ topic_fragment <$> r_sub_topics r.
Proof. reflexivity. Qed.

Lemma properties_of_topic_fragment t :
  fragment_list "properties" (JDict (topic_fragment t))
  = JDict ∘ property_obj get_label <$> topic_properties t.
Proof. reflexivity. Qed.

Lemma choices_of_property_obj p :
  length (fragment_list "choices" (fragment_field "enum" (JDict (property_obj get_label p))))
  = from_option (length ∘ en_choices) 0 (p_enum p).
Proof.
  unfold property_obj. destruct (p_enum p) as [enum |]; [| done].
  rewrite get_enum_choices. exact (length_fmap choice_entry (en_choices enum)).
Qed.

(** C1 (amended).  For a well-formed specialization the value handed to
    [json.dumps] is [root_fragment]: the fragment of the root, whose
    [subTopics] holds one fragment per sub-topic of the root in declaration
    order; the [properties] of a sub-topic's fragment holds one fragment
    per property met below it (its own, those of its property sets and
    those of its subprocesses), in the order of the walk; a property with
    an enumeration inlines one enum fragment with one entry per choice.
    So the length of [subTopics] is the number of sub-topics, the length
    of a [properties] is the number of properties below the sub-topic, the
    length of a [choices] is the number of choices, and there is exactly
    one fragment per Root, Topic, Property, Enum and EnumChoice node, and
    none for a Subprocess node. *)
Theorem tree_form_complete (r : Root) :
  wf r →
  ∃ s',
    (run get_label (Walk.of_root r) >> output_value) (init r)
    = OK (root_fragment r, s')
    ∧ length (fragment_list "subTopics" (root_fragment r)) = length (r_sub_topics r)
    ∧ properties_lengths (root_fragment r)
      = length ∘ topic_properties <$> r_sub_topics r
    ∧ choices_lengths (root_fragment r)
      = (λ t, (λ p, from_option (length ∘ en_choices) 0 (p_enum p))
              <$> topic_properties t) <$> r_sub_topics r
    ∧ count_fragments (root_fragment r) + count_subprocesses r = count_nodes r.
Proof.
  intros Hwf. eexists. split_and!; [| | | | apply count_root_fragment].
  - unfold bind. rewrite (run_root r Hwf).
    unfold output_value, bind, gets, get_map, lift. cbn [root _maps store].
    destruct Hwf as [Hnd _]. apply NoDup_cons in Hnd as [Hroot _].
    rewrite maps_after_notin by done. rewrite lookup_singleton_eq.
    cbn [store]. by rewrite (resolve_root_fragment r _ eq_refl).
  - by rewrite sub_topics_of_root_fragment, length_fmap.
  - unfold properties_lengths.
    rewrite sub_topics_of_root_fragment, <- list_fmap_compose.
    apply list_fmap_ext. intros _ t _. cbn [compose].
    by rewrite properties_of_topic_fragment, length_fmap.
  - unfold choices_lengths.
    rewrite sub_topics_of_root_fragment, <- list_fmap_compose.
    apply list_fmap_ext. intros _ t _. cbn [compose].
    rewrite properties_of_topic_fragment, <- list_fmap_compose.
    apply list_fmap_ext. intros _ p _. cbn [compose].
    apply choices_of_property_obj.
Qed.

(** *** A run does not depend on what the generator held before *)

(** The same value in a store whose fragments sit [n] places further. *)
Fixpoint shift (n : nat) (v : jval) : jval :=
  match v with
  | JNull => JNull
  | JBool b => JBool b
  | JStr s => JStr s
  | JList xs => JList (shift n <$> xs)
  | JDict kvs => JDict (prod_map id (shift n) <$> kvs)
  | JRef l => JRef (n + l)
  end.

Definition shift_od (n : nat) (d : list (string * jval)) : list (string * jval) :=
  prod_map id (shift n) <$> d.

Lemma shift_no_refs n v : no_refs v = true → shift n v = v.
Proof.
  induction v as [| b | s | xs IH | kvs IH | l] using jval_nested_ind; intros Hv; try done.
  - simpl in *. f_equal. rewrite forallb_forall in Hv. rewrite Forall_forall in IH.
    rewrite <- (list_fmap_id xs) at 2. apply list_fmap_ext. intros i x Hx.
    apply list_elem_of_lookup_2 in Hx. apply IH; [done |]. apply Hv. by apply list_elem_of_In.
  - simpl in *. f_equal. rewrite forallb_forall in Hv. rewrite Forall_forall in IH.
    rewrite <- (list_fmap_id kvs) at 2. apply list_fmap_ext. intros i [k x] Hx.
    apply list_elem_of_lookup_2 in Hx. unfold prod_map. simpl. f_equal.
    apply (IH (k, x)); [done |]. apply (Hv (k, x)). by apply list_elem_of_In.
Qed.

Lemma shift_od_no_refs n d : no_refs (JDict d) = true → shift_od n d = d.
Proof. intros Hd. apply (shift_no_refs n) in Hd. by injection Hd. Qed.

Lemma od_get_shift n k d : od_get k (shift_od n d) = shift n <$> od_get k d.
Proof.
  induction d as [| [k' v] d IH]; [done |]. simpl.
  by destruct (decide (k' = k)).
Qed.

Lemma od_set_shift n k v d :
  shift_od n (od_set k v d) = od_set k (shift n v) (shift_od n d).
Proof.
  induction d as [| [k' v'] d IH]; [done |]. simpl.
  destruct (decide (k' = k)); [done |]. simpl. f_equal. apply IH.
Qed.

(** [B] holds everything [A] holds, [n] places further. *)
Record simulates (n : nat) (A B : state) : Prop := {
  sim_root : root B = root A;
  sim_length : length (store B) = n + length (store A);
  sim_maps : ∀ k l, _maps A !! k = Some l → _maps B !! k = Some (n + l);
  sim_store : ∀ l d, store A !! l = Some d → store B !! (n + l) = Some (shift_od n d)
}.

Lemma js_simulates_init r s : root s = r → simulates (length (store s)) (init r) s.
Proof. intros Hr. split; [done | simpl; lia | done | done]. Qed.

Lemma set_map_sim n A B k obj A' :
  simulates n A B → no_refs (JDict obj) = true →
  set_map k obj A = OK (tt, A') →
  ∃ B', set_map k obj B = OK (tt, B') ∧ simulates n A' B'.
Proof.
  intros [Hr Hl Hm Hs] Hobj [= <-]. eexists. split; [done |].
  split; cbn [root _maps store].
  - done.
  - rewrite !length_app. simpl. lia.
  - intros k0 l. destruct (decide (k = k0)) as [-> | Hne].
    + rewrite !lookup_insert_eq. intros [= <-]. by rewrite Hl.
    + rewrite !lookup_insert_ne by done. apply Hm.
  - intros l d Hd. destruct (decide (l < length (store A))) as [Hlt | Hge].
    + rewrite lookup_app_l in Hd by done. rewrite lookup_app_l by lia. by apply Hs.
    + rewrite lookup_app_r in Hd by lia. rewrite lookup_app_r by lia.
      replace (n + l - length (store B)) with (l - length (store A)) by lia.
      destruct (l - length (store A)); [| done].
      injection Hd as <-. by rewrite shift_od_no_refs.
Qed.

Lemma get_map_sim n A B k l A' :
  simulates n A B → get_map k A = OK (l, A') →
  A' = A ∧ get_map k B = OK (n + l, B).
Proof.
  intros [_ _ Hm _]. unfold get_map.
  destruct (_maps A !! k) as [l0 |] eqn:Hk; [| done].
  intros [= <- <-]. by rewrite (Hm _ _ Hk).
Qed.

Lemma append_to_sim n A B l key v A' :
  simulates n A B → append_to l key v A = OK (tt, A') →
  ∃ B', append_to (n + l) key (shift n v) B = OK (tt, B') ∧ simulates n A' B'.
Proof.
  intros [Hr Hl Hm Hs]. unfold append_to.
  destruct (store A !! l) as [d |] eqn:Hd; [| done].
  rewrite (Hs _ _ Hd), od_get_shift.
  destruct (od_get key d) as [[| | | xs | |] |]; try done. cbn [fmap option_fmap option_map shift].
  intros [= <-]. eexists. split; [done |].
  pose proof (lookup_lt_Some _ _ _ Hd) as Hlt.
  split; cbn [root _maps store].
  - done.
  - rewrite !length_insert. lia.
  - done.
  - intros l0 d0. destruct (decide (l0 = l)) as [-> | Hne].
    + rewrite !list_lookup_insert_eq by lia. intros [= <-].
      rewrite od_set_shift. cbn [shift]. by rewrite fmap_app.
    + rewrite !list_lookup_insert_ne by lia. apply Hs.
Qed.

Lemma no_refs_root_obj r : no_refs (JDict (root_obj get_label r)) = true.
Proof.
  change (root_obj get_label r) with (root_with r []). unfold root_with.
  cbn [no_refs]. rewrite forallb_app, no_refs_root_fields. done.
Qed.

Lemma no_refs_topic_obj t : no_refs (JDict (topic_obj get_label t)) = true.
Proof. simpl. by rewrite no_refs_jopt. Qed.

Lemma map_m_get_map_sim n A B (ts : list Topic) ls A' :
  simulates n A B →
  map_m (λ i, get_map (t_ident i)) ts A = OK (ls, A') →
  A' = A ∧ map_m (λ i, get_map (t_ident i)) ts B = OK (Nat.add n <$> ls, B).
Proof.
  intros Hsim. revert ls. induction ts as [| t ts IH]; intros ls.
  - by intros [= <- <-].
  - cbn [map_m]. intros (l & A1 & H1 & H2)%bind_inv.
    apply (get_map_sim n A B) in H1 as [-> H1]; [| done].
    apply bind_inv in H2 as (ls' & A2 & H2 & [= <- <-]).
    apply IH in H2 as [-> H2]. split; [done |].
    unfold bind. by rewrite H1, H2.
Qed.

Lemma attach_loop_sim n k (objs : list nat) :
  ∀ A B A',
    simulates n A B →
    for_each objs (λ obj, let* l := get_map k in append_to l "subTopics" (JRef obj)) A
    = OK (tt, A') →
    ∃ B',
      for_each (Nat.add n <$> objs)
        (λ obj, let* l := get_map k in append_to l "subTopics" (JRef obj)) B
      = OK (tt, B')
      ∧ simulates n A' B'.
Proof.
  induction objs as [| obj objs IH]; intros A B A' Hsim.
  - intros [= <-]. by exists B.
  - rewrite fmap_cons, !for_each_cons.
    destruct (bind (get_map k) _ A) as [[[] A1] |] eqn:H1; [| done].
    intros Hrest. apply bind_inv in H1 as (l & A0 & Hg & Ha).
    apply (get_map_sim n A B) in Hg as [-> Hg]; [| done].
    apply (append_to_sim n A B) in Ha as (B1 & Ha & Hsim1); [| done].
    unfold bind at 1. rewrite Hg. cbn [shift] in Ha. rewrite Ha.
    by apply IH with A1.
Qed.

Lemma js_handle_sim n e A B A' :
  simulates n A B →
  handle get_label e A = OK (tt, A') →
  ∃ B', handle get_label e B = OK (tt, B') ∧ simulates n A' B'.
Proof.
  intros Hsim. destruct e as [r | r | t | sp | ps | p | c]; cbn [handle].
  - apply set_map_sim; [done | apply no_refs_root_obj].
  - unfold on_root_parsed. intros (r0 & A0 & [= <- <-] & H)%bind_inv.
    apply bind_inv in H as (objs & A1 & Hm & Hloop).
    apply (map_m_get_map_sim n A B) in Hm as [-> Hm]; [| done].
    apply (attach_loop_sim n _ _ A B) in Hloop as (B' & Hloop & Hsim'); [| done].
    exists B'. split; [| done].
    unfold bind at 1, gets. rewrite (sim_root _ _ _ Hsim).
    unfold bind at 1. by rewrite Hm.
  - destruct (t_kind t);
      [intros [= <-]; by exists B
      | apply set_map_sim; [done | apply no_refs_topic_obj] ..].
  - intros [= <-]. by exists B.
  - intros [= <-]. by exists B.
  - unfold on_property_parse. intros (l & A0 & Hg & Ha)%bind_inv.
    apply (get_map_sim n A B) in Hg as [-> Hg]; [| done].
    apply (append_to_sim n A B) in Ha as (B' & Ha & Hsim'); [| done].
    exists B'. split; [| done]. unfold bind. rewrite Hg.
    by rewrite (shift_no_refs n _ (no_refs_property_obj p)) in Ha.
  - intros [= <-]. by exists B.
Qed.

Lemma js_run_sim n evs :
  ∀ A B A',
    simulates n A B →
    run get_label evs A = OK (tt, A') →
    ∃ B', run get_label evs B = OK (tt, B') ∧ simulates n A' B'.
Proof.
  unfold run. induction evs as [| e evs IH]; intros A B A' Hsim.
  - intros [= <-]. by exists B.
  - rewrite !for_each_cons.
    destruct (handle get_label e A) as [[[] A1] |] eqn:He; [| done].
    apply (js_handle_sim n e A B) in He as (B1 & -> & Hsim1); [| done].
    by apply IH.
Qed.

Lemma resolve_in_sim n hA hB derefA derefB v x :
  (∀ l d, hA !! l = Some d → hB !! (n + l) = Some (shift_od n d)) →
  (∀ d y, derefA (JDict d) = OK y → derefB (JDict (shift_od n d)) = OK y) →
  resolve_in hA derefA v = OK x →
  resolve_in hB derefB (shift n v) = OK x.
Proof.
  intros Hh Hderef. revert x.
  induction v as [| b | s | xs IH | kvs IH | l] using jval_nested_ind; intros x; try done.
  - cbn [resolve_in shift].
    destruct (map_r _ xs) as [ys |] eqn:Hxs; [| done].
    by rewrite (map_r_sim _ _ _ _ _ IH Hxs).
  - cbn [resolve_in shift].
    destruct (map_r _ kvs) as [ys |] eqn:Hkvs; [| done].
    rewrite (map_r_sim (λ '(k, x), result_map (pair k) (resolve_in hA derefA x))
               (λ '(k, x), result_map (pair k) (resolve_in hB derefB x))
               (prod_map id (shift n)) kvs ys); [done | | done].
    eapply Forall_impl; [exact IH |]. intros [k v] Hv y. simpl in *.
    destruct (resolve_in hA derefA v) as [v' |]; [| done].
    by rewrite (Hv v' eq_refl).
  - cbn [resolve_in shift]. destruct (hA !! l) as [d |] eqn:Hl; [| done].
    rewrite (Hh _ _ Hl). apply Hderef.
Qed.

Lemma resolve_sim n hA hB :
  (∀ l d, hA !! l = Some d → hB !! (n + l) = Some (shift_od n d)) →
  ∀ fuel fuel' v x,
    fuel ≤ fuel' → resolve fuel hA v = OK x → resolve fuel' hB (shift n v) = OK x.
Proof.
  intros Hh. induction fuel as [| fuel IH]; intros fuel' v x Hle; [done |].
  destruct fuel' as [| fuel']; [lia |]. cbn [resolve].
  apply resolve_in_sim; [done |]. intros d y Hd.
  apply (IH fuel' (JDict d)); [lia | done].
Qed.

Lemma output_value_sim n A B v A' :
  simulates n A B → output_value A = OK (v, A') → output_value B = OK (v, B).
Proof.
  intros Hsim. unfold output_value.
  intros (r0 & A0 & [= <- <-] & H)%bind_inv.
  apply bind_inv in H as (l & A1 & Hg & H).
  apply (get_map_sim n A B) in Hg as [-> Hg]; [| done].
  apply bind_inv in H as (h & A2 & [= <- <-] & H).
  unfold lift in H.
  destruct (resolve _ _ _) as [x |] eqn:Hres; [| done]. injection H as <- <-.
  unfold bind at 1, gets. rewrite (sim_root _ _ _ Hsim).
  unfold bind at 1. rewrite Hg. unfold bind, gets, lift.
  assert (Hle : S (length (store A)) ≤ S (length (store B)))
    by (rewrite (sim_length _ _ _ Hsim); lia).
  pose proof (resolve_sim n (store A) (store B) (sim_store _ _ _ Hsim) _ _ (JRef l) _ Hle Hres)
    as Hres'.
  cbn [shift] in Hres'. by rewrite Hres'.
Qed.

(** The output of a run from any state of a generator for the same root
    is the output of the run of a new generator. *)
Lemma output_value_independent (evs : list event) (s : state) (v : jval) sA :
  (run get_label evs >> output_value) (init (root s)) = OK (v, sA) →
  ∃ sB, (run get_label evs >> output_value) s = OK (v, sB).
Proof.
  intros ([] & A1 & Hrun & Hout)%bind_inv.
  apply (js_run_sim (length (store s)) evs _ s) in Hrun as (B1 & Hrun & Hsim);
    [| by apply js_simulates_init].
  apply (output_value_sim (length (store s)) _ B1) in Hout; [| done].
  exists B1. unfold bind. by rewrite Hrun.
Qed.

End WithLabel.

(** C2, at an injected property: the mapping has no key [isInjected],
    the flag is under [is_cim_property]. *)
Lemma injected_flag_key :
  ("isInjected" ∉ od_keys (property_obj Sample.get_label Sample.overview))
  ∧ od_get "is_cim_property" (property_obj Sample.get_label Sample.overview)
    = Some (JBool true).
Proof.
  split; [| reflexivity].
  apply (bool_decide_unpack _). by vm_compute.
Qed.

(** C5, at a bare root: the mapping cached for the root has a field
    beside the eight named ones. *)
Lemma root_fragment_extra_field :
  ∃ s' l d,
    on_root_parse Sample.get_label Sample.bare (init Sample.bare) = OK (tt, s')
    ∧ _maps s' !! r_ident Sample.bare = Some l
    ∧ store s' !! l = Some d
    ∧ od_keys d ≠ ["id"; "label"; "description"; "contact"; "authors";
                   "contributors"; "changeHistory"; "subTopics"]
    ∧ "project" ∈ od_keys d.
Proof.
  eexists _, 0, _. split; [reflexivity |]. simpl.
  split; [apply lookup_insert_eq |]. split; [reflexivity |].
  split; [discriminate |]. apply (bool_decide_unpack _). by vm_compute.
Qed.


Lemma sample_wf : wf Sample.atmos.
Proof.
  split.
  - apply (bool_decide_unpack _). by vm_compute.
  - repeat constructor. by cbn.
Defined.

Lemma tree_form_complete_sample :
  wf Sample.atmos
  ∧ ∃ s',
      (run Sample.get_label (Walk.of_root Sample.atmos) >> output_value)
        (init Sample.atmos)
      = OK (root_fragment Sample.get_label Sample.atmos, s')
      ∧ length (fragment_list "subTopics" (root_fragment Sample.get_label Sample.atmos))
        = length (r_sub_topics Sample.atmos)
      ∧ properties_lengths (root_fragment Sample.get_label Sample.atmos)
        = length ∘ topic_properties <$> r_sub_topics Sample.atmos
      ∧ choices_lengths (root_fragment Sample.get_label Sample.atmos)
        = (λ t, (λ p, from_option (length ∘ en_choices) 0 (p_enum p))
                <$> topic_properties t) <$> r_sub_topics Sample.atmos
      ∧ count_fragments (root_fragment Sample.get_label Sample.atmos)
        + count_subprocesses Sample.atmos
        = count_nodes Sample.atmos.
Proof.
  split; [exact sample_wf |].
  exact (tree_form_complete Sample.get_label Sample.atmos sample_wf).
Defined.

(** The value a run hands to [json.dumps]. *)
Definition rendering (r : result (jval * state)) : jval :=
  match r with
  | OK (v, _) => v
  | Err _ => JNull
  end.

Lemma deep_wf : wf Sample.atmos_deep.
Proof.
  split.
  - apply (bool_decide_unpack _). by vm_compute.
  - repeat constructor. by cbn.
Qed.

(** C1, at a realm whose process has one property of its own and a
    subprocess with one property: the run succeeds; its output holds one
    fragment for the root, one for the process and one for each of the two
    properties, and none for the subprocess, so one less than there are
    Root, Topic, Subprocess, Property, Enum and EnumChoice nodes; and the
    [properties] of the fragment of the process has length two, where the
    process has one property as its child. *)
Lemma subprocess_without_fragment :
  let out := rendering ((run Sample.get_label (Walk.of_root Sample.atmos_deep)
                         >> output_value) (init Sample.atmos_deep)) in
  wf Sample.atmos_deep
  ∧ out = root_fragment Sample.get_label Sample.atmos_deep
  ∧ count_fragments out = 4
  ∧ count_nodes Sample.atmos_deep = 5
  ∧ properties_lengths out = [2]
  ∧ length ∘ t_properties <$> r_sub_topics Sample.atmos_deep = [1]
  ∧ fragment_list "properties" <$> fragment_list "subTopics" out
    = [[JDict (property_obj Sample.get_label Sample.closure);
        JDict (property_obj Sample.get_label Sample.order)]].
Proof.
  split; [exact deep_wf |]. split_and!; vm_compute; reflexivity.
Qed.

End JSFacts.

(** ** Facts about the graph form *)

Module MMFacts.
Import MM.

Definition with_nodes (s : state) (m : gmap ident nat) : state :=
  {| root := root s; mmap := mmap s; nodes := m; store := store s |}.

Definition note_atts : gmap string string := {[ "TYPE" := "NOTE" ]}.

Definition element (t : string) (a : gmap string string) (cs : list child) : Element :=
  {| tag := t; attrib := a; children := cs |}.

Definition notes_block (tree : xml) : Element :=
  element "richcontent" note_atts [ChildTree tree].

Lemma new_element_eq t a s :
  new_element t a s = OK (length (store s), with_store s (store s ++ [element t a []])).
Proof. reflexivity. Qed.

Lemma append_child_eq p c s :
  append_child p c s =
    match store s !! p with
    | Some e => OK (tt, with_store s (<[p := add_child c e]> (store s)))
    | None => Err DanglingReference
    end.
Proof. reflexivity. Qed.

Lemma sub_element_eq p t a s :
  sub_element p t a s =
    match store s !! p with
    | Some e =>
        OK (length (store s),
            with_store s (<[p := add_child (ChildRef (length (store s))) e]> (store s)
                          ++ [element t a []]))
    | None => Err DanglingReference
    end.
Proof.
  unfold sub_element. destruct (store s !! p) as [e |] eqn:Hp; [| done].
  unfold bind. rewrite new_element_eq, append_child_eq. cbn [store with_store].
  pose proof (lookup_lt_Some _ _ _ Hp) as Hlt.
  rewrite lookup_app_l, Hp by done. unfold ret, with_store. cbn [root mmap nodes store].
  by rewrite insert_app_l.
Qed.

(** Appending a payload to the element that was allocated last. *)
Lemma append_child_last h e c s n :
  store s = h ++ [e] → n = length h →
  append_child n c s = OK (tt, with_store s (h ++ [add_child c e])).
Proof.
  intros Hs ->. rewrite append_child_eq, Hs.
  rewrite lookup_app_r, Nat.sub_diag by done. cbn [lookup list_lookup].
  do 3 f_equal. rewrite <- (Nat.add_0_r (length h)) at 1. by rewrite insert_app_r.
Qed.

(** The text of a notes block as it reaches [ET.fromstring], written
    out: a definition list in an HTML frame, with a term in bold and a
    definition per note and nothing between two notes. *)
Fixpoint html_items (notes : list (string * string)) : string :=
  match notes with
  | [] => ""
  | (k, v) :: rest =>
      "<dt><b>" +:+ k +:+ "</b></dt><dd>" +:+ v +:+ "</dd>" +:+ html_items rest
  end.

Definition html_notes (notes : list (string * string)) : string :=
  "
<html>
  <head></head>
  <body>
    <dl>
        " +:+ html_items notes +:+ "
    </dl>
  </body>
</html>
".

Lemma join_empty_cons (p : string) (ps : list string) :
  PyStr.join "" (p :: ps) = p +:+ PyStr.join "" ps.
Proof. destruct ps; [by rewrite PyStrFacts.append_nil_r | done]. Qed.

Lemma string_concat_notes (kvs : list (string * string)) :
  string_concat ((λ kv, _NOTE_HTML kv.1 kv.2) <$> kvs) = html_items kvs.
Proof.
  unfold string_concat. induction kvs as [| [k v] kvs IH]; [done |].
  rewrite fmap_cons, join_empty_cons, IH. unfold _NOTE_HTML. cbn [fst snd html_items].
  by rewrite !PyStrFacts.append_assoc.
Qed.

Section WithParser.
Variable fromstring : string → option xml.

(** The text of a notes block whose values are texts. *)
Definition notes_text (kvs : list (string * string)) : string :=
  _NOTES_HTML (string_concat ((λ kv, _NOTE_HTML kv.1 kv.2) <$> kvs)).

Lemma notes_text_html (kvs : list (string * string)) : notes_text kvs = html_notes kvs.
Proof. unfold notes_text. by rewrite string_concat_notes. Qed.

Definition text_notes (kvs : list (string * string)) : list (string * note_value) :=
  (λ kv, (kv.1, NoteText kv.2)) <$> kvs.

(** The text of the notes block of a model node. *)
Definition node_notes_text (n : node) : result string :=
  result_map (λ html, _NOTES_HTML (string_concat html))
    (map_r (note_html (OwnerNode n)) (_get_notes (OwnerNode n))).

Lemma map_r_text_notes l kvs :
  map_r (note_html (OwnerElem l)) (text_notes kvs)
  = OK ((λ kv, _NOTE_HTML kv.1 kv.2) <$> kvs).
Proof.
  induction kvs as [| [k v] kvs IH]; [done |].
  unfold text_notes in *. rewrite !fmap_cons. cbn [map_r note_html]. by rewrite IH.
Qed.

(** A notes block under the element [l], from texts. *)
Lemma emit_notes_elem_eq l kvs s :
  kvs ≠ [] →
  _emit_notes fromstring (OwnerElem l) (text_notes kvs) s =
    match store s !! l with
    | None => Err DanglingReference
    | Some e =>
        match fromstring (notes_text kvs) with
        | None => Err ParseError
        | Some tree =>
            OK (tt, with_store s
                      (<[l := add_child (ChildRef (length (store s))) e]> (store s)
                       ++ [notes_block tree]))
        end
    end.
Proof.
  intros Hne. unfold _emit_notes. unfold bind at 1. unfold ret at 1.
  destruct kvs as [| kv kvs]; [done |].
  change (match text_notes (kv :: kvs) with [] => _ | _ => text_notes (kv :: kvs) end)
    with (text_notes (kv :: kvs)).
  unfold bind at 1, lift at 1. rewrite map_r_text_notes.
  fold (notes_text (kv :: kvs)).
  unfold bind at 1. rewrite sub_element_eq.
  destruct (store s !! l) as [e |] eqn:Hl; [| done].
  unfold bind at 1, lift, parse.
  destruct (fromstring (notes_text (kv :: kvs))) as [tree |]; [| done].
  by rewrite (append_child_last (<[l := add_child (ChildRef (length (store s))) e]> (store s))
                (element "richcontent" note_atts []))
    by (done || by rewrite length_insert).
Qed.

(** A notes block under the element cached for the node [n]. *)
Lemma emit_notes_node_eq n s :
  _emit_notes fromstring (OwnerNode n) [] s =
    match nodes s !! node_ident n with
    | None => Err KeyError
    | Some l =>
        match node_notes_text n with
        | Err err => Err err
        | OK html =>
            match store s !! l with
            | None => Err DanglingReference
            | Some e =>
                match fromstring html with
                | None => Err ParseError
                | Some tree =>
                    OK (tt, with_store s
                              (<[l := add_child (ChildRef (length (store s))) e]> (store s)
                               ++ [notes_block tree]))
                end
            end
        end
    end.
Proof.
  unfold _emit_notes. unfold bind at 1, get_node.
  destruct (nodes s !! node_ident n) as [l |]; [| done].
  unfold bind at 1, lift at 1, node_notes_text.
  destruct (map_r _ _) as [html | err]; [| done]. cbn [result_map].
  unfold bind at 1. rewrite sub_element_eq.
  destruct (store s !! l) as [e |] eqn:Hl; [| done].
  unfold bind at 1, lift, parse.
  destruct (fromstring _) as [tree |]; [| done].
  by rewrite (append_child_last (<[l := add_child (ChildRef (length (store s))) e]> (store s))
                (element "richcontent" note_atts []))
    by (done || by rewrite length_insert).
Qed.


Definition node_text (owner : node) (text : option string) : result string :=
  match text with
  | Some (String a t) => OK (String a t)
  | _ => node_name owner
  end.

Definition node_atts (c : Style) (style text : string) (url : option string)
  : gmap string string :=
  let atts : gmap string string :=
    list_to_map [("FOLDED", PyStr.lower (PyStr.of_bool (is_collapsed c)));
                 ("COLOR", font_color c);
                 ("BACKGROUND_COLOR", bg_color c);
                 ("STYLE", style);
                 ("TEXT", text)] in
  match url with
  | Some u => <["LINK" := u]> atts
  | None => atts
  end.

Definition font_atts (c : Style) : gmap string string :=
  list_to_map [("BOLD", PyStr.of_bool (font_bold c));
               ("NAME", font_name c);
               ("SIZE", PyStr.of_int (font_size c))].

Definition parent_loc (parent : parent_ref) (s : state) : result nat :=
  match parent with
  | PElem l => OK l
  | PNode k => subscript (nodes s !! k)
  end.

(** What [_emit_node] allocates when the store holds [n] elements: the
    node with its two decorations. *)
Definition emitted (n : nat) (atts : gmap string string) (c : Style) (tree : xml)
  : list Element :=
  [element "node" atts [ChildRef (S n); ChildRef (S (S n))];
   element "font" (font_atts c) [];
   notes_block tree].

Lemma insert_last {A} (h : list A) (e x : A) n :
  n = length h → <[n := x]> (h ++ [e]) = h ++ [x].
Proof.
  intros ->. rewrite <- (Nat.add_0_r (length h)). by rewrite insert_app_r.
Qed.

Lemma lookup_last {A} (h : list A) (e : A) n :
  n = length h → (h ++ [e]) !! n = Some e.
Proof. intros ->. by rewrite lookup_app_r, Nat.sub_diag. Qed.

Lemma emit_font_last owner c h e s :
  nodes s !! node_ident owner = Some (length h) →
  store s = h ++ [e] →
  _emit_font owner (Some c) s =
    OK (tt, with_store s (h ++ [add_child (ChildRef (S (length h))) e;
                                element "font" (font_atts c) []])).
Proof.
  intros Hn Hs. unfold _emit_font. unfold bind at 1, get_node. rewrite Hn.
  unfold bind at 1, lift, item. unfold bind at 1. unfold bind at 1.
  unfold bind at 1. rewrite sub_element_eq, Hs, (lookup_last h e) by done.
  unfold ret. do 2 f_equal. unfold with_store. cbn [root mmap nodes store].
  rewrite length_app, Nat.add_1_r, insert_last by done.
  by rewrite <- (assoc_L (++)).
Qed.

Lemma emit_node_eq parent owner text style s :
  _emit_node fromstring parent owner text style s =
    match get_section (type_key owner) with
    | None => Err KeyError
    | Some c =>
        match node_text owner text with
        | Err err => Err err
        | OK txt =>
            match parent_loc parent s with
            | Err err => Err err
            | OK p =>
                match store s !! p with
                | None => Err DanglingReference
                | Some e =>
                    match node_notes_text owner with
                    | Err err => Err err
                    | OK html =>
                        match fromstring html with
                        | None => Err ParseError
                        | Some tree =>
                            OK (tt,
                                {| root := root s; mmap := mmap s;
                                   nodes := <[node_ident owner := length (store s)]> (nodes s);
                                   store :=
                                     <[p := add_child (ChildRef (length (store s))) e]> (store s)
                                     ++ emitted (length (store s))
                                          (node_atts c style txt (node_url owner)) c tree |})
                        end
                    end
                end
            end
        end
    end.
Proof.
  unfold _emit_node.
  destruct (get_section (type_key owner)) as [c |]; [| done].
  unfold bind at 1, lift at 1, item at 1.
  unfold bind at 1, lift at 1, item at 1.
  unfold bind at 1, lift at 1, item at 1.
  unfold bind at 1.
  assert (Htext : (match text with
                   | Some (String a t) => ret (String a t)
                   | _ => lift (node_name owner)
                   end) s
                  = match node_text owner text with
                    | OK txt => OK (txt, s)
                    | Err err => Err err
                    end).
  { unfold node_text, lift, ret. by destruct text as [[| a t] |]. }
  rewrite Htext. destruct (node_text owner text) as [txt | err]; [| done].
  fold (node_atts c style txt (node_url owner)).
  unfold bind at 1.
  assert (Hparent : (match parent with
                     | PElem l => ret l
                     | PNode k => get_node k
                     end) s
                    = match parent_loc parent s with
                      | OK p => OK (p, s)
                      | Err err => Err err
                      end).
  { unfold parent_loc, get_node, ret, subscript.
    destruct parent as [l | k]; [done |]. by destruct (nodes s !! k). }
  rewrite Hparent. destruct (parent_loc parent s) as [p | err]; [| done].
  unfold bind at 1. rewrite sub_element_eq.
  destruct (store s !! p) as [e |] eqn:Hp; [| done].
  unfold bind at 1, set_node at 1, modify at 1. cbn [root mmap nodes store with_store].
  unfold bind at 1.
  erewrite emit_font_last; cycle 1.
  { cbn [nodes]. rewrite length_insert. apply lookup_insert_eq. }
  { reflexivity. }
  rewrite emit_notes_node_eq. cbn [nodes store with_store root mmap].
  rewrite lookup_insert_eq, length_insert.
  destruct (node_notes_text owner) as [html | err]; [| done].
  rewrite lookup_app_r by by rewrite length_insert.
  rewrite length_insert, Nat.sub_diag. cbn [lookup list_lookup].
  destruct (fromstring html) as [tree |]; [| done].
  do 2 f_equal. unfold with_store. cbn [root mmap nodes store]. f_equal.
  rewrite insert_app_r_alt by by rewrite length_insert.
  rewrite !length_app, length_insert, Nat.sub_diag. cbn [length insert list_insert].
  rewrite <- (assoc_L (++)). f_equal.
  by replace (length (store s) + 2) with (S (S (length (store s)))) by lia.
Qed.

Definition with_url (u : option string) (n : node) : node :=
  match n with
  | NRoot r =>
      NRoot {| r_ident := r_ident r; r_type_key := r_type_key r; r_id := r_id r;
               r_name := r_name r; r_description := r_description r;
               r_contact := r_contact r; r_authors := r_authors r;
               r_contributors := r_contributors r;
               r_change_history := r_change_history r; r_url := u;
               r_sub_topics := r_sub_topics r |}
  | NTopic t =>
      NTopic {| t_ident := t_ident t; t_kind := t_kind t; t_type_key := t_type_key t;
                t_id := t_id t; t_name := t_name t; t_description := t_description t;
                t_contact := t_contact t; t_url := u; t_properties := t_properties t;
                t_property_sets := t_property_sets t;
                t_subprocesses := t_subprocesses t |}
  | NSubprocess sp =>
      NSubprocess {| sp_ident := sp_ident sp; sp_type_key := sp_type_key sp;
                     sp_id := sp_id sp; sp_name := sp_name sp;
                     sp_description := sp_description sp; sp_parent := sp_parent sp;
                     sp_url := u; sp_properties := sp_properties sp;
                     sp_property_sets := sp_property_sets sp |}
  | NPropertySet ps =>
      NPropertySet {| ps_ident := ps_ident ps; ps_type_key := ps_type_key ps;
                      ps_id := ps_id ps; ps_name := ps_name ps;
                      ps_description := ps_description ps;
                      ps_are_cim_properties := ps_are_cim_properties ps;
                      ps_owner := ps_owner ps; ps_url := u;
                      ps_properties := ps_properties ps |}
  | NProperty p =>
      NProperty {| p_ident := p_ident p; p_type_key := p_type_key p; p_id := p_id p;
                   p_name := p_name p; p_description := p_description p;
                   p_cardinality := p_cardinality p; p_typeof := p_typeof p;
                   p_was_injected := p_was_injected p; p_enum := p_enum p;
                   p_owner := p_owner p; p_root_topic := p_root_topic p; p_url := u |}
  | NEnumChoice c =>
      NEnumChoice {| ec_ident := ec_ident c; ec_type_key := ec_type_key c;
                     ec_id := ec_id c; ec_description := ec_description c;
                     ec_value := ec_value c; ec_name := ec_name c;
                     ec_enum_detail := ec_enum_detail c; ec_url := u |}
  end.

Lemma with_url_url u n : node_url (with_url u n) = u.
Proof. by destruct n. Qed.

Lemma with_url_same u n :
  node_ident (with_url u n) = node_ident n
  ∧ type_key (with_url u n) = type_key n
  ∧ (∀ text, node_text (with_url u n) text = node_text n text)
  ∧ node_notes_text (with_url u n) = node_notes_text n.
Proof. by destruct n. Qed.

Lemma node_atts_link c style txt url : node_atts c style txt url !! "LINK" = url.
Proof.
  unfold node_atts. destruct url as [u |]; [apply lookup_insert_eq |].
  reflexivity.
Qed.

(** What [_emit_node] leaves behind: the node cached for the owner, with
    its attributes and its two decorations. *)
Lemma emit_node_inv parent owner text style s s' :
  _emit_node fromstring parent owner text style s = OK (tt, s') →
  ∃ c txt tree,
    get_section (type_key owner) = Some c
    ∧ node_text owner text = OK txt
    ∧ nodes s' = <[node_ident owner := length (store s)]> (nodes s)
    ∧ length (store s') = length (store s) + 3
    ∧ store s' !! length (store s)
      = Some (element "node" (node_atts c style txt (node_url owner))
                [ChildRef (S (length (store s))); ChildRef (S (S (length (store s))))])
    ∧ store s' !! S (length (store s)) = Some (element "font" (font_atts c) [])
    ∧ store s' !! S (S (length (store s))) = Some (notes_block tree).
Proof.
  rewrite emit_node_eq.
  destruct (get_section _) as [c |]; [| done].
  destruct (node_text _ _) as [txt |]; [| done].
  destruct (parent_loc _ _) as [p |]; [| done].
  destruct (store s !! p) as [e |] eqn:Hp; [| done].
  destruct (node_notes_text _) as [html |]; [| done].
  destruct (fromstring html) as [tree |]; [| done].
  intros [= <-]. exists c, txt, tree. cbn [nodes store].
  split_and!; try done.
  - rewrite length_app, length_insert. simpl. lia.
  - by rewrite lookup_app_r, length_insert, Nat.sub_diag by by rewrite length_insert.
  - rewrite lookup_app_r, length_insert by (rewrite length_insert; lia).
    by replace (S (length (store s)) - length (store s)) with 1 by lia.
  - rewrite lookup_app_r, length_insert by (rewrite length_insert; lia).
    by replace (S (S (length (store s))) - length (store s)) with 2 by lia.
Qed.

(** C10.  Take a model node and give it the URL [u], or none.  When
    [_emit_node] succeeds on it, the graph node cached for it is a [node]
    element whose [LINK] attribute is that URL, and absent when there is
    none; and [_emit_node] succeeds as well on the same node without URL,
    creating a graph node without [LINK]: the absence of the attribute is a
    branch of its own and never what makes the run fail. *)
Theorem url_is_optional parent owner u text style s s1 :
  _emit_node fromstring parent (with_url u owner) text style s = OK (tt, s1) →
  (∃ l e, nodes s1 !! node_ident owner = Some l
          ∧ store s1 !! l = Some e
          ∧ tag e = "node"
          ∧ attrib e !! "LINK" = u)
  ∧ (∃ s0 l e,
       _emit_node fromstring parent (with_url None owner) text style s = OK (tt, s0)
       ∧ nodes s0 !! node_ident owner = Some l
       ∧ store s0 !! l = Some e
       ∧ tag e = "node"
       ∧ attrib e !! "LINK" = None).
Proof.
  intros Hu.
  assert (Hpost : ∀ u' s', _emit_node fromstring parent (with_url u' owner) text style s
                           = OK (tt, s') →
                           ∃ l e, nodes s' !! node_ident owner = Some l
                                  ∧ store s' !! l = Some e
                                  ∧ tag e = "node"
                                  ∧ attrib e !! "LINK" = u').
  { intros u' s' Hs'.
    apply emit_node_inv in Hs' as (c & txt & tree & _ & _ & Hn & _ & Hl & _).
    destruct (with_url_same u' owner) as (Hid & _).
    rewrite Hid in Hn. rewrite with_url_url in Hl.
    eexists _, _. split; [by rewrite Hn, lookup_insert_eq |]. split; [exact Hl |].
    split; [done |]. apply node_atts_link. }
  split; [by apply Hpost |].
  assert (∃ s0, _emit_node fromstring parent (with_url None owner) text style s
                = OK (tt, s0)) as [s0 Hs0].
  { revert Hu. rewrite !emit_node_eq.
    destruct (with_url_same u owner) as (_ & -> & Ht1 & ->).
    destruct (with_url_same None owner) as (_ & -> & Ht0 & ->).
    rewrite Ht1, Ht0.
    destruct (get_section _) as [c |]; [| done].
    destruct (node_text _ _) as [txt |]; [| done].
    destruct (parent_loc _ _) as [p |]; [| done].
    destruct (store s !! p) as [e |]; [| done].
    destruct (node_notes_text _) as [html |]; [| done].
    destruct (fromstring html) as [tree |]; [| done].
    intros _. by eexists. }
  destruct (Hpost None s0 Hs0) as (l & e & H1 & H2 & H3 & H4).
  by exists s0, l, e.
Qed.

Lemma sub_element_at H T i e t a s :
  store s = H ++ T → T !! i = Some e →
  sub_element (length H + i) t a s =
    OK (length H + length T,
        with_store s (H ++ (<[i := add_child (ChildRef (length H + length T)) e]> T
                            ++ [element t a []]))).
Proof.
  intros Hs Hi. rewrite sub_element_eq, Hs, lookup_app_r by lia.
  replace (length H + i - length H) with i by lia. rewrite Hi.
  rewrite length_app, insert_app_r. by rewrite <- (assoc_L (++)).
Qed.

Definition entry_block (n : nat) (atts : gmap string string) (tree : xml) : list Element :=
  [element "node" atts [ChildRef (S n)]; notes_block tree].

(** One turn of the loops of [_emit_change_history] and [_emit_legend]. *)
Definition section_entry (sec : nat) (atts : gmap string string)
  (kvs : list (string * string)) : M state unit :=
  let* node := sub_element sec "node" atts in
  _emit_notes fromstring (OwnerElem node) (text_notes kvs).

Lemma section_entry_at H T i e atts kvs s :
  kvs ≠ [] → store s = H ++ T → T !! i = Some e →
  section_entry (length H + i) atts kvs s =
    match fromstring (notes_text kvs) with
    | None => Err ParseError
    | Some tree =>
        OK (tt, with_store s
                  (H ++ (<[i := add_child (ChildRef (length H + length T)) e]> T
                         ++ entry_block (length H + length T) atts tree)))
    end.
Proof.
  intros Hne Hs Hi. unfold section_entry, bind.
  rewrite (sub_element_at H T i e) by done.
  rewrite emit_notes_elem_eq by done. cbn [store with_store].
  rewrite lookup_app_r by lia.
  replace (length H + length T - length H) with (length T) by lia.
  rewrite lookup_app_r, length_insert, Nat.sub_diag by by rewrite length_insert.
  cbn [lookup list_lookup].
  destruct (fromstring (notes_text kvs)) as [tree |]; [| done].
  unfold with_store. cbn [root mmap nodes store]. do 3 f_equal.
  rewrite insert_app_r_alt by lia.
  replace (length H + length T - length H) with (length T) by lia.
  rewrite insert_app_r_alt, length_insert, Nat.sub_diag by by rewrite length_insert.
  rewrite !length_app, length_insert. cbn [length insert list_insert].
  rewrite <- !(assoc_L (++)). do 3 f_equal. cbn [app].
  by replace (length H + (length T + 1)) with (S (length H + length T)) by lia.
Qed.

Fixpoint section_refs (n k : nat) : list child :=
  match k with
  | O => []
  | S k' => ChildRef n :: section_refs (S (S n)) k'
  end.

Fixpoint section_entries (n : nat) (items : list (gmap string string * xml))
  : list Element :=
  match items with
  | [] => []
  | (atts, tree) :: items' => entry_block n atts tree ++ section_entries (S (S n)) items'
  end.

Lemma section_entries_length n items :
  length (section_entries n items) = 2 * length items.
Proof.
  revert n. induction items as [| [a t] items IH]; intros n; [done |].
  simpl. rewrite IH. lia.
Qed.

Lemma section_loop_at {A} (atts : A → gmap string string)
  (kvs : A → list (string * string)) (items : list A) :
  (∀ x, kvs x ≠ []) →
  ∀ H T i e s,
    store s = H ++ T → T !! i = Some e →
    for_each items (λ x, section_entry (length H + i) (atts x) (kvs x)) s =
      match map_r (λ x, parse fromstring (notes_text (kvs x))) items with
      | Err err => Err err
      | OK trees =>
          OK (tt, with_store s
                    (H ++ (<[i := element (tag e) (attrib e)
                                    (children e
                                     ++ section_refs (length H + length T) (length items))]> T
                           ++ section_entries (length H + length T)
                                (zip (atts <$> items) trees))))
      end.
Proof.
  intros Hne. induction items as [| x items IH]; intros H T i e s Hs Hi.
  - cbn [for_each map_r length section_refs section_entries]. unfold ret.
    rewrite fmap_nil. cbn [zip_with section_entries]. rewrite !app_nil_r.
    replace (element (tag e) (attrib e) (children e)) with e by by destruct e.
    rewrite list_insert_id by done. rewrite <- Hs. by destruct s.
  - rewrite for_each_cons. rewrite (section_entry_at H T i e) by done.
    cbn [map_r]. unfold parse at 1.
    destruct (fromstring (notes_text (kvs x))) as [tree |]; [| done].
    pose proof (lookup_lt_Some _ _ _ Hi) as Hlt.
    rewrite (IH H (<[i := add_child (ChildRef (length H + length T)) e]> T
                   ++ entry_block (length H + length T) (atts x) tree) i
               (add_child (ChildRef (length H + length T)) e)); cycle 1.
    { done. }
    { rewrite lookup_app_l by by rewrite length_insert.
      by apply list_lookup_insert_eq. }
    destruct (map_r _ items) as [trees |]; [| done]. cbn [result_map].
    unfold with_store. cbn [root mmap nodes store]. do 3 f_equal.
    rewrite insert_app_l by by rewrite length_insert.
    rewrite list_insert_insert_eq. rewrite !length_app, length_insert.
    cbn [length fmap list_fmap zip zip_with section_entries section_refs add_child
         tag attrib children].
    rewrite <- !(assoc_L (++)). cbn [app].
    change (length (entry_block _ _ _)) with 2.
    replace (length H + (length T + 2)) with (S (S (length H + length T))) by lia.
    done.
Qed.

Definition section_atts (text : string) : gmap string string :=
  list_to_map [("FOLDED", "true"); ("STYLE", "bubble");
               ("TEXT", text); ("POSITION", "left")].

(** A section when the store holds [a] elements: its node, with one child
    per item, and after it a node and a notes block per item. *)
Definition section_block (a : nat) (atts : gmap string string)
  (items : list (gmap string string * xml)) : list Element :=
  element "node" atts (section_refs (S a) (length items))
  :: section_entries (S a) items.

Definition history_atts (h : string * string * string * string) : gmap string string :=
  list_to_map [("STYLE", "bubble"); ("TEXT", h.1.1.1)].

Definition history_notes (h : string * string * string * string)
  : list (string * string) :=
  [("Version", h.1.1.1); ("Date", h.1.1.2); ("Person", h.1.2); ("Comment", h.2)].

Definition legend_items : list (string * Style) :=
  omap (λ key, pair key <$> get_section key) _SECTIONS.*1.

Definition legend_atts (item : string * Style) : gmap string string :=
  list_to_map [("BACKGROUND_COLOR", bg_color item.2);
               ("COLOR", font_color item.2);
               ("STYLE", "bubble");
               ("TEXT", item.1)].

Definition legend_notes (item : string * Style) : list (string * string) :=
  [("Description", description item.2)].

Lemma for_each_fmap {S A B} (f : A → B) (xs : list A) (body : B → M S unit) (s : S) :
  for_each (f <$> xs) body s = for_each xs (body ∘ f) s.
Proof.
  revert s. induction xs as [| x xs IH]; intros s; [done |].
  rewrite fmap_cons, !for_each_cons. simpl.
  destruct (body (f x) s) as [[[] s'] |]; [apply IH | done].
Qed.

Lemma for_each_ext_Forall {S A} (xs : list A) (f g : A → M S unit) (s : S) :
  Forall (λ x, ∀ s, f x s = g x s) xs → for_each xs f s = for_each xs g s.
Proof.
  intros Hfg. apply for_each_ext. intros x s0 Hx.
  rewrite Forall_forall in Hfg. by apply Hfg.
Qed.

(** Emitting a section under the element at [length H + i], with the
    given loop. *)
Lemma emit_section_at {A} (atts : A → gmap string string)
  (kvs : A → list (string * string)) (items : list A) (text : string)
  (loop : nat → M state unit) (k : ident) H T i e s :
  (∀ x, kvs x ≠ []) →
  (∀ sec s, loop sec s = for_each items (λ x, section_entry sec (atts x) (kvs x)) s) →
  nodes s !! k = Some (length H + i) →
  store s = H ++ T → T !! i = Some e →
  (let* parent := get_node k in
   let* root_node := sub_element parent "node" (section_atts text) in
   loop root_node) s =
    match map_r (λ x, parse fromstring (notes_text (kvs x))) items with
    | Err err => Err err
    | OK trees =>
        OK (tt, with_store s
                  (H ++ (<[i := add_child (ChildRef (length H + length T)) e]> T
                         ++ section_block (length H + length T) (section_atts text)
                              (zip (atts <$> items) trees))))
    end.
Proof.
  intros Hne Hloop Hk Hs Hi.
  unfold bind at 1, get_node. rewrite Hk.
  unfold bind at 1. rewrite (sub_element_at H T i e) by done.
  rewrite Hloop.
  pose proof (lookup_lt_Some _ _ _ Hi) as Hlt.
  rewrite (section_loop_at atts kvs items Hne H
             (<[i := add_child (ChildRef (length H + length T)) e]> T
              ++ [element "node" (section_atts text) []])
             (length T) (element "node" (section_atts text) [])); cycle 1.
  { done. }
  { by rewrite lookup_app_r, length_insert, Nat.sub_diag by by rewrite length_insert. }
  destruct (map_r _ items) as [trees |] eqn:Htrees; [| done].
  unfold with_store. cbn [root mmap nodes store]. do 3 f_equal.
  rewrite insert_app_r_alt, length_insert, Nat.sub_diag by by rewrite length_insert.
  cbn [insert list_insert tag attrib children element app].
  rewrite <- (assoc_L (++)). f_equal. unfold section_block. cbn [app].
  rewrite !length_app, !length_insert. cbn [length].
  rewrite length_zip_with, length_fmap, (map_r_length _ _ _ Htrees), Nat.min_id.
  replace (length H + (length T + 1)) with (S (length H + length T)) by lia.
  done.
Qed.

Lemma emit_change_history_at (r : Root) H T i e s :
  nodes s !! r_ident r = Some (length H + i) →
  store s = H ++ T → T !! i = Some e →
  _emit_change_history fromstring r s =
    match map_r (λ x, parse fromstring (notes_text (history_notes x)))
            (r_change_history r) with
    | Err err => Err err
    | OK trees =>
        OK (tt, with_store s
                  (H ++ (<[i := add_child (ChildRef (length H + length T)) e]> T
                         ++ section_block (length H + length T)
                              (section_atts "CHANGE HISTORY")
                              (zip (history_atts <$> r_change_history r) trees))))
    end.
Proof.
  intros Hk Hs Hi.
  apply (emit_section_at history_atts history_notes (r_change_history r)
           "CHANGE HISTORY"
           (λ root_node,
              for_each (r_change_history r)
                (λ '(version, date, person, comment),
                   let* node := sub_element root_node "node"
                                  (list_to_map [("STYLE", "bubble"); ("TEXT", version)]) in
                   _emit_notes fromstring (OwnerElem node)
                     [("Version", NoteText version); ("Date", NoteText date);
                      ("Person", NoteText person); ("Comment", NoteText comment)]))
           (r_ident r) H T i e s); try done.
  intros sec s0. apply for_each_ext. by intros [[[v d] p] c] s1 _.
Qed.

Lemma legend_items_keys : _SECTIONS.*1 = legend_items.*1.
Proof. reflexivity. Qed.

Lemma emit_legend_at (r : Root) H T i e s :
  nodes s !! r_ident r = Some (length H + i) →
  store s = H ++ T → T !! i = Some e →
  _emit_legend fromstring r s =
    match map_r (λ x, parse fromstring (notes_text (legend_notes x))) legend_items with
    | Err err => Err err
    | OK trees =>
        OK (tt, with_store s
                  (H ++ (<[i := add_child (ChildRef (length H + length T)) e]> T
                         ++ section_block (length H + length T)
                              (section_atts "LEGEND")
                              (zip (legend_atts <$> legend_items) trees))))
    end.
Proof.
  intros Hk Hs Hi.
  apply (emit_section_at legend_atts legend_notes legend_items "LEGEND"
           (λ root_node,
              for_each _SECTIONS.*1
                (λ section,
                   let* background := lift (item (get_section section) bg_color) in
                   let* color := lift (item (get_section section) font_color) in
                   let* node := sub_element root_node "node"
                                  (list_to_map [("BACKGROUND_COLOR", background);
                                                ("COLOR", color);
                                                ("STYLE", "bubble");
                                                ("TEXT", section)]) in
                   let* descr := lift (item (get_section section) description) in
                   _emit_notes fromstring (OwnerElem node)
                     [("Description", NoteText descr)]))
           (r_ident r) H T i e s); try done.
Qed.

(** Everything [on_root_parse] allocates when the store holds [n]
    elements: the map, the node of the root with its decorations, the
    change history and the legend. *)
Definition root_block (n : nat) (r : Root) (c : Style) (tree : xml)
  (history legend : list xml) : list Element :=
  [element "map" ∅ [ChildRef (S n)];
   element "node" (node_atts c "fork" (r_name r) (r_url r))
     [ChildRef (n + 2); ChildRef (n + 3); ChildRef (n + 4);
      ChildRef (n + 5 + 2 * length (r_change_history r))];
   element "font" (font_atts c) [];
   notes_block tree]
  ++ section_block (n + 4) (section_atts "CHANGE HISTORY")
       (zip (history_atts <$> r_change_history r) history)
  ++ section_block (n + 5 + 2 * length (r_change_history r)) (section_atts "LEGEND")
       (zip (legend_atts <$> legend_items) legend).

Lemma section_block_length a atts items :
  length (section_block a atts items) = S (2 * length items).
Proof. unfold section_block. cbn [length]. by rewrite section_entries_length. Qed.

Lemma on_root_parse_eq (r : Root) (s : state) :
  on_root_parse fromstring r s =
    match get_section (r_type_key r) with
    | None => Err KeyError
    | Some c =>
        match node_notes_text (NRoot r) with
        | Err err => Err err
        | OK html =>
            match fromstring html with
            | None => Err ParseError
            | Some tree =>
                match map_r (λ x, parse fromstring (notes_text (history_notes x)))
                        (r_change_history r) with
                | Err err => Err err
                | OK history =>
                    match map_r (λ x, parse fromstring (notes_text (legend_notes x)))
                            legend_items with
                    | Err err => Err err
                    | OK legend =>
                        OK (tt,
                            {| root := root s;
                               mmap := Some (length (store s));
                               nodes := <[r_ident r := S (length (store s))]> (nodes s);
                               store := store s
                                        ++ root_block (length (store s)) r c tree
                                             history legend |})
                    end
                end
            end
        end
    end.
Proof.
  unfold on_root_parse. unfold bind at 1. rewrite new_element_eq.
  unfold bind at 1, set_mmap at 1, modify. cbn [root mmap nodes store with_store].
  unfold bind at 1. rewrite emit_node_eq.
  cbn [type_key node_text node_url parent_loc store nodes root mmap].
  destruct (get_section (r_type_key r)) as [c |]; [| done].
  cbn [node_name]. rewrite lookup_last by done.
  destruct (node_notes_text (NRoot r)) as [html |]; [| done].
  destruct (fromstring html) as [tree |]; [| done].
  rewrite insert_last by done. rewrite <- (assoc_L (++)). cbn [app emitted].
  rewrite length_app. cbn [length]. rewrite Nat.add_1_r.
  set (n := length (store s)).
  set (T0 := [add_child (ChildRef (S n)) (element "map" ∅ []);
              element "node" (node_atts c "fork" (r_name r) (r_url r))
                [ChildRef (S (S n)); ChildRef (S (S (S n)))];
              element "font" (font_atts c) []; notes_block tree]).
  unfold bind at 1.
  rewrite (emit_change_history_at r (store s) T0 1
             (element "node" (node_atts c "fork" (r_name r) (r_url r))
                [ChildRef (S (S n)); ChildRef (S (S (S n)))]));
    cbn [nodes store]; [| by rewrite Nat.add_1_r, lookup_insert_eq | done | done].
  destruct (map_r _ (r_change_history r)) as [history |] eqn:Hh; [| done].
  cbn [length T0 insert list_insert app].
  set (T1 := _ :: _ :: _ :: _ :: section_block _ _ _).
  rewrite (emit_legend_at r (store s) T1 1
             (add_child (ChildRef (length (store s) + 4))
                (element "node" (node_atts c "fork" (r_name r) (r_url r))
                   [ChildRef (S (S n)); ChildRef (S (S (S n)))])));
    cbn [nodes store with_store]; [| by rewrite Nat.add_1_r, lookup_insert_eq | done | done].
  destruct (map_r _ legend_items) as [legend |]; [| done].
  unfold with_store. cbn [root mmap nodes store]. do 3 f_equal.
  unfold T1, root_block. cbn [length insert list_insert app add_child tag attrib children element].
  rewrite section_block_length, length_zip_with, length_fmap,
    (map_r_length _ _ _ Hh), Nat.min_id.
  fold n.
  replace (n + S (S (S (S (S (2 * length (r_change_history r)))))))
    with (n + 5 + 2 * length (r_change_history r)) by lia.
  replace (S (S (S n))) with (n + 3) by lia.
  replace (S (S n)) with (n + 2) by lia.
  done.
Qed.
(** *** What a handler may change *)

Definition grows (e e' : Element) : Prop :=
  tag e' = tag e ∧ attrib e' = attrib e ∧ children e `prefix_of` children e'.

(** [s'] comes after [s]: elements only gain children, an element that
    no node is cached for is left as it is, and a node newly cached is
    cached for a new element. *)
Record extends (s s' : state) : Prop := {
  ext_root : root s' = root s;
  ext_grows : ∀ l e, store s !! l = Some e → ∃ e', store s' !! l = Some e' ∧ grows e e';
  ext_frame : ∀ l e, store s !! l = Some e → (∀ k, nodes s !! k ≠ Some l) →
                     store s' !! l = Some e;
  ext_fresh : ∀ k l, nodes s' !! k = Some l →
                     nodes s !! k = Some l ∨ length (store s) ≤ l
}.

Lemma grows_refl e : grows e e.
Proof. by split_and!. Qed.

Lemma grows_trans e1 e2 e3 : grows e1 e2 → grows e2 e3 → grows e1 e3.
Proof.
  intros (? & ? & ?) (? & ? & ?). split_and!; [congruence | congruence |].
  by etrans.
Qed.

Lemma extends_length s s' : extends s s' → length (store s) ≤ length (store s').
Proof.
  intros Hext. destruct (decide (length (store s) = 0)) as [-> | Hne]; [lia |].
  destruct (lookup_lt_is_Some_2 (store s) (length (store s) - 1)) as [e He]; [lia |].
  destruct (ext_grows _ _ Hext _ _ He) as (e' & He' & _).
  apply lookup_lt_Some in He'. lia.
Qed.

Lemma extends_refl s : extends s s.
Proof.
  split; [done | | done | by left].
  intros l e He. exists e. split; [done | apply grows_refl].
Qed.

Lemma extends_trans s1 s2 s3 : extends s1 s2 → extends s2 s3 → extends s1 s3.
Proof.
  intros H12 H23. split.
  - by rewrite (ext_root _ _ H23), (ext_root _ _ H12).
  - intros l e He. destruct (ext_grows _ _ H12 _ _ He) as (e2 & He2 & Hg2).
    destruct (ext_grows _ _ H23 _ _ He2) as (e3 & He3 & Hg3).
    exists e3. split; [done |]. by eapply grows_trans.
  - intros l e He Hun. apply (ext_frame _ _ H23).
    + by apply (ext_frame _ _ H12).
    + intros k Hk. destruct (ext_fresh _ _ H12 _ _ Hk) as [Hk1 | Hk1].
      * by apply (Hun k).
      * apply lookup_lt_Some in He. lia.
  - intros k l Hk. destruct (ext_fresh _ _ H23 _ _ Hk) as [Hk2 | Hk2].
    + apply (ext_fresh _ _ H12 _ _ Hk2).
    + right. pose proof (extends_length _ _ H12). lia.
Qed.

(** The shape of every change a handler makes: one cached element gains
    a child, new elements are allocated, new nodes are cached for some of
    them. *)
Lemma extends_step s p e c new (m' : gmap ident nat) k :
  nodes s !! k = Some p → store s !! p = Some e →
  (∀ k l, m' !! k = Some l → nodes s !! k = Some l ∨ length (store s) ≤ l) →
  extends s {| root := root s; mmap := mmap s; nodes := m';
               store := <[p := add_child c e]> (store s) ++ new |}.
Proof.
  intros Hk Hp Hm. pose proof (lookup_lt_Some _ _ _ Hp) as Hlt.
  split; cbn [root nodes store]; [done | | | done].
  - intros l e0 He0. pose proof (lookup_lt_Some _ _ _ He0) as Hl.
    rewrite lookup_app_l by by rewrite length_insert.
    destruct (decide (l = p)) as [-> | Hne].
    + rewrite list_lookup_insert_eq by done. eexists. split; [done |].
      assert (e0 = e) as -> by congruence.
      split_and!; [done | done |]. by apply prefix_app_r.
    + rewrite list_lookup_insert_ne by done. exists e0. split; [done | apply grows_refl].
  - intros l e0 He0 Hun. pose proof (lookup_lt_Some _ _ _ He0) as Hl.
    rewrite lookup_app_l by by rewrite length_insert.
    rewrite list_lookup_insert_ne; [done |]. intros ->. by apply (Hun k).
Qed.

Lemma extends_alloc s new (m' : gmap ident nat) o :
  (∀ k l, m' !! k = Some l → nodes s !! k = Some l ∨ length (store s) ≤ l) →
  extends s {| root := root s; mmap := o; nodes := m'; store := store s ++ new |}.
Proof.
  intros Hm. split; cbn [root nodes store]; [done | | | done].
  - intros l e He. exists e. split; [| apply grows_refl].
    by rewrite lookup_app_l by by eapply lookup_lt_Some.
  - intros l e He _. by rewrite lookup_app_l by by eapply lookup_lt_Some.
Qed.

Lemma insert_fresh (m : gmap ident nat) k0 n :
  ∀ k l, <[k0 := n]> m !! k = Some l → m !! k = Some l ∨ n ≤ l.
Proof.
  intros k l. destruct (decide (k0 = k)) as [-> | Hne].
  - rewrite lookup_insert_eq. intros [= <-]. by right.
  - rewrite lookup_insert_ne by done. by left.
Qed.

Lemma emit_node_extends k owner text style s s' :
  _emit_node fromstring (PNode k) owner text style s = OK (tt, s') →
  extends s s' ∧ mmap s' = mmap s.
Proof.
  rewrite emit_node_eq.
  destruct (get_section _) as [c |]; [| done].
  destruct (node_text _ _) as [txt |]; [| done].
  cbn [parent_loc]. destruct (nodes s !! k) as [p |] eqn:Hk; [| done]. cbn [subscript].
  destruct (store s !! p) as [e |] eqn:Hp; [| done].
  destruct (node_notes_text _) as [html |]; [| done].
  destruct (fromstring html) as [tree |]; [| done].
  intros [= <-]. split; [| done].
  eapply extends_step; [done | done | apply insert_fresh].
Qed.

Lemma emit_notes_extends n s s' :
  _emit_notes fromstring (OwnerNode n) [] s = OK (tt, s') →
  extends s s' ∧ mmap s' = mmap s.
Proof.
  rewrite emit_notes_node_eq.
  destruct (nodes s !! node_ident n) as [p |] eqn:Hk; [| done].
  destruct (node_notes_text _) as [html |]; [| done].
  destruct (store s !! p) as [e |] eqn:Hp; [| done].
  destruct (fromstring html) as [tree |]; [| done].
  intros [= <-]. split; [| done].
  eapply (extends_step s p e _ _ (nodes s)); [done | done | by left].
Qed.

Definition is_root_enter (e : event) : Prop :=
  match e with
  | RootEnter _ => True
  | _ => False
  end.

Lemma handle_extends e s s' :
  handle fromstring e s = OK (tt, s') →
  extends s s' ∧ (¬ is_root_enter e → mmap s' = mmap s).
Proof.
  destruct e as [r | r | t | sp | ps | p | c]; cbn [handle is_root_enter].
  - rewrite on_root_parse_eq.
    destruct (get_section _) as [c |]; [| done].
    destruct (node_notes_text _) as [html |]; [| done].
    destruct (fromstring html) as [tree |]; [| done].
    destruct (map_r _ (r_change_history r)) as [history |]; [| done].
    destruct (map_r _ legend_items) as [legend |]; [| done].
    intros [= <-]. split; [| tauto].
    apply extends_alloc. intros k l Hk.
    destruct (insert_fresh _ _ _ _ _ Hk); [by left | right; lia].
  - intros [= <-]. split; [apply extends_refl | done].
  - destruct (t_kind t).
    + intros [= <-]. split; [apply extends_refl | done].
    + unfold on_grid_parse. intros (r0 & s1 & [= <- <-] & H)%bind_inv.
      apply emit_node_extends in H as [H1 H2]. by split.
    + unfold on_keyprops_parse. intros (r0 & s1 & [= <- <-] & H)%bind_inv.
      apply emit_node_extends in H as [H1 H2]. by split.
    + unfold on_process_parse. intros (r0 & s1 & [= <- <-] & H)%bind_inv.
      apply bind_inv in H as ([] & s2 & H1 & H2).
      apply emit_node_extends in H1 as [H1 H1'].
      apply emit_notes_extends in H2 as [H2 H2'].
      split; [by eapply extends_trans | intros _; congruence].
  - unfold on_subprocess_parse. intros H.
    apply emit_node_extends in H as [H1 H2]. by split.
  - unfold on_property_set_parse. destruct (ps_are_cim_properties ps).
    + intros [= <-]. split; [apply extends_refl | done].
    + intros H. apply emit_node_extends in H as [H1 H2]. by split.
  - unfold on_property_parse. destruct (p_was_injected p).
    + intros [= <-]. split; [apply extends_refl | done].
    + intros H. apply bind_inv in H as ([] & s2 & H1 & H2).
      apply emit_node_extends in H1 as [H1 H1'].
      apply emit_notes_extends in H2 as [H2 H2'].
      split; [by eapply extends_trans | intros _; congruence].
  - unfold on_enum_choice_parse. intros H.
    apply emit_node_extends in H as [H1 H2]. by split.
Qed.

Lemma run_extends evs s s' :
  run fromstring evs s = OK (tt, s') →
  extends s s' ∧ (Forall (λ e, ¬ is_root_enter e) evs → mmap s' = mmap s).
Proof.
  unfold run. revert s. induction evs as [| e evs IH]; intros s.
  - intros [= <-]. split; [apply extends_refl | done].
  - rewrite for_each_cons.
    destruct (handle fromstring e s) as [[[] s1] |] eqn:He; [| done].
    intros Hrun. apply handle_extends in He as [He1 He2].
    apply IH in Hrun as [Hr1 Hr2]. split; [by eapply extends_trans |].
    intros [Hne Hevs]%Forall_cons. rewrite Hr2, He2; done.
Qed.
(** *** The sections in the output tree *)

Definition entry_tree (item : gmap string string * xml) : xml :=
  XElem "node" item.1 "" [XElem "richcontent" note_atts "" [item.2]].

Definition section_tree (atts : gmap string string)
  (items : list (gmap string string * xml)) : xml :=
  XElem "node" atts "" (entry_tree <$> items).

Definition reify_child (fuel : nat) (h : list Element) (c : child) : result xml :=
  match c with
  | ChildRef l => reify fuel h l
  | ChildTree x => OK x
  end.

Lemma reify_S fuel h l :
  reify (S fuel) h l =
    match h !! l with
    | None => Err DanglingReference
    | Some e =>
        result_map (XElem (tag e) (attrib e) "") (map_r (reify_child fuel h) (children e))
    end.
Proof. reflexivity. Qed.

Lemma reify_entries h b items :
  (∀ i e, section_entries b items !! i = Some e → h !! (b + i) = Some e) →
  map_r (reify_child 2 h) (section_refs b (length items)) = OK (entry_tree <$> items).
Proof.
  revert b. induction items as [| [atts tree] items IH]; intros b Hh; [done |].
  cbn [length section_refs map_r reify_child].
  pose proof (Hh 0 _ eq_refl) as H0. rewrite Nat.add_0_r in H0.
  pose proof (Hh 1 _ eq_refl) as H1. rewrite Nat.add_1_r in H1.
  rewrite reify_S, H0.
  cbn [children element map_r reify_child tag attrib].
  rewrite reify_S, H1.
  cbn [notes_block children element map_r reify_child result_map tag attrib].
  rewrite IH; [done |]. intros i e He.
  replace (S (S b) + i) with (b + S (S i)) by lia. by apply Hh.
Qed.

Lemma reify_section h a atts items :
  (∀ i e, section_block a atts items !! i = Some e → h !! (a + i) = Some e) →
  reify 3 h a = OK (section_tree atts items).
Proof.
  intros Hh. pose proof (Hh 0 _ eq_refl) as H0. rewrite Nat.add_0_r in H0.
  rewrite reify_S, H0.
  cbn [children element tag attrib]. rewrite reify_entries; [done |].
  intros i e He. replace (S a + i) with (a + S i) by lia. by apply Hh.
Qed.

Lemma map_r_parse {A} (f : A → string) (xs : list A) (trees : list xml) :
  map_r (λ x, parse fromstring (f x)) xs = OK trees →
  Forall2 (λ x tree, fromstring (f x) = Some tree) xs trees.
Proof.
  revert trees. induction xs as [| x xs IH]; intros trees; simpl.
  - intros [= <-]. constructor.
  - unfold parse at 1. destruct (fromstring (f x)) as [tree |] eqn:Hx; [| done].
    destruct (map_r _ xs) as [trees' |]; [| done]. simpl.
    intros [= <-]. constructor; [done | by apply IH].
Qed.

(** The mindmap after a run that starts with the root: the map holds the
    node of the root, and that node holds the two sections, which the rest
    of the run leaves as [on_root_parse] built them. *)
Lemma root_sections (r0 r : Root) (evs : list event) (s' : state) :
  run fromstring (RootEnter r :: evs) (init r0) = OK (tt, s') →
  Forall (λ e, ¬ is_root_enter e) evs →
  ∃ l_map l_root l_history l_legend e_root history legend,
    mmap s' = Some l_map
    ∧ store s' !! l_map = Some (element "map" ∅ [ChildRef l_root])
    ∧ store s' !! l_root = Some e_root
    ∧ tag e_root = "node"
    ∧ ChildRef l_history ∈ children e_root
    ∧ ChildRef l_legend ∈ children e_root
    ∧ Forall2 (λ h tree, fromstring (notes_text (history_notes h)) = Some tree)
        (r_change_history r) history
    ∧ reify 3 (store s') l_history
      = OK (section_tree (section_atts "CHANGE HISTORY")
              (zip (history_atts <$> r_change_history r) history))
    ∧ Forall2 (λ item tree, fromstring (notes_text (legend_notes item)) = Some tree)
        legend_items legend
    ∧ reify 3 (store s') l_legend
      = OK (section_tree (section_atts "LEGEND")
              (zip (legend_atts <$> legend_items) legend)).
Proof.
  unfold run. rewrite for_each_cons. cbn [handle]. rewrite on_root_parse_eq.
  destruct (get_section _) as [c |]; [| done].
  destruct (node_notes_text _) as [html |]; [| done].
  destruct (fromstring html) as [tree |]; [| done].
  destruct (map_r _ (r_change_history r)) as [history |] eqn:Hh; [| done].
  destruct (map_r _ legend_items) as [legend |] eqn:Hl; [| done].
  cbn [init store nodes root mmap length app].
  set (s1 := {| root := r0; mmap := Some 0; nodes := <[r_ident r := 1]> ∅;
                store := root_block 0 r c tree history legend |}).
  intros Hrun Hevs. apply run_extends in Hrun as [Hext Hmmap].
  specialize (Hmmap Hevs).
  assert (Hun : ∀ l, l ≠ 1 → ∀ k, nodes s1 !! k ≠ Some l).
  { intros l Hne k. cbn [nodes s1]. destruct (decide (r_ident r = k)) as [<- | Hk].
    - rewrite lookup_insert_eq. congruence.
    - by rewrite lookup_insert_ne. }
  destruct (ext_grows _ _ Hext 1 _ eq_refl) as (e_root & He_root & Htag & _ & Hpre).
  exists 0, 1, 4, (5 + 2 * length (r_change_history r)), e_root, history, legend.
  split_and!.
  - done.
  - by apply (ext_frame _ _ Hext 0); [| apply Hun].
  - done.
  - done.
  - eapply elem_of_prefix; [| exact Hpre]. cbn [children element].
    do 2 apply list_elem_of_further. apply list_elem_of_here.
  - eapply elem_of_prefix; [| exact Hpre]. cbn [children element].
    do 3 apply list_elem_of_further. apply list_elem_of_here.
  - by apply map_r_parse in Hh.
  - apply reify_section. intros i e He.
    apply (ext_frame _ _ Hext); [| apply Hun; lia].
    cbn [store s1]. unfold root_block.
    change (4 + i) with (length [element "map" ∅ [ChildRef 1]; element "node" (node_atts c "fork" (r_name r) (r_url r)) [ChildRef (0 + 2); ChildRef (0 + 3); ChildRef (0 + 4); ChildRef (0 + 5 + 2 * length (r_change_history r))]; element "font" (font_atts c) []; notes_block tree] + i).
    rewrite lookup_app_r by lia.
    replace (_ + i - _) with i by (cbn [length]; lia).
    rewrite lookup_app_l by by eapply lookup_lt_Some.
    done.
  - by apply map_r_parse in Hl.
  - apply reify_section. intros i e He.
    apply (ext_frame _ _ Hext); [| apply Hun; lia].
    cbn [store s1]. unfold root_block.
    rewrite (assoc_L (++)), lookup_app_r; cycle 1.
    { rewrite length_app, section_block_length, length_zip_with, length_fmap,
        (map_r_length _ _ _ Hh), Nat.min_id. cbn [length]. lia. }
    rewrite length_app, section_block_length, length_zip_with, length_fmap,
      (map_r_length _ _ _ Hh), Nat.min_id. cbn [length].
    by replace (_ + i - _) with i by lia.
Qed.
(** The output has, under the node of the root, a section with the given
    title and exactly the given entries: the map holds the node of the
    root, that node has a child that reads as a node with the attributes
    of a section and one child per entry, each a node with the attributes
    of the entry and one notes block holding the tree of the entry. *)
Definition section_rendered (s : state) (title : string)
  (entries : list (gmap string string * xml)) : Prop :=
  ∃ l_map l_root l_section e_root,
    mmap s = Some l_map
    ∧ store s !! l_map = Some (element "map" ∅ [ChildRef l_root])
    ∧ store s !! l_root = Some e_root
    ∧ tag e_root = "node"
    ∧ ChildRef l_section ∈ children e_root
    ∧ reify 3 (store s) l_section
      = OK (XElem "node" (section_atts title) ""
              ((λ entry, XElem "node" entry.1 ""
                           [XElem "richcontent" {[ "TYPE" := "NOTE" ]} "" [entry.2]])
               <$> entries)).

(** After a run that enters the root [r] first and no root again and
    that ends, the output has a section "CHANGE HISTORY" with exactly one
    entry per entry of the change history of [r], in order; the node of an
    entry shows the version, and its notes block is the parse of the
    definition list with the fields Version, Date, Person and Comment in
    this order. *)
Lemma change_history_fidelity (r0 r : Root) (evs : list event) (s' : state) :
  run fromstring (RootEnter r :: evs) (init r0) = OK (tt, s') →
  Forall (λ e, ¬ is_root_enter e) evs →
  ∃ trees,
    Forall2 (λ '(version, date, person, comment) tree,
               fromstring (html_notes [("Version", version); ("Date", date);
                                       ("Person", person); ("Comment", comment)])
               = Some tree)
      (r_change_history r) trees
    ∧ section_rendered s' "CHANGE HISTORY"
        (zip ((λ h, list_to_map [("STYLE", "bubble"); ("TEXT", h.1.1.1)])
              <$> r_change_history r) trees)
    ∧ length (zip ((λ h, list_to_map [("STYLE", "bubble"); ("TEXT", h.1.1.1)] : gmap string string)
                   <$> r_change_history r) trees)
      = length (r_change_history r).
Proof.
  intros Hrun Hevs.
  destruct (root_sections r0 r evs s' Hrun Hevs)
    as (l_map & l_root & l_history & _ & e_root & history & _
        & Hmap & Hlmap & Hroot & Htag & Hin & _ & Hparse & Hreify & _).
  exists history. split_and!.
  - eapply Forall2_impl; [exact Hparse |].
    intros [[[version date] person] comment] tree. cbn beta. by rewrite notes_text_html.
  - by exists l_map, l_root, l_history, e_root.
  - rewrite length_zip_with, length_fmap. apply Forall2_length in Hparse. lia.
Qed.

(** An entry of the change history goes to the parser as it is: when the
    parser rejects the definition list of one entry, entering the root
    fails, whatever follows. *)
Lemma unparsed_entry_fails (r0 r : Root) (evs : list event)
  (version date person comment : string) :
  (version, date, person, comment) ∈ r_change_history r →
  fromstring (html_notes [("Version", version); ("Date", date);
                          ("Person", person); ("Comment", comment)]) = None →
  ∃ err, run fromstring (RootEnter r :: evs) (init r0) = Err err.
Proof.
  intros Hin Hnone. unfold run. rewrite for_each_cons. cbn [handle].
  rewrite on_root_parse_eq.
  destruct (get_section _) as [c |]; [| by eexists].
  destruct (node_notes_text _) as [html |]; [| by eexists].
  destruct (fromstring html) as [tree |]; [| by eexists].
  destruct (map_r _ (r_change_history r)) as [history |] eqn:Hh; [| by eexists].
  apply map_r_parse in Hh.
  apply list_elem_of_lookup in Hin as [i Hi].
  destruct (Forall2_lookup_l _ _ _ _ _ Hh Hi) as (tree' & _ & Htree).
  rewrite notes_text_html in Htree. unfold history_notes in Htree.
  cbn [fst snd] in Htree. congruence.
Qed.

(** After a run that enters the root first and no root again and that
    ends, the output has a section "LEGEND" with exactly one entry per key
    of [_SECTIONS], in order, whatever the specialization holds; the node
    of a key shows the key in the colours of its section of [_CONFIG], and
    its notes block is the parse of the definition list with the
    description of that section. *)
Lemma legend_complete (r0 r : Root) (evs : list event) (s' : state) :
  run fromstring (RootEnter r :: evs) (init r0) = OK (tt, s') →
  Forall (λ e, ¬ is_root_enter e) evs →
  ∃ (styles : list Style) trees,
    Forall2 (λ key c, get_section key = Some c) _SECTIONS.*1 styles
    ∧ Forall2 (λ c tree,
                 fromstring (html_notes [("Description", description c)]) = Some tree)
        styles trees
    ∧ section_rendered s' "LEGEND"
        (zip ((λ kc, list_to_map [("BACKGROUND_COLOR", bg_color kc.2);
                                  ("COLOR", font_color kc.2);
                                  ("STYLE", "bubble");
                                  ("TEXT", kc.1)])
              <$> zip _SECTIONS.*1 styles) trees)
    ∧ length (zip (zip _SECTIONS.*1 styles) trees) = length _SECTIONS.
Proof.
  intros Hrun Hevs.
  destruct (root_sections r0 r evs s' Hrun Hevs)
    as (l_map & l_root & _ & l_legend & e_root & _ & legend
        & Hmap & Hlmap & Hroot & Htag & _ & Hin & _ & _ & Hparse & Hreify).
  exists legend_items.*2, legend.
  assert (Hzip : zip _SECTIONS.*1 legend_items.*2 = legend_items) by reflexivity.
  rewrite Hzip. split_and!.
  - repeat constructor.
  - apply Forall2_fmap_l. eapply Forall2_impl; [exact Hparse |].
    intros item tree. cbn beta. by rewrite notes_text_html.
  - by exists l_map, l_root, l_legend, e_root.
  - rewrite length_zip_with. apply Forall2_length in Hparse. rewrite <- Hparse. reflexivity.
Qed.

(** *** Suppressed nodes *)

(** The identity of the node a handler emits a graph node for, if any. *)
Definition rendered (e : event) : list ident :=
  match e with
  | RootEnter r => [r_ident r]
  | RootExit _ => []
  | TopicEnter t =>
      match t_kind t with
      | Realm => []
      | _ => [t_ident t]
      end
  | SubprocessEnter sp => [sp_ident sp]
  | PropertySetEnter ps => if ps_are_cim_properties ps then [] else [ps_ident ps]
  | PropertyEnter p => if p_was_injected p then [] else [p_ident p]
  | EnumChoiceEnter c => [ec_ident c]
  end.

Lemma emit_node_nodes parent owner text style s s' :
  _emit_node fromstring parent owner text style s = OK (tt, s') →
  ∀ k, k ≠ node_ident owner → nodes s' !! k = nodes s !! k.
Proof.
  intros (c & txt & tree & _ & _ & -> & _)%emit_node_inv k Hk.
  by rewrite lookup_insert_ne.
Qed.

Lemma emit_notes_nodes n s s' :
  _emit_notes fromstring (OwnerNode n) [] s = OK (tt, s') → nodes s' = nodes s.
Proof.
  rewrite emit_notes_node_eq.
  destruct (nodes s !! node_ident n) as [p |]; [| done].
  destruct (node_notes_text _) as [html |]; [| done].
  destruct (store s !! p) as [e |]; [| done].
  destruct (fromstring html) as [tree |]; [| done].
  by intros [= <-].
Qed.

Lemma handle_nodes e s s' :
  handle fromstring e s = OK (tt, s') →
  ∀ k, k ∉ rendered e → nodes s' !! k = nodes s !! k.
Proof.
  destruct e as [r | r | t | sp | ps | p | c]; cbn [handle rendered].
  - rewrite on_root_parse_eq.
    destruct (get_section _) as [c |]; [| done].
    destruct (node_notes_text _) as [html |]; [| done].
    destruct (fromstring html) as [tree |]; [| done].
    destruct (map_r _ (r_change_history r)) as [history |]; [| done].
    destruct (map_r _ legend_items) as [legend |]; [| done].
    intros [= <-] k Hk. cbn [nodes]. rewrite lookup_insert_ne; [done |].
    intros <-. apply Hk, list_elem_of_here.
  - by intros [= <-].
  - destruct (t_kind t).
    + by intros [= <-].
    + unfold on_grid_parse. intros (r0 & s1 & [= <- <-] & H)%bind_inv k Hk.
      eapply emit_node_nodes; [done |]. intros ->. apply Hk, list_elem_of_here.
    + unfold on_keyprops_parse. intros (r0 & s1 & [= <- <-] & H)%bind_inv k Hk.
      eapply emit_node_nodes; [done |]. intros ->. apply Hk, list_elem_of_here.
    + unfold on_process_parse. intros (r0 & s1 & [= <- <-] & H)%bind_inv k Hk.
      apply bind_inv in H as ([] & s2 & H1 & H2).
      rewrite (emit_notes_nodes _ _ _ H2).
      eapply emit_node_nodes; [done |]. intros ->. apply Hk, list_elem_of_here.
  - unfold on_subprocess_parse. intros H k Hk.
    eapply emit_node_nodes; [done |]. intros ->. apply Hk, list_elem_of_here.
  - unfold on_property_set_parse. destruct (ps_are_cim_properties ps).
    + by intros [= <-].
    + intros H k Hk.
      eapply emit_node_nodes; [done |]. intros ->. apply Hk, list_elem_of_here.
  - unfold on_property_parse. destruct (p_was_injected p).
    + by intros [= <-].
    + intros H k Hk. apply bind_inv in H as ([] & s2 & H1 & H2).
      rewrite (emit_notes_nodes _ _ _ H2).
      eapply emit_node_nodes; [done |]. intros ->. apply Hk, list_elem_of_here.
  - unfold on_enum_choice_parse. intros H k Hk.
    eapply emit_node_nodes; [done |]. intros ->. apply Hk, list_elem_of_here.
Qed.

Lemma run_nodes evs s s' :
  run fromstring evs s = OK (tt, s') →
  ∀ k, k ∉ evs ≫= rendered → nodes s' !! k = nodes s !! k.
Proof.
  unfold run. revert s. induction evs as [| e evs IH]; intros s.
  - by intros [= <-].
  - rewrite for_each_cons.
    destruct (handle fromstring e s) as [[[] s1] |] eqn:He; [| done].
    intros Hrun k Hk. rewrite bind_cons in Hk.
    apply not_elem_of_app in Hk as [Hk1 Hk2].
    rewrite (IH _ Hrun k Hk2). by apply (handle_nodes _ _ _ He).
Qed.

Lemma emit_node_parent k owner text style s s' :
  _emit_node fromstring (PNode k) owner text style s = OK (tt, s') →
  is_Some (nodes s !! k).
Proof.
  rewrite emit_node_eq.
  destruct (get_section _) as [c |]; [| done].
  destruct (node_text _ _) as [txt |]; [| done].
  cbn [parent_loc]. by destruct (nodes s !! k).
Qed.

Lemma suppressed_property_set ps s :
  ps_are_cim_properties ps = true → on_property_set_parse fromstring ps s = OK (tt, s).
Proof. intros Hps. unfold on_property_set_parse. by rewrite Hps. Qed.

Lemma suppressed_property p s :
  p_was_injected p = true → on_property_parse fromstring p s = OK (tt, s).
Proof. intros Hp. unfold on_property_parse. by rewrite Hp. Qed.

(** The handler of a property set whose members are inherited, and the
    handler of an injected property, return with the mindmap and the node
    cache as they were: no graph node is created for the node and nothing
    is decorated.  Through a run that ends, a node that only such
    handlers were called for has no graph node at the end.  A handler that
    creates a graph node looks up the graph node of the parent first. *)
Lemma suppressed_nodes_not_rendered :
  (∀ ps s, ps_are_cim_properties ps = true →
           on_property_set_parse fromstring ps s = OK (tt, s))
  ∧ (∀ p s, p_was_injected p = true →
            on_property_parse fromstring p s = OK (tt, s))
  ∧ (∀ r0 evs s' k, run fromstring evs (init r0) = OK (tt, s') →
                    k ∉ evs ≫= rendered → nodes s' !! k = None)
  ∧ (∀ c s s', on_enum_choice_parse fromstring c s = OK (tt, s') →
               is_Some (nodes s !! ec_enum_detail c))
  ∧ (∀ p s s', p_was_injected p = false →
               on_property_parse fromstring p s = OK (tt, s') →
               is_Some (nodes s !! p_owner p))
  ∧ (∀ ps s s', ps_are_cim_properties ps = false →
                on_property_set_parse fromstring ps s = OK (tt, s') →
                is_Some (nodes s !! ps_owner ps)).
Proof.
  split_and!.
  - apply suppressed_property_set.
  - apply suppressed_property.
  - intros r0 evs s' k Hrun Hk. by rewrite (run_nodes _ _ _ Hrun k Hk).
  - intros c s s' H. by eapply emit_node_parent.
  - intros p s s' Hp. unfold on_property_parse. rewrite Hp.
    intros ([] & s1 & H & _)%bind_inv. by eapply emit_node_parent.
  - intros ps s s' Hps. unfold on_property_set_parse. rewrite Hps.
    intros H. by eapply emit_node_parent.
Qed.

(** *** The decorations of a node *)

Definition child_tag (h : list Element) (c : child) : option string :=
  match c with
  | ChildRef l => tag <$> h !! l
  | ChildTree (XElem t _ _ _) => Some t
  end.

(** The tags of the children of the element cached for the node [k]. *)
Definition decorations (s : state) (k : ident) : option (list (option string)) :=
  l ← nodes s !! k;
  e ← store s !! l;
  Some (child_tag (store s) <$> children e).

(** A node emitted by [_emit_node] alone has one font and one notes
    block. *)
Lemma emit_node_decorations parent owner text style s s' :
  _emit_node fromstring parent owner text style s = OK (tt, s') →
  decorations s' (node_ident owner) = Some [Some "font"; Some "richcontent"].
Proof.
  intros (c & txt & tree & _ & _ & Hn & _ & H0 & H1 & H2)%emit_node_inv.
  unfold decorations. rewrite Hn, lookup_insert_eq. cbn [mbind option_bind].
  rewrite H0. cbn [mbind option_bind children element fmap list_fmap child_tag].
  by rewrite H1, H2.
Qed.

(** A second [_emit_notes] for the node adds a second notes block. *)
Lemma emit_node_notes_decorations parent owner text style s s' :
  (_emit_node fromstring parent owner text style
   >> _emit_notes fromstring (OwnerNode owner) []) s = OK (tt, s') →
  decorations s' (node_ident owner)
  = Some [Some "font"; Some "richcontent"; Some "richcontent"].
Proof.
  intros ([] & s1 & H1 & H2)%bind_inv.
  apply emit_node_inv in H1 as (c & txt & tree & _ & _ & Hn & Hlen & H10 & H11 & H12).
  rewrite emit_notes_node_eq, Hn, lookup_insert_eq in H2.
  destruct (node_notes_text owner) as [html |]; [| done].
  rewrite H10 in H2.
  destruct (fromstring html) as [tree' |]; [| done].
  injection H2 as <-.
  pose proof (lookup_lt_Some _ _ _ H10) as Hlt.
  unfold decorations. cbn [nodes store with_store].
  rewrite Hn, lookup_insert_eq. cbn [mbind option_bind].
  rewrite lookup_app_l, list_lookup_insert_eq by (rewrite ?length_insert; lia).
  cbn [mbind option_bind children element add_child fmap list_fmap app child_tag].
  rewrite !lookup_app_l, !list_lookup_insert_ne, H11, H12
    by (rewrite ?length_insert; lia).
  rewrite lookup_app_r, length_insert, Hlen by (rewrite length_insert; lia).
  replace (length (store s) + 3 - (length (store s) + 3)) with 0 by lia.
  done.
Qed.

Lemma process_decorations t s s' :
  on_process_parse fromstring t s = OK (tt, s') →
  decorations s' (t_ident t)
  = Some [Some "font"; Some "richcontent"; Some "richcontent"].
Proof.
  unfold on_process_parse. intros (r0 & s1 & [= <- <-] & H)%bind_inv.
  by apply emit_node_notes_decorations in H.
Qed.

Lemma property_decorations p s s' :
  p_was_injected p = false →
  on_property_parse fromstring p s = OK (tt, s') →
  decorations s' (p_ident p)
  = Some [Some "font"; Some "richcontent"; Some "richcontent"].
Proof.
  intros Hp. unfold on_property_parse. rewrite Hp. intros H.
  by apply emit_node_notes_decorations in H.
Qed.

(** *** A run does not depend on what the generator held before *)

Definition shift_child (n : nat) (c : child) : child :=
  match c with
  | ChildRef l => ChildRef (n + l)
  | ChildTree x => ChildTree x
  end.

(** The same element in a store whose elements sit [n] places further. *)
Definition shift_elem (n : nat) (e : Element) : Element :=
  element (tag e) (attrib e) (shift_child n <$> children e).

(** [B] holds everything [A] holds, [n] places further. *)
Record simulates (n : nat) (A B : state) : Prop := {
  sim_root : root B = root A;
  sim_length : length (store B) = n + length (store A);
  sim_mmap : ∀ l, mmap A = Some l → mmap B = Some (n + l);
  sim_nodes : ∀ k l, nodes A !! k = Some l → nodes B !! k = Some (n + l);
  sim_store : ∀ l e, store A !! l = Some e → store B !! (n + l) = Some (shift_elem n e)
}.

Lemma mm_simulates_init r s : root s = r → simulates (length (store s)) (init r) s.
Proof. intros Hr. split; [done | simpl; lia | done | done | done]. Qed.

Lemma shift_add_child n c e :
  shift_elem n (add_child c e) = add_child (shift_child n c) (shift_elem n e).
Proof. unfold shift_elem, add_child, element. cbn [tag attrib children]. by rewrite fmap_app. Qed.

(** The store after one element gained a child and others were
    allocated. *)
Lemma sim_store_step n (hA hB : list Element) p e c newA newB :
  length hB = n + length hA →
  (∀ l e, hA !! l = Some e → hB !! (n + l) = Some (shift_elem n e)) →
  hA !! p = Some e →
  shift_elem n <$> newA = newB →
  ∀ l e0,
    (<[p := add_child c e]> hA ++ newA) !! l = Some e0 →
    (<[n + p := add_child (shift_child n c) (shift_elem n e)]> hB ++ newB) !! (n + l)
    = Some (shift_elem n e0).
Proof.
  intros Hlen Hh Hp <- l e0. pose proof (lookup_lt_Some _ _ _ Hp) as Hlt.
  destruct (decide (l < length hA)) as [Hl | Hl].
  - rewrite !lookup_app_l by (rewrite length_insert; lia).
    destruct (decide (l = p)) as [-> | Hne].
    + rewrite !list_lookup_insert_eq by lia. intros [= <-]. by rewrite shift_add_child.
    + rewrite !list_lookup_insert_ne by lia. apply Hh.
  - rewrite !lookup_app_r by (rewrite length_insert; lia).
    rewrite !length_insert, Hlen.
    replace (n + l - (n + length hA)) with (l - length hA) by lia.
    rewrite list_lookup_fmap. by intros ->.
Qed.

Lemma sim_store_alloc n (hA hB : list Element) newA newB :
  length hB = n + length hA →
  (∀ l e, hA !! l = Some e → hB !! (n + l) = Some (shift_elem n e)) →
  shift_elem n <$> newA = newB →
  ∀ l e0,
    (hA ++ newA) !! l = Some e0 → (hB ++ newB) !! (n + l) = Some (shift_elem n e0).
Proof.
  intros Hlen Hh <- l e0.
  destruct (decide (l < length hA)) as [Hl | Hl].
  - rewrite !lookup_app_l by lia. apply Hh.
  - rewrite !lookup_app_r by lia. rewrite Hlen.
    replace (n + l - (n + length hA)) with (l - length hA) by lia.
    rewrite list_lookup_fmap. by intros ->.
Qed.

Lemma sim_nodes_insert n (mA mB : gmap ident nat) k l :
  (∀ k l, mA !! k = Some l → mB !! k = Some (n + l)) →
  ∀ k0 l0, <[k := l]> mA !! k0 = Some l0 → <[k := n + l]> mB !! k0 = Some (n + l0).
Proof.
  intros Hm k0 l0. destruct (decide (k = k0)) as [-> | Hne].
  - rewrite !lookup_insert_eq. by intros [= <-].
  - rewrite !lookup_insert_ne by done. apply Hm.
Qed.

Lemma shift_emitted n m atts c tree :
  shift_elem n <$> emitted m atts c tree = emitted (n + m) atts c tree.
Proof.
  unfold emitted, shift_elem, element. cbn.
  by replace (n + S m) with (S (n + m)) by lia;
     replace (n + S (S m)) with (S (S (n + m))) by lia.
Qed.

Lemma emit_node_sim n A B k owner text style A' :
  simulates n A B →
  _emit_node fromstring (PNode k) owner text style A = OK (tt, A') →
  ∃ B', _emit_node fromstring (PNode k) owner text style B = OK (tt, B')
        ∧ simulates n A' B'.
Proof.
  intros [Hr Hl Hm Hn Hs]. rewrite !emit_node_eq.
  destruct (get_section _) as [c |]; [| done].
  destruct (node_text _ _) as [txt |]; [| done].
  cbn [parent_loc]. destruct (nodes A !! k) as [p |] eqn:Hk; [| done].
  rewrite (Hn _ _ Hk). cbn [subscript].
  destruct (store A !! p) as [e |] eqn:Hp; [| done]. rewrite (Hs _ _ Hp).
  destruct (node_notes_text _) as [html |]; [| done].
  destruct (fromstring html) as [tree |]; [| done].
  intros [= <-]. eexists. split; [done |].
  split; cbn [root mmap nodes store].
  - done.
  - rewrite !length_app, !length_insert. simpl. lia.
  - done.
  - rewrite Hl. by apply sim_nodes_insert.
  - rewrite Hl. apply (sim_store_step n _ _ p e (ChildRef (length (store A)))); try done.
    apply shift_emitted.
Qed.

Lemma emit_notes_sim n A B owner A' :
  simulates n A B →
  _emit_notes fromstring (OwnerNode owner) [] A = OK (tt, A') →
  ∃ B', _emit_notes fromstring (OwnerNode owner) [] B = OK (tt, B')
        ∧ simulates n A' B'.
Proof.
  intros [Hr Hl Hm Hn Hs]. rewrite !emit_notes_node_eq.
  destruct (nodes A !! node_ident owner) as [p |] eqn:Hk; [| done].
  rewrite (Hn _ _ Hk).
  destruct (node_notes_text _) as [html |]; [| done].
  destruct (store A !! p) as [e |] eqn:Hp; [| done]. rewrite (Hs _ _ Hp).
  destruct (fromstring html) as [tree |]; [| done].
  intros [= <-]. eexists. split; [done |].
  split; cbn [root mmap nodes store with_store].
  - done.
  - rewrite !length_app, !length_insert. simpl. lia.
  - done.
  - done.
  - rewrite Hl. by apply (sim_store_step n _ _ p e (ChildRef (length (store A)))).
Qed.

Lemma shift_section_refs n m k :
  shift_child n <$> section_refs m k = section_refs (n + m) k.
Proof.
  revert m. induction k as [| k IH]; intros m; [done |].
  cbn [section_refs]. rewrite fmap_cons, IH. cbn [shift_child].
  by replace (n + S (S m)) with (S (S (n + m))) by lia.
Qed.

Lemma shift_section_entries n m items :
  shift_elem n <$> section_entries m items = section_entries (n + m) items.
Proof.
  revert m. induction items as [| [atts tree] items IH]; intros m; [done |].
  cbn [section_entries]. rewrite fmap_app, IH.
  replace (n + S (S m)) with (S (S (n + m))) by lia. f_equal.
  unfold entry_block, shift_elem, element. cbn.
  by replace (n + S m) with (S (n + m)) by lia.
Qed.

Lemma shift_section_block n m atts items :
  shift_elem n <$> section_block m atts items = section_block (n + m) atts items.
Proof.
  unfold section_block. rewrite fmap_cons, shift_section_entries.
  replace (n + S m) with (S (n + m)) by lia. f_equal.
  unfold shift_elem, element. cbn [tag attrib children].
  rewrite shift_section_refs. by replace (n + S m) with (S (n + m)) by lia.
Qed.

Lemma shift_root_block n m r c tree history legend :
  shift_elem n <$> root_block m r c tree history legend
  = root_block (n + m) r c tree history legend.
Proof.
  unfold root_block. rewrite !fmap_app, !shift_section_block.
  replace (n + (m + 4)) with (n + m + 4) by lia.
  replace (n + (m + 5 + 2 * length (r_change_history r)))
    with (n + m + 5 + 2 * length (r_change_history r)) by lia.
  f_equal. unfold shift_elem, element. cbn.
  replace (n + S m) with (S (n + m)) by lia.
  replace (n + (m + 2)) with (n + m + 2) by lia.
  replace (n + (m + 3)) with (n + m + 3) by lia.
  replace (n + (m + 4)) with (n + m + 4) by lia.
  by replace (n + (m + 5 + (length (r_change_history r) + (length (r_change_history r) + 0))))
    with (n + m + 5 + (length (r_change_history r) + (length (r_change_history r) + 0)))
    by lia.
Qed.

Lemma mm_handle_sim n e A B A' :
  simulates n A B →
  handle fromstring e A = OK (tt, A') →
  ∃ B', handle fromstring e B = OK (tt, B') ∧ simulates n A' B'.
Proof.
  intros Hsim. destruct e as [r | r | t | sp | ps | p | c]; cbn [handle].
  - rewrite !on_root_parse_eq.
    destruct (get_section _) as [c |]; [| done].
    destruct (node_notes_text _) as [html |]; [| done].
    destruct (fromstring html) as [tree |]; [| done].
    destruct (map_r _ (r_change_history r)) as [history |]; [| done].
    destruct (map_r _ legend_items) as [legend |]; [| done].
    intros [= <-]. eexists. split; [done |].
    destruct Hsim as [Hr Hl Hm Hn Hs].
    split; cbn [root mmap nodes store].
    + done.
    + rewrite Hl, !length_app, <- (shift_root_block n (length (store A))), length_fmap. lia.
    + intros l [= <-]. by rewrite Hl.
    + rewrite Hl. replace (S (n + length (store A))) with (n + S (length (store A))) by lia.
      by apply sim_nodes_insert.
    + rewrite Hl. apply sim_store_alloc; [done | done | apply shift_root_block].
  - intros [= <-]. by exists B.
  - destruct (t_kind t).
    + intros [= <-]. by exists B.
    + unfold on_grid_parse. intros (r0 & A0 & [= <- <-] & H)%bind_inv.
      unfold bind, gets. rewrite (sim_root _ _ _ Hsim). by eapply emit_node_sim.
    + unfold on_keyprops_parse. intros (r0 & A0 & [= <- <-] & H)%bind_inv.
      unfold bind, gets. rewrite (sim_root _ _ _ Hsim). by eapply emit_node_sim.
    + unfold on_process_parse. intros (r0 & A0 & [= <- <-] & H)%bind_inv.
      apply bind_inv in H as ([] & A1 & H1 & H2).
      eapply emit_node_sim in H1 as (B1 & H1 & Hsim1); [| done].
      eapply emit_notes_sim in H2 as (B2 & H2 & Hsim2); [| done].
      exists B2. split; [| done].
      unfold bind at 1, gets. rewrite (sim_root _ _ _ Hsim).
      unfold bind. by rewrite H1.
  - unfold on_subprocess_parse. by apply emit_node_sim.
  - unfold on_property_set_parse. destruct (ps_are_cim_properties ps).
    + intros [= <-]. by exists B.
    + by apply emit_node_sim.
  - unfold on_property_parse. destruct (p_was_injected p).
    + intros [= <-]. by exists B.
    + intros ([] & A1 & H1 & H2)%bind_inv.
      eapply emit_node_sim in H1 as (B1 & H1 & Hsim1); [| done].
      eapply emit_notes_sim in H2 as (B2 & H2 & Hsim2); [| done].
      exists B2. split; [| done]. unfold bind. by rewrite H1.
  - unfold on_enum_choice_parse. by apply emit_node_sim.
Qed.

Lemma mm_run_sim n evs :
  ∀ A B A',
    simulates n A B →
    run fromstring evs A = OK (tt, A') →
    ∃ B', run fromstring evs B = OK (tt, B') ∧ simulates n A' B'.
Proof.
  unfold run. induction evs as [| e evs IH]; intros A B A' Hsim.
  - intros [= <-]. by exists B.
  - rewrite !for_each_cons.
    destruct (handle fromstring e A) as [[[] A1] |] eqn:He; [| done].
    apply (mm_handle_sim n e A B) in He as (B1 & -> & Hsim1); [| done].
    by apply IH.
Qed.

Lemma reify_sim n hA hB :
  (∀ l e, hA !! l = Some e → hB !! (n + l) = Some (shift_elem n e)) →
  ∀ fuel fuel' l x,
    fuel ≤ fuel' → reify fuel hA l = OK x → reify fuel' hB (n + l) = OK x.
Proof.
  intros Hh. induction fuel as [| fuel IH]; intros fuel' l x Hle; [done |].
  destruct fuel' as [| fuel']; [lia |]. rewrite !reify_S.
  destruct (hA !! l) as [e |] eqn:Hl; [| done]. rewrite (Hh _ _ Hl).
  cbn [shift_elem element tag attrib children].
  destruct (map_r _ (children e)) as [ys |] eqn:Hys; [| done].
  rewrite (map_r_sim (reify_child fuel hA) (reify_child fuel' hB) (shift_child n)
             (children e) ys); [done | | done].
  apply Forall_forall. intros [l' | x'] _ y; cbn [reify_child shift_child]; [| done].
  apply IH. lia.
Qed.

Lemma output_tree_sim n A B x A' :
  simulates n A B → output_tree A = OK (x, A') → output_tree B = OK (x, B).
Proof.
  intros Hsim. unfold output_tree.
  destruct (mmap A) as [l |] eqn:Hm; [| done].
  rewrite (sim_mmap _ _ _ Hsim _ Hm).
  destruct (reify _ (store A) l) as [y |] eqn:Hy; [| done]. intros [= <- <-].
  rewrite (reify_sim n (store A) (store B) (sim_store _ _ _ Hsim)
             (length (store A)) (length (store B)) l y); [done | | done].
  rewrite (sim_length _ _ _ Hsim). lia.
Qed.

(** The tree of a run from any state of a generator for the same root is
    the tree of the run of a new generator. *)
Lemma output_tree_independent (evs : list event) (s : state) (x : xml) sA :
  (run fromstring evs >> output_tree) (init (root s)) = OK (x, sA) →
  ∃ sB, (run fromstring evs >> output_tree) s = OK (x, sB).
Proof.
  intros ([] & A1 & Hrun & Hout)%bind_inv.
  apply (mm_run_sim (length (store s)) evs _ s) in Hrun as (B1 & Hrun & Hsim);
    [| by apply mm_simulates_init].
  apply (output_tree_sim (length (store s)) _ B1) in Hout; [| done].
  exists B1. unfold bind. by rewrite Hrun.
Qed.

End WithParser.

(** *** The sample realm *)

(** The state a run ends in. *)
Definition final (r : result (unit * state)) : state :=
  match r with
  | OK (_, s) => s
  | Err _ => init Sample.bare
  end.

Definition sample_tail : list event :=
  (r_sub_topics Sample.atmos ≫= Walk.of_topic) ++ [RootExit Sample.atmos].

Definition sample_state : state :=
  final (run Sample.fromstring (RootEnter Sample.atmos :: sample_tail) (init Sample.atmos)).

Lemma sample_run :
  run Sample.fromstring (RootEnter Sample.atmos :: sample_tail) (init Sample.atmos)
  = OK (tt, sample_state).
Proof. vm_compute. reflexivity. Qed.

Lemma sample_tail_no_root : Forall (λ e, ¬ is_root_enter e) sample_tail.
Proof. repeat constructor; by intros []. Qed.

Lemma change_history_fidelity_sample :
  ∃ trees,
    run Sample.fromstring (RootEnter Sample.atmos :: sample_tail) (init Sample.atmos)
    = OK (tt, sample_state)
    ∧ section_rendered sample_state "CHANGE HISTORY"
        (zip ((λ h, list_to_map [("STYLE", "bubble"); ("TEXT", h.1.1.1)])
              <$> r_change_history Sample.atmos) trees)
    ∧ length trees = 2.
Proof.
  destruct (change_history_fidelity Sample.fromstring Sample.atmos Sample.atmos
              sample_tail sample_state sample_run sample_tail_no_root)
    as (trees & Hparse & Hsec & _).
  exists trees. split; [exact sample_run |]. split; [exact Hsec |].
  by apply Forall2_length in Hparse.
Defined.

Lemma legend_complete_sample :
  ∃ styles trees,
    run Sample.fromstring (RootEnter Sample.atmos :: sample_tail) (init Sample.atmos)
    = OK (tt, sample_state)
    ∧ section_rendered sample_state "LEGEND"
        (zip ((λ kc, list_to_map [("BACKGROUND_COLOR", bg_color kc.2);
                                  ("COLOR", font_color kc.2);
                                  ("STYLE", "bubble");
                                  ("TEXT", kc.1)])
              <$> zip _SECTIONS.*1 styles) trees)
    ∧ length (zip (zip _SECTIONS.*1 styles) trees) = 8.
Proof.
  destruct (legend_complete Sample.fromstring Sample.atmos Sample.atmos
              sample_tail sample_state sample_run sample_tail_no_root)
    as (styles & trees & _ & _ & Hsec & Hlen).
  exists styles, trees. split; [exact sample_run |]. split; [exact Hsec |]. exact Hlen.
Defined.

(** The state after the root of the sample was entered, and after its
    process was emitted with and without URL. *)
Definition root_state : state :=
  final (run Sample.fromstring [RootEnter Sample.atmos] (init Sample.atmos)).

Definition linked_state : state :=
  final (_emit_node Sample.fromstring (PNode 1)
           (with_url (Some "https://example.org/dynamics") (NTopic Sample.dynamics))
           None "bubble" root_state).

Lemma sample_topic_emitted :
  _emit_node Sample.fromstring (PNode 1)
    (with_url (Some "https://example.org/dynamics") (NTopic Sample.dynamics))
    None "bubble" root_state = OK (tt, linked_state).
Proof. vm_compute. reflexivity. Qed.

Lemma url_is_optional_sample :
  ∃ s0 l e l0 e0,
    _emit_node Sample.fromstring (PNode 1)
      (with_url (Some "https://example.org/dynamics") (NTopic Sample.dynamics))
      None "bubble" root_state = OK (tt, linked_state)
    ∧ nodes linked_state !! t_ident Sample.dynamics = Some l
    ∧ store linked_state !! l = Some e
    ∧ attrib e !! "LINK" = Some "https://example.org/dynamics"
    ∧ _emit_node Sample.fromstring (PNode 1) (with_url None (NTopic Sample.dynamics))
        None "bubble" root_state = OK (tt, s0)
    ∧ nodes s0 !! t_ident Sample.dynamics = Some l0
    ∧ store s0 !! l0 = Some e0
    ∧ attrib e0 !! "LINK" = None.
Proof.
  destruct (url_is_optional Sample.fromstring (PNode 1) (NTopic Sample.dynamics)
              (Some "https://example.org/dynamics") None "bubble" root_state
              linked_state sample_topic_emitted)
    as [(l & e & H1 & H2 & _ & H3) (s0 & l0 & e0 & H4 & H5 & H6 & _ & H7)].
  exists s0, l, e, l0, e0. split; [exact sample_topic_emitted |].
  split; [exact H1 |]. split; [exact H2 |]. split; [exact H3 |].
  split; [exact H4 |]. split; [exact H5 |]. split; [exact H6 |]. exact H7.
Defined.

Lemma overview_not_rendered :
  p_ident Sample.overview ∉ (RootEnter Sample.atmos :: sample_tail) ≫= rendered.
Proof. apply (bool_decide_unpack _). vm_compute. exact I. Qed.

Lemma suppressed_nodes_sample :
  p_was_injected Sample.overview = true
  ∧ on_property_parse Sample.fromstring Sample.overview (init Sample.atmos)
    = OK (tt, init Sample.atmos)
  ∧ run Sample.fromstring (RootEnter Sample.atmos :: sample_tail) (init Sample.atmos)
    = OK (tt, sample_state)
  ∧ nodes sample_state !! p_ident Sample.overview = None.
Proof.
  destruct (suppressed_nodes_not_rendered Sample.fromstring) as (_ & Hp & Hrun & _).
  split; [reflexivity |]. split; [apply Hp; reflexivity |].
  split; [exact sample_run |].
  exact (Hrun Sample.atmos _ sample_state _ sample_run overview_not_rendered).
Defined.

(** The state after the root and the grid of the realm with a grid were
    entered. *)
Definition grid_state : state :=
  final ((on_root_parse Sample.fromstring Sample.atmos_grid
          >> on_grid_parse Sample.fromstring Sample.grid) (init Sample.atmos_grid)).

(** C3.  At a realm whose grid has an injected property with an
    enumeration of one choice: the handler of the property passes it over
    and leaves the generator as it was; the handler of its enum choice has
    no such guard: it looks up the graph node of the property, which was
    not created, and fails with a key error.  The generation of this
    specialization fails and there is no output. *)
Theorem inherited_enum_choice_fails :
  p_was_injected Sample.kind = true
  ∧ en_choices <$> p_enum Sample.kind = Some [Sample.choice_c]
  ∧ ec_enum_detail Sample.choice_c = p_ident Sample.kind
  ∧ (on_root_parse Sample.fromstring Sample.atmos_grid
     >> on_grid_parse Sample.fromstring Sample.grid) (init Sample.atmos_grid)
    = OK (tt, grid_state)
  ∧ on_property_parse Sample.fromstring Sample.kind grid_state = OK (tt, grid_state)
  ∧ nodes grid_state !! p_ident Sample.kind = None
  ∧ on_enum_choice_parse Sample.fromstring Sample.choice_c grid_state = Err KeyError
  ∧ Walk.of_root Sample.atmos_grid
    = [RootEnter Sample.atmos_grid; TopicEnter Sample.grid; PropertyEnter Sample.kind;
       EnumChoiceEnter Sample.choice_c; RootExit Sample.atmos_grid]
  ∧ run Sample.fromstring (Walk.of_root Sample.atmos_grid) (init Sample.atmos_grid)
    = Err KeyError
  ∧ generate Sample.fromstring Sample.tostring Sample.atmos_grid = Err KeyError.
Proof. split_and!; vm_compute; reflexivity. Qed.

(** The state after the generation of the realm with one entry in its
    change history, the comment of the entry without ampersand. *)
Definition revised_state : state :=
  final (run Sample.strict_fromstring
           (Walk.of_root (Sample.revised "Reviewed and extended"))
           (init (Sample.revised "Reviewed and extended"))).

(** C7.  An entry of the change history is handed to [ET.fromstring] as
    it is.  At a realm whose description and whose one entry hold an
    ampersand: the notes of the realm are accepted, the ampersand of the
    description being replaced, but the definition list of the entry,
    with its ampersand, is rejected; entering the root fails with a parse
    error and the generation has no output, hence no CHANGE HISTORY
    section.  With the ampersand of the comment written as a word the
    generation ends, and the section has exactly one child for the entry:
    a node showing the version, annotated with the definition list of
    Version, Date, Person and Comment. *)
Theorem change_history_entry_not_escaped :
  let bad := Sample.revised "Reviewed & extended" in
  let good := Sample.revised "Reviewed and extended" in
  r_change_history bad = [("0.2.0", "2017-03-01", "Bob M", "Reviewed & extended")]
  ∧ node_notes_text (NRoot bad)
    = OK (html_notes [("Description", "Air and sea"); ("Spec. ID", "cordexp.atmos");
                      ("Contact", "someone"); ("Authors", "Ada L");
                      ("Contributors", "")])
  ∧ is_Some (Sample.strict_fromstring
               (html_notes [("Description", "Air and sea"); ("Spec. ID", "cordexp.atmos");
                            ("Contact", "someone"); ("Authors", "Ada L");
                            ("Contributors", "")]))
  ∧ Sample.strict_fromstring
      (html_notes [("Version", "0.2.0"); ("Date", "2017-03-01"); ("Person", "Bob M");
                   ("Comment", "Reviewed & extended")]) = None
  ∧ on_root_parse Sample.strict_fromstring bad (init bad) = Err ParseError
  ∧ generate Sample.strict_fromstring Sample.tostring bad = Err ParseError
  ∧ generate Sample.strict_fromstring Sample.tostring good = OK "<map/>"
  ∧ run Sample.strict_fromstring (Walk.of_root good) (init good) = OK (tt, revised_state)
  ∧ section_rendered revised_state "CHANGE HISTORY"
      [(list_to_map [("STYLE", "bubble"); ("TEXT", "0.2.0")],
        XElem "html" ∅ "
<html>
  <head></head>
  <body>
    <dl>
        <dt><b>Version</b></dt><dd>0.2.0</dd><dt><b>Date</b></dt><dd>2017-03-01</dd><dt><b>Person</b></dt><dd>Bob M</dd><dt><b>Comment</b></dt><dd>Reviewed and extended</dd>
    </dl>
  </body>
</html>
" [])].
Proof.
  cbv zeta. split_and!; try (vm_compute; reflexivity).
  - eexists. vm_compute. reflexivity.
  - exists 0, 1, 4, (default (element "" ∅ []) (store revised_state !! 1)).
    split_and!; try (vm_compute; reflexivity).
    apply (list_elem_of_lookup_2 _ 2). vm_compute. reflexivity.
Qed.




(** C6, at the sample realm: the node of a process and the node of a
    property hold one font and two notes blocks, where the node of a grid
    holds one font and one notes block. *)
Theorem process_and_property_notes_twice :
  decorations
    (final (run Sample.fromstring [RootEnter Sample.atmos; TopicEnter Sample.dynamics]
              (init Sample.atmos)))
    (t_ident Sample.dynamics)
  = Some [Some "font"; Some "richcontent"; Some "richcontent"]
  ∧ decorations
      (final (run Sample.fromstring
                [RootEnter Sample.atmos; TopicEnter Sample.dynamics;
                 PropertyEnter Sample.scheme_type] (init Sample.atmos)))
      (p_ident Sample.scheme_type)
    = Some [Some "font"; Some "richcontent"; Some "richcontent"]
  ∧ decorations
      (final (run Sample.fromstring [RootEnter Sample.atmos_grid; TopicEnter Sample.grid]
                (init Sample.atmos_grid)))
      (t_ident Sample.grid)
    = Some [Some "font"; Some "richcontent"].
Proof. split_and!; vm_compute; reflexivity. Qed.

End MMFacts.

(** ** Running a generator twice *)

Module Idempotence.

(** C9.  For both generators, over any sequence of traversal events: when
    the run of a new generator yields an output text, a run from any state
    of a generator for the same root (the state a first run left behind,
    say) yields the same text. *)
Theorem generators_idempotent
  (get_label : string → string) (template : string) (dumps : JS.jval → string)
  (fromstring : string → option MM.xml) (tostring : MM.xml → string)
  (evs : list event) :
  (∀ s out,
     JS.generate_from get_label template dumps (JS.init (JS.root s)) evs = OK out →
     JS.generate_from get_label template dumps s evs = OK out)
  ∧ (∀ s out,
       MM.generate_from fromstring tostring (MM.init (MM.root s)) evs = OK out →
       MM.generate_from fromstring tostring s evs = OK out).
Proof.
  split.
  - intros s out. unfold JS.generate_from, JS.get_output.
    destruct ((JS.run get_label evs >> _) (JS.init (JS.root s)))
      as [[text sA] |] eqn:HA; [| done].
    intros [= <-].
    apply bind_inv in HA as ([] & A1 & Hrun & Hout).
    apply bind_inv in Hout as (v & A2 & Hv & [= <- <-]).
    destruct (JSFacts.output_value_independent get_label evs s v A2) as [sB HB].
    { unfold bind. by rewrite Hrun. }
    apply bind_inv in HB as ([] & B1 & HrunB & HvB).
    unfold bind. rewrite HrunB. unfold bind in HvB |- *. by rewrite HvB.
  - intros s out. unfold MM.generate_from, MM.get_output.
    destruct ((MM.run fromstring evs >> _) (MM.init (MM.root s)))
      as [[text sA] |] eqn:HA; [| done].
    intros [= <-].
    apply bind_inv in HA as ([] & A1 & Hrun & Hout).
    apply bind_inv in Hout as (x & A2 & Hx & [= <- <-]).
    destruct (MMFacts.output_tree_independent fromstring evs s x A2) as [sB HB].
    { unfold bind. by rewrite Hrun. }
    apply bind_inv in HB as ([] & B1 & HrunB & HxB).
    unfold bind. rewrite HrunB. unfold bind in HxB |- *. by rewrite HxB.
Qed.

(** The states the first runs over the sample realm leave behind. *)
Definition js_used : JS.state :=
  match JS.run Sample.get_label (Walk.of_root Sample.atmos) (JS.init Sample.atmos) with
  | OK (_, s) => s
  | Err _ => JS.init Sample.atmos
  end.

Definition mm_used : MM.state :=
  match MM.run Sample.fromstring (Walk.of_root Sample.atmos) (MM.init Sample.atmos) with
  | OK (_, s) => s
  | Err _ => MM.init Sample.atmos
  end.

Lemma js_first_run :
  JS.generate_from Sample.get_label Sample.template Sample.dumps
    (JS.init (JS.root js_used)) (Walk.of_root Sample.atmos)
  = OK "var spec = {};".
Proof. vm_compute. reflexivity. Qed.

Lemma mm_first_run :
  MM.generate_from Sample.fromstring Sample.tostring
    (MM.init (MM.root mm_used)) (Walk.of_root Sample.atmos)
  = OK "<map/>".
Proof. vm_compute. reflexivity. Qed.

Lemma generators_idempotent_sample :
  JS.store js_used ≠ []
  ∧ JS.generate_from Sample.get_label Sample.template Sample.dumps
      js_used (Walk.of_root Sample.atmos) = OK "var spec = {};"
  ∧ MM.store mm_used ≠ []
  ∧ MM.generate_from Sample.fromstring Sample.tostring
      mm_used (Walk.of_root Sample.atmos) = OK "<map/>".
Proof.
  destruct (generators_idempotent Sample.get_label Sample.template Sample.dumps
              Sample.fromstring Sample.tostring (Walk.of_root Sample.atmos))
    as [HJ HM].
  split; [by vm_compute |]. split; [exact (HJ js_used _ js_first_run) |].
  split; [by vm_compute |]. exact (HM mm_used _ mm_first_run).
Defined.

End Idempotence.

(** ** Behaviour of the tree form: fragments, errors and the template *)

Module JSBehaviour.
Import JS JSFacts.

(** The model nodes whose handler caches a fragment: the root, and a
    topic that is a grid, the key properties or a process. *)
Definition cached (e : event) : list ident :=
  match e with
  | RootEnter r => [r_ident r]
  | TopicEnter t =>
      match t_kind t with
      | Realm => []
      | _ => [t_ident t]
      end
  | _ => []
  end.

(** A text as [strip] leaves it: no white space in front and none at the
    end. *)
Definition stripped (s : string) : Prop :=
  (∀ a t, s = String a t → PyStr.is_space a = false)
  ∧ (∀ t a, s = t +:+ String a "" → PyStr.is_space a = false).

(** What splitting at the commas and stripping makes of a text: the
    text is its segments joined by commas, no segment holds a comma, and
    an entry is its segment without the white space in front and at the
    end. *)
Definition split_entries (text : string) (entries : list string) : Prop :=
  ∃ segments,
    segments ≠ []
    ∧ PyStr.join "," segments = text
    ∧ Forall (λ seg, PyStrFacts.contains "," seg = false) segments
    ∧ Forall2 (λ seg entry,
                 ∃ lead trail,
                   seg = lead +:+ entry +:+ trail
                   ∧ PyStrFacts.all_space lead = true
                   ∧ PyStrFacts.all_space trail = true
                   ∧ stripped entry)
        segments entries.

(** *** [strip] *)

Lemma rev_app_append s1 s2 : String.rev_app s1 s2 = String.rev_app s1 "" +:+ s2.
Proof.
  revert s2. induction s1 as [| a s1 IH]; intros s2; [done |].
  cbn [String.rev_app]. rewrite (IH (String a s2)), (IH (String a "")).
  by rewrite PyStrFacts.append_assoc.
Qed.

Lemma rev_cons a s : String.rev (String a s) = String.rev s +:+ String a "".
Proof. unfold String.rev. cbn [String.rev_app]. apply rev_app_append. Qed.

Lemma rev_append s t : String.rev (s +:+ t) = String.rev t +:+ String.rev s.
Proof.
  induction s as [| a s IH].
  - by rewrite PyStrFacts.append_nil_l, PyStrFacts.append_nil_r.
  - by rewrite PyStrFacts.append_cons, !rev_cons, IH, PyStrFacts.append_assoc.
Qed.

Lemma rev_involutive s : String.rev (String.rev s) = s.
Proof.
  induction s as [| a s IH]; [done |].
  by rewrite rev_cons, rev_append, IH.
Qed.

Lemma lstrip_suffix s : ∃ u, s = u +:+ PyStr.lstrip s.
Proof.
  induction s as [| a s [u IH]]; [by exists "" |]. cbn [PyStr.lstrip].
  destruct (PyStr.is_space a).
  - exists (String a u). by rewrite PyStrFacts.append_cons, <- IH.
  - by exists "".
Qed.

Lemma rstrip_prefix s : ∃ u, s = PyStr.rstrip s +:+ u.
Proof.
  destruct (lstrip_suffix (String.rev s)) as [u Hu]. exists (String.rev u).
  unfold PyStr.rstrip. by rewrite <- rev_append, <- Hu, rev_involutive.
Qed.

Lemma all_space_rev s : PyStrFacts.all_space (String.rev s) = PyStrFacts.all_space s.
Proof.
  induction s as [| a s IH]; [done |].
  rewrite rev_cons, PyStrFacts.all_space_app, IH. cbn [PyStrFacts.all_space].
  by rewrite andb_true_r, andb_comm.
Qed.

Lemma rstrip_trail s : ∃ u, s = PyStr.rstrip s +:+ u ∧ PyStrFacts.all_space u = true.
Proof.
  destruct (PyStrFacts.lstrip_lead (String.rev s)) as (u & Hu & Hsp).
  exists (String.rev u). split; [| by rewrite all_space_rev].
  unfold PyStr.rstrip. by rewrite <- rev_append, <- Hu, rev_involutive.
Qed.

(** A text is white space, the stripped text, white space. *)
Lemma strip_parts s :
  ∃ lead trail, s = lead +:+ PyStr.strip s +:+ trail
                ∧ PyStrFacts.all_space lead = true ∧ PyStrFacts.all_space trail = true.
Proof.
  destruct (PyStrFacts.lstrip_lead s) as (lead & Hs & Hlead).
  destruct (rstrip_trail (PyStr.lstrip s)) as (trail & Ht & Htrail).
  exists lead, trail. unfold PyStr.strip. by rewrite <- Ht, <- Hs.
Qed.

Lemma strip_stripped s : stripped (PyStr.strip s).
Proof.
  unfold PyStr.strip. split.
  - intros a t Ht. destruct (rstrip_prefix (PyStr.lstrip s)) as [u Hu].
    rewrite Ht, PyStrFacts.append_cons in Hu.
    by apply PyStrFacts.lstrip_clean in Hu.
  - intros t a Ht. unfold PyStr.rstrip in Ht.
    apply (f_equal String.rev) in Ht. rewrite rev_involutive, rev_append in Ht.
    by apply PyStrFacts.lstrip_clean in Ht.
Qed.

Section WithLabel.
Variable get_label : string → string.

(** *** The fragment of a topic *)

(** X10.  The handler of a topic (the class binds the handlers of grids,
    key properties and processes to it) cannot fail.  It builds a new
    mapping with the fields [id], [label], [description], [contact] and
    [properties], in this order, [properties] being an empty list, and
    caches it for the topic; the fragments built before stay as they
    are, and so do the cache entries of the other nodes. *)
Theorem topic_fragment_fields (t : Topic) (s : state) :
  ∃ s' d,
    on_topic_parse get_label t s = OK (tt, s')
    ∧ store s' = store s ++ [d]
    ∧ _maps s' !! t_ident t = Some (length (store s))
    ∧ (∀ k, k ≠ t_ident t → _maps s' !! k = _maps s !! k)
    ∧ od_keys d = ["id"; "label"; "description"; "contact"; "properties"]
    ∧ od_get "id" d = Some (JStr (t_id t))
    ∧ od_get "label" d = Some (JStr (get_label (t_name t)))
    ∧ od_get "description" d = Some (jopt (t_description t))
    ∧ od_get "contact" d = Some (JStr (t_contact t))
    ∧ od_get "properties" d = Some (JList []).
Proof.
  eexists _, (topic_obj get_label t). split; [reflexivity |].
  cbn [store _maps]. split_and!; try done.
  - apply lookup_insert_eq.
  - intros k Hk. by rewrite lookup_insert_ne.
Qed.

(** X20.  The handler of a root cannot fail.  The mapping it caches for
    the root is a new one: [id], [description] and [contact] are those of
    the root (a missing description is null), [label] is the label of its
    name, and [changeHistory] holds one mapping per entry of the change
    history, in order, with the fields [version], [date], [author] and
    [note].  The fragments built before stay as they are, and so do the
    cache entries of the other nodes. *)
Theorem root_fragment_values (r : Root) (s : state) :
  ∃ s' d,
    on_root_parse get_label r s = OK (tt, s')
    ∧ store s' = store s ++ [d]
    ∧ _maps s' !! r_ident r = Some (length (store s))
    ∧ (∀ k, k ≠ r_ident r → _maps s' !! k = _maps s !! k)
    ∧ od_get "id" d = Some (JStr (r_id r))
    ∧ od_get "label" d = Some (JStr (get_label (r_name r)))
    ∧ od_get "description" d = Some (jopt (r_description r))
    ∧ od_get "contact" d = Some (JStr (r_contact r))
    ∧ od_get "changeHistory" d
      = Some (JList ((λ h, JDict [("version", JStr h.1.1.1); ("date", JStr h.1.1.2);
                                  ("author", JStr h.1.2); ("note", JStr h.2)])
                     <$> r_change_history r)).
Proof.
  eexists _, (root_obj get_label r). split; [reflexivity |].
  cbn [store _maps]. split_and!; try done.
  - apply lookup_insert_eq.
  - intros k Hk. by rewrite lookup_insert_ne.
  - change (od_get "changeHistory" (root_obj get_label r))
      with (Some (JList (_get_change <$> r_change_history r))).
    do 2 f_equal. apply list_fmap_ext. by intros i [[[v d] a] n] _.
Qed.

(** *** The fragment of a property *)

(** X11.  When the handler of a property succeeds, the fragment cached for
    the root topic of the property has the mapping of the property as the
    last entry of its [properties], after the entries that were there;
    its other fields, the other fragments and the cache are as before. *)
Theorem property_appended (p : Property) (s s' : state) :
  on_property_parse get_label p s = OK (tt, s') →
  ∃ l d d' xs,
    _maps s !! p_root_topic p = Some l
    ∧ store s !! l = Some d
    ∧ od_get "properties" d = Some (JList xs)
    ∧ store s' !! l = Some d'
    ∧ od_get "properties" d' = Some (JList (xs ++ [JDict (property_obj get_label p)]))
    ∧ od_keys d' = od_keys d
    ∧ (∀ k, k ≠ "properties" → od_get k d' = od_get k d)
    ∧ (∀ l', l' ≠ l → store s' !! l' = store s !! l')
    ∧ length (store s') = length (store s)
    ∧ _maps s' = _maps s.
Proof.
  unfold on_property_parse. intros (l & s0 & Hg & Ha)%bind_inv.
  unfold get_map in Hg. destruct (_maps s !! p_root_topic p) as [l0 |] eqn:Hl; [| done].
  injection Hg as <- <-. unfold append_to in Ha.
  destruct (store s !! l0) as [d |] eqn:Hd; [| done].
  destruct (od_get "properties" d) as [[| | | xs | |] |] eqn:Hxs; try done.
  injection Ha as <-. pose proof (lookup_lt_Some _ _ _ Hd) as Hlt.
  exists l0, d, (od_set "properties" (JList (xs ++ [JDict (property_obj get_label p)])) d), xs.
  cbn [store _maps]. split_and!; try done.
  - by apply list_lookup_insert_eq.
  - apply od_get_set_eq.
  - by eapply od_keys_set.
  - intros k Hk. by apply od_get_set_ne.
  - intros l' Hl'. by apply list_lookup_insert_ne.
  - by rewrite length_insert.
Qed.

(** X12.  The handler of a property fails with [KeyError] when nothing is
    cached for the root topic of the property, and also when the root
    topic is the root itself: the mapping of the root has no
    [properties]. *)
Theorem property_without_topic (p : Property) (r : Root) (s : state) :
  (_maps s !! p_root_topic p = None →
   on_property_parse get_label p s = Err KeyError)
  ∧ (p_root_topic p = r_ident r →
     (on_root_parse get_label r >> on_property_parse get_label p) s = Err KeyError).
Proof.
  split.
  - intros Hp. unfold on_property_parse, bind, get_map. by rewrite Hp.
  - intros Hp. unfold bind at 1, on_root_parse, set_map, modify.
    unfold on_property_parse, bind, get_map. cbn [_maps store]. rewrite Hp, lookup_insert_eq.
    unfold append_to. cbn [store]. by rewrite lookup_app_r, Nat.sub_diag.
Qed.

(** *** The exit of the root *)

Lemma map_m_get_map_missing (ts : list Topic) (s : state) :
  Exists (λ t, _maps s !! t_ident t = None) ts →
  map_m (λ i, get_map (t_ident i)) ts s = Err KeyError.
Proof.
  induction ts as [| t ts IH]; [by intros ?%Exists_nil |].
  intros Hex. cbn [map_m]. unfold bind at 1, get_map at 1.
  destruct (_maps s !! t_ident t) as [l |] eqn:Ht; [| done].
  apply Exists_cons in Hex as [Hex | Hex]; [congruence |].
  unfold bind at 1. by rewrite IH.
Qed.

Lemma map_m_get_map_all (ts : list Topic) (s : state) :
  Forall (λ t, is_Some (_maps s !! t_ident t)) ts →
  ∃ ls, Forall2 (λ t l, _maps s !! t_ident t = Some l) ts ls.
Proof.
  induction 1 as [| t ts [l Hl] _ [ls IH]]; [by exists [] |].
  exists (l :: ls). by constructor.
Qed.

Lemma on_root_parsed_eq (r : Root) (s : state) :
  on_root_parsed r s =
    match map_m (λ i, get_map (t_ident i)) (r_sub_topics (root s)) s with
    | OK (objs, s1) =>
        for_each objs (λ obj, let* l := get_map (r_ident r) in
                              append_to l "subTopics" (JRef obj)) s1
    | Err err => Err err
    end.
Proof. reflexivity. Qed.

(** X13.  The handler of the exit of the root reads the sub-topics of the
    root the generator was made for.  When there are none it does
    nothing, whether or not a fragment is cached for the root it is
    handed.  It fails with [KeyError] when a sub-topic has no fragment,
    and, there being sub-topics, when the root it is handed has none.
    Otherwise it appends to [subTopics] of the fragment of that root the
    fragments of the sub-topics themselves, in their order, after the
    entries that were there, and changes nothing else. *)
Theorem root_exit_attaches (r : Root) (s : state) :
  (r_sub_topics (root s) = [] → on_root_parsed r s = OK (tt, s))
  ∧ (Exists (λ t, _maps s !! t_ident t = None) (r_sub_topics (root s)) →
     on_root_parsed r s = Err KeyError)
  ∧ (r_sub_topics (root s) ≠ [] →
     Forall (λ t, is_Some (_maps s !! t_ident t)) (r_sub_topics (root s)) →
     _maps s !! r_ident r = None →
     on_root_parsed r s = Err KeyError)
  ∧ (∀ ls l d xs,
       Forall2 (λ t l, _maps s !! t_ident t = Some l) (r_sub_topics (root s)) ls →
       _maps s !! r_ident r = Some l →
       store s !! l = Some d →
       od_get "subTopics" d = Some (JList xs) →
       on_root_parsed r s =
         OK (tt, {| root := root s; _maps := _maps s;
                    store := <[l := od_set "subTopics" (JList (xs ++ (JRef <$> ls))) d]>
                               (store s) |})).
Proof.
  rewrite on_root_parsed_eq. split_and!.
  - intros ->. done.
  - intros Hex. by rewrite map_m_get_map_missing.
  - intros Hne Hall Hr. destruct (map_m_get_map_all _ _ Hall) as [ls Hls].
    rewrite (map_m_get_map _ _ _ Hls).
    destruct Hls as [| t l0 ts ls' _ _]; [done |].
    cbn [for_each]. unfold bind, get_map. by rewrite Hr.
  - intros ls l d xs Hls Hr Hd Hxs.
    rewrite (map_m_get_map _ _ _ Hls).
    by apply (append_loop (r_ident r) "subTopics" JRef l ls s d xs).
Qed.

(** Only one text is a segment without its white space. *)
Lemma strip_unique lead entry trail :
  PyStrFacts.all_space lead = true → PyStrFacts.all_space trail = true →
  stripped entry → PyStr.strip (lead +:+ entry +:+ trail) = entry.
Proof.
  intros Hlead Htrail [Hfirst Hlast]. unfold PyStr.strip.
  rewrite PyStrFacts.lstrip_skip by done.
  destruct entry as [| a t].
  - rewrite PyStrFacts.append_nil_l, PyStrFacts.lstrip_all_space by done. done.
  - assert (Hl : PyStr.lstrip (String a t +:+ trail) = String a t +:+ trail).
    { rewrite PyStrFacts.append_cons. cbn [PyStr.lstrip].
      by rewrite (Hfirst a t eq_refl). }
    rewrite Hl. unfold PyStr.rstrip.
    rewrite rev_append, PyStrFacts.lstrip_skip by by rewrite all_space_rev.
    destruct (String.rev (String a t)) as [| b u] eqn:Hrev.
    { apply (f_equal String.rev) in Hrev. by rewrite rev_involutive in Hrev. }
    assert (Hb : PyStr.is_space b = false).
    { apply (Hlast (String.rev u) b).
      by rewrite <- rev_cons, <- Hrev, rev_involutive. }
    cbn [PyStr.lstrip]. by rewrite Hb, <- Hrev, rev_involutive.
Qed.

Lemma split_entries_strip text :
  split_entries text (PyStr.strip <$> PyStr.split "," text).
Proof.
  exists (PyStr.split "," text). split_and!.
  - apply PyStrFacts.split_nonempty.
  - apply (PyStrFacts.join_split ","%char).
  - apply PyStrFacts.split_separator_free.
  - apply Forall2_fmap_r, Forall_Forall2_diag, Forall_forall. intros seg _.
    destruct (strip_parts seg) as (lead & trail & Hseg & Hlead & Htrail).
    exists lead, trail. split_and!; [done | done | done |]. apply strip_stripped.
Qed.

Lemma split_entries_unique text entries :
  split_entries text entries → entries = PyStr.strip <$> PyStr.split "," text.
Proof.
  intros (segments & Hne & <- & Hfree & Hall).
  rewrite (PyStrFacts.split_join ","%char) by done. clear Hne Hfree.
  induction Hall as [| seg entry segments entries Hseg _ IH]; [done |].
  destruct Hseg as (lead & trail & -> & Hlead & Htrail & Hstripped).
  by rewrite fmap_cons, strip_unique, <- IH.
Qed.

(** *** The fields of the root that are split *)

(** X14.  For ASCII texts, [authors] and [contributors] of the mapping of
    the root hold the segments between the commas of the text of the
    root, each without its white space in front and at the end, in order,
    and nothing else fits this description.  So there is one entry more
    than there are commas: an empty text gives one empty entry, not an
    empty list.  No entry begins or ends with white space. *)
Theorem authors_split (r : Root) :
  PyStrFacts.is_ascii (r_authors r) = true →
  PyStrFacts.is_ascii (r_contributors r) = true →
  ∃ names others,
    od_get "authors" (root_obj get_label r) = Some (JList (JStr <$> names))
    ∧ od_get "contributors" (root_obj get_label r) = Some (JList (JStr <$> others))
    ∧ split_entries (r_authors r) names
    ∧ split_entries (r_contributors r) others
    ∧ (∀ entries, split_entries (r_authors r) entries → entries = names)
    ∧ (∀ entries, split_entries (r_contributors r) entries → entries = others)
    ∧ length names = S (PyStrFacts.count "," (r_authors r))
    ∧ length others = S (PyStrFacts.count "," (r_contributors r))
    ∧ (r_authors r = "" → names = [""])
    ∧ (r_contributors r = "" → others = [""])
    ∧ Forall stripped names
    ∧ Forall stripped others.
Proof.
  intros _ _.
  exists (PyStr.strip <$> PyStr.split "," (r_authors r)),
         (PyStr.strip <$> PyStr.split "," (r_contributors r)).
  split_and!.
  - by rewrite <- list_fmap_compose.
  - by rewrite <- list_fmap_compose.
  - apply split_entries_strip.
  - apply split_entries_strip.
  - apply split_entries_unique.
  - apply split_entries_unique.
  - by rewrite length_fmap, PyStrFacts.split_length.
  - by rewrite length_fmap, PyStrFacts.split_length.
  - by intros ->.
  - by intros ->.
  - apply Forall_fmap, Forall_forall. intros x _. apply strip_stripped.
  - apply Forall_fmap, Forall_forall. intros x _. apply strip_stripped.
Qed.

(** *** The label of a property *)

Lemma property_obj_label (p : Property) :
  od_get "label" (property_obj get_label p)
  = Some (JStr (PyStr.join " > " (get_label <$> drop 3 (PyStr.split "." (p_id p))))).
Proof. unfold property_obj. by destruct (p_enum p). Qed.

(** X15.  The label of the mapping of a property is made of the segments
    of its dotted id after the third: each is passed to [get_label] and
    they are joined with " > ".  An id of three segments or fewer gives
    the empty label; an id of four gives the label of the last
    segment. *)
Theorem property_label (p : Property) :
  (PyStrFacts.count "." (p_id p) < 3 →
   od_get "label" (property_obj get_label p) = Some (JStr ""))
  ∧ (∀ a b c rest,
       PyStrFacts.contains "." a = false →
       PyStrFacts.contains "." b = false →
       PyStrFacts.contains "." c = false →
       p_id p = a +:+ "." +:+ b +:+ "." +:+ c +:+ "." +:+ rest →
       od_get "label" (property_obj get_label p)
       = Some (JStr (PyStr.join " > " (get_label <$> PyStr.split "." rest)))
       ∧ (PyStrFacts.contains "." rest = false →
          od_get "label" (property_obj get_label p) = Some (JStr (get_label rest)))).
Proof.
  rewrite property_obj_label. split.
  - intros Hlt. rewrite drop_ge; [done |]. rewrite PyStrFacts.split_length. lia.
  - intros a b c rest Ha Hb Hc ->.
    change (a +:+ "." +:+ b +:+ "." +:+ c +:+ "." +:+ rest)
      with (a +:+ String "." (b +:+ String "." (c +:+ String "." rest))).
    rewrite !PyStrFacts.split_first by done. cbn [drop]. split; [done |].
    intros Hrest. by rewrite PyStrFacts.split_absent.
Qed.

(** *** The template *)

(** X16.  [get_output] puts the text of [json.dumps] in the place of
    TOPIC in the template: with one TOPIC and no other capital T the
    output is the template with that text in its place, whatever the
    text holds (a TOPIC in it is not replaced again); a template without
    a capital T comes back as it is, without the data. *)
Theorem template_substitution (dumps : jval → string) (s s' : state) (v : jval) :
  output_value s = OK (v, s') →
  (∀ pre post,
     PyStrFacts.contains "T" pre = false →
     PyStrFacts.contains "T" post = false →
     get_output (pre +:+ "TOPIC" +:+ post) dumps s = OK (pre +:+ dumps v +:+ post, s'))
  ∧ (∀ template,
       PyStrFacts.contains "T" template = false →
       get_output template dumps s = OK (template, s')).
Proof.
  intros Hv. unfold get_output, bind. rewrite Hv. unfold ret. split.
  - intros pre post Hpre Hpost. do 2 f_equal.
    by apply (PyStrFacts.replace_once "T" "OPIC").
  - intros template Ht. do 2 f_equal.
    by apply (PyStrFacts.replace_absent "T" "OPIC").
Qed.

(** *** The only error of the handlers *)

(** The lists the handlers append to are lists. *)
Definition lists_ok (d : list (string * jval)) : Prop :=
  ∀ key v, key = "properties" ∨ key = "subTopics" →
           od_get key d = Some v → ∃ xs, v = JList xs.

(** What the handlers keep: a cached fragment is in the store, and the
    fragments are as the handlers build them. *)
Record shaped (s : state) : Prop := {
  shaped_maps : ∀ k l, _maps s !! k = Some l → l < length (store s);
  shaped_store : ∀ l d, store s !! l = Some d → lists_ok d
}.

Lemma shaped_init r : shaped (init r).
Proof. split; cbn [init _maps store]; [intros k l; by rewrite lookup_empty | done]. Qed.

Lemma set_map_shaped k obj s :
  shaped s → lists_ok obj →
  ∃ s', set_map k obj s = OK (tt, s') ∧ shaped s' ∧ root s' = root s
        ∧ ∀ k', k' ≠ k → _maps s' !! k' = _maps s !! k'.
Proof.
  intros [Hm Hs] Hobj. eexists. split; [reflexivity |]. cbn [root _maps store].
  split_and!; [split; cbn [_maps store] | done |].
  - intros k0 l. rewrite length_app. cbn [length].
    destruct (decide (k = k0)) as [-> | Hne].
    + rewrite lookup_insert_eq. intros [= <-]. lia.
    + rewrite lookup_insert_ne by done. intros Hl%Hm. lia.
  - intros l d. destruct (decide (l < length (store s))) as [Hlt | Hge].
    + rewrite lookup_app_l by done. apply Hs.
    + rewrite lookup_app_r by lia. destruct (l - length (store s)); [| done].
      by intros [= <-].
  - intros k' Hk'. by rewrite lookup_insert_ne.
Qed.

Lemma append_shaped k key v s :
  shaped s → key = "properties" ∨ key = "subTopics" →
  match (let* l := get_map k in append_to l key v) s with
  | OK (_, s') => shaped s' ∧ root s' = root s ∧ _maps s' = _maps s
  | Err err => err = KeyError
  end.
Proof.
  intros [Hm Hs] Hkey. unfold bind, get_map.
  destruct (_maps s !! k) as [l |] eqn:Hk; [| done].
  unfold append_to.
  destruct (lookup_lt_is_Some_2 (store s) l (Hm _ _ Hk)) as [d Hd]. rewrite Hd.
  destruct (od_get key d) as [v0 |] eqn:Hv; [| done].
  destruct (Hs _ _ Hd key v0 Hkey Hv) as [xs ->].
  split_and!; [split; cbn [_maps store] | done | done].
  - intros k0 l0 Hl0%Hm. by rewrite length_insert.
  - intros l0 d0. destruct (decide (l0 = l)) as [-> | Hne].
    + rewrite list_lookup_insert_eq by by eapply lookup_lt_Some.
      intros [= <-] key' v' Hkey'. destruct (decide (key = key')) as [<- | Hne'].
      * rewrite od_get_set_eq. intros [= <-]. by eexists.
      * rewrite od_get_set_ne by done. by apply (Hs _ _ Hd).
    + rewrite list_lookup_insert_ne by done. apply Hs.
Qed.

Lemma attach_shaped k (objs : list nat) s :
  shaped s →
  match for_each objs (λ obj, let* l := get_map k in
                              append_to l "subTopics" (JRef obj)) s with
  | OK (_, s') => shaped s' ∧ root s' = root s ∧ _maps s' = _maps s
  | Err err => err = KeyError
  end.
Proof.
  revert s. induction objs as [| obj objs IH]; intros s Hs; [done |].
  rewrite for_each_cons.
  pose proof (append_shaped k "subTopics" (JRef obj) s Hs (or_intror eq_refl)) as H.
  destruct (bind (get_map k) _ s) as [[[] s1] |]; [| done].
  destruct H as (Hs1 & Hr1 & Hm1). specialize (IH s1 Hs1).
  destruct (for_each objs _ s1) as [[[] s2] |]; [| done].
  destruct IH as (Hs2 & Hr2 & Hm2). split_and!; [done | congruence | congruence].
Qed.

Lemma map_m_get_map_result (ts : list Topic) (s : state) :
  match map_m (λ i, get_map (t_ident i)) ts s with
  | OK (_, s') => s' = s
  | Err err => err = KeyError
  end.
Proof.
  induction ts as [| t ts IH]; [done |].
  cbn [map_m]. unfold bind at 1, get_map at 1.
  destruct (_maps s !! t_ident t) as [l |]; [| done].
  unfold bind at 1. by destruct (map_m _ ts s) as [[ls s1] |].
Qed.

Lemma handle_shaped e s :
  shaped s →
  match handle get_label e s with
  | OK (_, s') => shaped s' ∧ root s' = root s
                  ∧ ∀ k, k ∉ cached e → _maps s' !! k = _maps s !! k
  | Err err => err = KeyError
  end.
Proof.
  intros Hs. destruct e as [r | r | t | sp | ps | p | c]; cbn [handle cached];
    try (split_and!; done).
  - destruct (set_map_shaped (r_ident r) (root_obj get_label r) s Hs)
      as (s' & H & Hs' & Hr & Hm).
    { intros key v [-> | ->]; [done |]. intros [= <-]. by eexists. }
    unfold on_root_parse. rewrite H. split_and!; [done | done |].
    intros k Hk. apply Hm. intros ->. apply Hk, list_elem_of_here.
  - rewrite on_root_parsed_eq.
    pose proof (map_m_get_map_result (r_sub_topics (root s)) s) as Hmap.
    destruct (map_m _ _ s) as [[objs s1] |]; [| done]. subst s1.
    pose proof (attach_shaped (r_ident r) objs s Hs) as H.
    destruct (for_each objs _ s) as [[[] s'] |]; [| done].
    destruct H as (Hs' & Hr & Hm). split_and!; [done | done |].
    intros k _. by rewrite Hm.
  - destruct (set_map_shaped (t_ident t) (topic_obj get_label t) s Hs)
      as (s' & H & Hs' & Hr & Hm).
    { intros key v [-> | ->]; [| done]. intros [= <-]. by eexists. }
    unfold on_topic_parse.
    destruct (t_kind t); cbv beta iota; [split_and!; done | ..];
      (rewrite H; split_and!; [done | done |];
       intros k Hk; apply Hm; intros ->; apply Hk, list_elem_of_here).
  - unfold on_property_parse.
    pose proof (append_shaped (p_root_topic p) "properties"
                  (JDict (property_obj get_label p)) s Hs (or_introl eq_refl)) as H.
    destruct (bind (get_map _) _ s) as [[[] s'] |]; [| done].
    destruct H as (Hs' & Hr & Hm). split_and!; [done | done |].
    intros k _. by rewrite Hm.
Qed.

Lemma run_shaped evs s :
  shaped s →
  match run get_label evs s with
  | OK (_, s') => shaped s' ∧ root s' = root s
                  ∧ ∀ k, k ∉ evs ≫= cached → _maps s' !! k = _maps s !! k
  | Err err => err = KeyError
  end.
Proof.
  unfold run. revert s. induction evs as [| e evs IH]; intros s Hs; [done |].
  rewrite for_each_cons. pose proof (handle_shaped e s Hs) as He.
  destruct (handle get_label e s) as [[[] s1] |]; [| done].
  destruct He as (Hs1 & Hr1 & Hm1). specialize (IH s1 Hs1).
  destruct (for_each evs _ s1) as [[[] s2] |]; [| done].
  destruct IH as (Hs2 & Hr2 & Hm2). split_and!; [done | congruence |].
  intros k Hk. rewrite bind_cons in Hk. apply not_elem_of_app in Hk as [Hk1 Hk2].
  by rewrite Hm2, Hm1.
Qed.

(** X17.  Whatever the events and their order, the only error a run of a
    new generator ends in is [KeyError]: a property whose root topic has
    no fragment with [properties], or an exit of the root before the
    fragments it joins are there. *)
Theorem handlers_raise_key_error (r : Root) (evs : list event) (err : error) :
  run get_label evs (init r) = Err err → err = KeyError.
Proof.
  intros Hrun. pose proof (run_shaped evs (init r) (shaped_init r)) as H.
  by rewrite Hrun in H.
Qed.

(** X18.  When no event caches a fragment for the root the generator was
    made for, there is no output: the run fails, or [get_output] does,
    with [KeyError]. *)
Theorem no_output_without_fragment (template : string) (dumps : jval → string)
  (r : Root) (evs : list event) :
  r_ident r ∉ evs ≫= cached →
  generate_from get_label template dumps (init r) evs = Err KeyError.
Proof.
  intros Hr. unfold generate_from, bind.
  pose proof (run_shaped evs (init r) (shaped_init r)) as H.
  destruct (run get_label evs (init r)) as [[[] s'] | err]; [| by subst err].
  destruct H as (_ & Hroot & Hm).
  unfold get_output, bind, output_value, bind, gets, get_map.
  rewrite Hroot. cbn [init root]. rewrite (Hm _ Hr). cbn [init _maps].
  by rewrite lookup_empty.
Qed.

(** *** When a run succeeds *)

(** The fragment of a root ([true]) has the list [subTopics] and no
    [properties]; the fragment of a topic has the list [properties] and
    no [subTopics]. *)
Definition shape (b : bool) (d : list (string * jval)) : Prop :=
  if b
  then (∃ xs, od_get "subTopics" d = Some (JList xs)) ∧ od_get "properties" d = None
  else (∃ xs, od_get "properties" d = Some (JList xs)) ∧ od_get "subTopics" d = None.

(** What the handler of an event needs, [kinds] telling for which model
    nodes a fragment is cached and whether the last one cached is that of
    a root, and [subs] being the sub-topics of the root the generator was
    made for. *)
Definition in_order (subs : list ident) (kinds : gmap ident bool) (e : event) : bool :=
  match e with
  | PropertyEnter p => bool_decide (kinds !! p_root_topic p = Some false)
  | RootExit r =>
      forallb (λ k, bool_decide (is_Some (kinds !! k))) subs
      && match subs with
         | [] => true
         | _ => bool_decide (kinds !! r_ident r = Some true)
         end
  | _ => true
  end.

Definition caches (kinds : gmap ident bool) (e : event) : gmap ident bool :=
  match e with
  | RootEnter r => <[r_ident r := true]> kinds
  | TopicEnter t =>
      match t_kind t with
      | Realm => kinds
      | _ => <[t_ident t := false]> kinds
      end
  | _ => kinds
  end.

Fixpoint run_in_order (subs : list ident) (kinds : gmap ident bool) (evs : list event)
  : bool :=
  match evs with
  | [] => true
  | e :: evs' => in_order subs kinds e && run_in_order subs (caches kinds e) evs'
  end.

Definition tracked (s : state) (kinds : gmap ident bool) : Prop :=
  ∀ k, match kinds !! k with
       | Some b => ∃ l d, _maps s !! k = Some l ∧ store s !! l = Some d ∧ shape b d
       | None => _maps s !! k = None
       end.

Lemma shape_set b key xs ys d :
  od_get key d = Some (JList xs) → shape b d → shape b (od_set key (JList ys) d).
Proof.
  intros Hkey Hsh.
  assert (Hget : ∀ k, od_get k (od_set key (JList ys) d)
                      = if decide (key = k) then Some (JList ys) else od_get k d).
  { intros k. destruct (decide (key = k)) as [<- | Hne];
      [apply od_get_set_eq | by apply od_get_set_ne]. }
  unfold shape in *. rewrite !Hget.
  destruct b; destruct Hsh as [[zs Hzs] Hnone];
    destruct (decide (key = "subTopics")); destruct (decide (key = "properties"));
    try congruence; (split; [by eexists | done]).
Qed.

Lemma tracked_set_map s kinds k b obj :
  tracked s kinds → shape b obj →
  tracked {| root := root s; _maps := <[k := length (store s)]> (_maps s);
             store := store s ++ [obj] |} (<[k := b]> kinds).
Proof.
  intros Ht Hobj k0. cbn [_maps store]. destruct (decide (k = k0)) as [-> | Hne].
  - rewrite !lookup_insert_eq. exists (length (store s)), obj.
    split; [done |]. split; [| done]. by rewrite lookup_app_r, Nat.sub_diag.
  - rewrite !lookup_insert_ne by done. specialize (Ht k0).
    destruct (kinds !! k0) as [b0 |]; [| done].
    destruct Ht as (l & d & Hl & Hd & Hsh). exists l, d. split; [done |].
    split; [| done]. rewrite lookup_app_l; [done |]. by eapply lookup_lt_Some.
Qed.

Lemma tracked_insert s kinds l key xs ys d :
  tracked s kinds → store s !! l = Some d → od_get key d = Some (JList xs) →
  tracked {| root := root s; _maps := _maps s;
             store := <[l := od_set key (JList ys) d]> (store s) |} kinds.
Proof.
  intros Ht Hd Hkey k0. cbn [_maps store]. specialize (Ht k0).
  destruct (kinds !! k0) as [b0 |]; [| done].
  destruct Ht as (l0 & d0 & Hl0 & Hd0 & Hsh). destruct (decide (l0 = l)) as [-> | Hne].
  - exists l, (od_set key (JList ys) d). split; [done |].
    split; [by apply list_lookup_insert_eq; eapply lookup_lt_Some |].
    assert (d0 = d) as -> by congruence. by eapply shape_set.
  - exists l0, d0. split; [done |]. split; [| done].
    by rewrite list_lookup_insert_ne.
Qed.

Lemma subs_cached s kinds (ts : list Topic) :
  tracked s kinds →
  if forallb (λ k, bool_decide (is_Some (kinds !! k))) (t_ident <$> ts)
  then Forall (λ t, is_Some (_maps s !! t_ident t)) ts
  else Exists (λ t, _maps s !! t_ident t = None) ts.
Proof.
  intros Ht. induction ts as [| t ts IH]; [constructor |].
  rewrite fmap_cons. cbn [forallb]. pose proof (Ht (t_ident t)) as Hk.
  destruct (kinds !! t_ident t) as [b |].
  - rewrite bool_decide_eq_true_2 by by eexists. cbn [andb].
    destruct Hk as (l & d & Hl & _).
    destruct (forallb _ _); [constructor; [by eexists | done] | by apply Exists_cons_tl].
  - rewrite bool_decide_eq_false_2 by by intros []. cbn [andb]. by apply Exists_cons_hd.
Qed.

Lemma handle_in_order e s kinds :
  tracked s kinds →
  if in_order (t_ident <$> r_sub_topics (root s)) kinds e
  then ∃ s', handle get_label e s = OK (tt, s')
             ∧ tracked s' (caches kinds e) ∧ root s' = root s
  else handle get_label e s = Err KeyError.
Proof.
  intros Ht. destruct e as [r | r | t | sp | ps | p | c]; cbn [handle in_order caches];
    try by exists s.
  - eexists. split; [reflexivity |]. split; [| done].
    apply tracked_set_map; [done |]. split; [by eexists | done].
  - rewrite on_root_parsed_eq.
    pose proof (subs_cached s kinds (r_sub_topics (root s)) Ht) as Hsubs.
    destruct (forallb _ _); cycle 1.
    { cbn [andb]. by rewrite map_m_get_map_missing. }
    cbn [andb].
    destruct (map_m_get_map_all (r_sub_topics (root s)) s Hsubs) as [ls Hls].
    rewrite (map_m_get_map _ _ _ Hls).
    destruct Hls as [| t l0 ts ls' Ht0 Hls]; [by exists s |].
    rewrite fmap_cons. cbn match. specialize (Ht (r_ident r)) as Hr.
    destruct (decide (kinds !! r_ident r = Some true)) as [Hk | Hk].
    + rewrite bool_decide_eq_true_2 by done. rewrite Hk in Hr.
      destruct Hr as (l & d & Hl & Hd & [[xs Hxs] _]).
      rewrite (append_loop (r_ident r) "subTopics" JRef l (l0 :: ls') s d xs) by done.
      eexists. split; [done |]. split; [| done]. by eapply tracked_insert.
    + rewrite bool_decide_eq_false_2 by done. cbn [for_each].
      unfold bind, get_map. destruct (kinds !! r_ident r) as [[|] |]; [done | |].
      * destruct Hr as (l & d & -> & Hd & [_ Hnone]). unfold append_to. by rewrite Hd, Hnone.
      * by rewrite Hr.
  - destruct (t_kind t); [by exists s | ..];
      (eexists; split; [reflexivity |]; split; [| done];
       apply tracked_set_map; [done |]; split; [by eexists | done]).
  - unfold on_property_parse, bind, get_map. pose proof (Ht (p_root_topic p)) as Hp.
    destruct (decide (kinds !! p_root_topic p = Some false)) as [Hk | Hk].
    + rewrite bool_decide_eq_true_2 by done. rewrite Hk in Hp.
      destruct Hp as (l & d & -> & Hd & [[xs Hxs] _]).
      rewrite (append_to_ok _ _ _ _ _ _ Hd Hxs).
      eexists. split; [done |]. split; [| done]. by eapply tracked_insert.
    + rewrite bool_decide_eq_false_2 by done.
      destruct (kinds !! p_root_topic p) as [[|] |]; [| done |].
      * destruct Hp as (l & d & -> & Hd & [_ Hnone]). unfold append_to. by rewrite Hd, Hnone.
      * by rewrite Hp.
Qed.

Lemma run_in_order_step evs s kinds :
  tracked s kinds →
  if run_in_order (t_ident <$> r_sub_topics (root s)) kinds evs
  then ∃ s', run get_label evs s = OK (tt, s')
  else run get_label evs s = Err KeyError.
Proof.
  unfold run. revert s kinds. induction evs as [| e evs IH]; intros s kinds Ht.
  - by exists s.
  - cbn [run_in_order]. rewrite for_each_cons.
    pose proof (handle_in_order e s kinds Ht) as He.
    destruct (in_order _ kinds e); [| by rewrite He].
    destruct He as (s1 & -> & Ht1 & Hr1). cbn [andb].
    specialize (IH s1 _ Ht1). by rewrite Hr1 in IH.
Qed.

(** X19.  The run of a new generator succeeds exactly when the events come
    in an order the handlers can take: a property after the grid, key
    properties or process that is its root topic (and not after a root
    cached for the same node); the exit of the root after every sub-topic
    of the root the generator was made for, each entered as a grid, key
    properties or process, and, when there is a sub-topic, after the root
    it is handed.  A realm below the root has no handler and caches
    nothing, so a property or an exit that waits for it fails.  Roots,
    topics, subprocesses, property sets and enum choices need nothing.  A
    run that breaks the order ends in [KeyError]. *)
Theorem events_in_order (r : Root) (evs : list event) :
  ((∃ s', run get_label evs (init r) = OK (tt, s'))
   ↔ run_in_order (t_ident <$> r_sub_topics r) ∅ evs = true)
  ∧ (run_in_order (t_ident <$> r_sub_topics r) ∅ evs = false →
     run get_label evs (init r) = Err KeyError).
Proof.
  assert (Ht : tracked (init r) ∅).
  { intros k. by rewrite lookup_empty. }
  pose proof (run_in_order_step evs (init r) ∅ Ht) as H. cbn [init root] in H.
  destruct (run_in_order _ ∅ evs).
  - split; [| done]. split; [done | by intros _].
  - split; [| done]. split; [| done]. intros [s' Hs']. by rewrite H in Hs'.
Qed.

End WithLabel.

(** *** At the sample realm *)

(** The state a run ends in. *)
Definition final (r : result (unit * state)) : state :=
  match r with
  | OK (_, s) => s
  | Err _ => init Sample.bare
  end.

Definition entered : state :=
  final (run Sample.get_label [RootEnter Sample.atmos; TopicEnter Sample.dynamics]
           (init Sample.atmos)).

Definition appended : state :=
  final (on_property_parse Sample.get_label Sample.scheme_type entered).

Definition walked : state :=
  final (run Sample.get_label (Walk.of_root Sample.atmos) (init Sample.atmos)).

Definition walked_value : jval := rendering (output_value walked).

(** The error a property without its topic ends in. *)
Definition stray_error : error :=
  match run Sample.get_label [PropertyEnter Sample.scheme_type] (init Sample.atmos) with
  | OK _ => TypeError
  | Err err => err
  end.

Lemma sample_property_appended :
  on_property_parse Sample.get_label Sample.scheme_type entered = OK (tt, appended).
Proof. vm_compute. reflexivity. Qed.

Lemma sample_output_value : output_value walked = OK (walked_value, walked).
Proof. vm_compute. reflexivity. Qed.

Lemma sample_stray_property :
  run Sample.get_label [PropertyEnter Sample.scheme_type] (init Sample.atmos)
  = Err stray_error.
Proof. vm_compute. reflexivity. Qed.

Lemma sample_in_order :
  run_in_order (t_ident <$> r_sub_topics Sample.atmos) ∅ (Walk.of_root Sample.atmos)
  = true.
Proof. vm_compute. reflexivity. Qed.

Lemma property_appended_sample :
  on_property_parse Sample.get_label Sample.scheme_type entered = OK (tt, appended)
  ∧ ∃ l d',
      _maps entered !! t_ident Sample.dynamics = Some l
      ∧ store appended !! l = Some d'
      ∧ od_get "properties" d'
        = Some (JList [JDict (property_obj Sample.get_label Sample.scheme_type)]).
Proof.
  split; [exact sample_property_appended |].
  destruct (property_appended Sample.get_label Sample.scheme_type entered appended
              sample_property_appended)
    as (l & d & d' & xs & H1 & H2 & H3 & H4 & H5 & _).
  exists l, d'. split; [exact H1 |]. split; [exact H4 |].
  assert (xs = []) as ->; [| exact H5].
  revert H1 H2 H3. vm_compute. intros [= <-] [= <-] [= <-]. reflexivity.
Defined.

Lemma property_label_sample :
  od_get "label" (property_obj Sample.get_label Sample.scheme_type)
  = Some (JStr "scheme > type").
Proof.
  destruct (property_label Sample.get_label Sample.scheme_type) as [_ H].
  destruct (H "cordexp" "atmos" "dynamics" "scheme.type" eq_refl eq_refl eq_refl eq_refl)
    as [H1 _].
  exact H1.
Defined.

Lemma template_substitution_sample :
  output_value walked = OK (walked_value, walked)
  ∧ get_output Sample.template Sample.dumps walked
    = OK ("var spec = " +:+ Sample.dumps walked_value +:+ ";", walked).
Proof.
  split; [exact sample_output_value |].
  destruct (template_substitution Sample.dumps walked walked walked_value
              sample_output_value) as [H _].
  exact (H "var spec = " ";" eq_refl eq_refl).
Defined.

Lemma handlers_raise_key_error_sample :
  run Sample.get_label [PropertyEnter Sample.scheme_type] (init Sample.atmos)
  = Err stray_error
  ∧ stray_error = KeyError.
Proof.
  split; [exact sample_stray_property |].
  exact (handlers_raise_key_error Sample.get_label Sample.atmos
           [PropertyEnter Sample.scheme_type] stray_error sample_stray_property).
Defined.

Lemma sample_root_not_cached :
  r_ident Sample.atmos
  ∉ [TopicEnter Sample.dynamics; PropertyEnter Sample.scheme_type] ≫= cached.
Proof. apply (bool_decide_unpack _). vm_compute. exact I. Qed.

Lemma no_output_without_fragment_sample :
  generate_from Sample.get_label Sample.template Sample.dumps (init Sample.atmos)
    [TopicEnter Sample.dynamics; PropertyEnter Sample.scheme_type]
  = Err KeyError.
Proof.
  exact (no_output_without_fragment Sample.get_label Sample.template Sample.dumps
           Sample.atmos [TopicEnter Sample.dynamics; PropertyEnter Sample.scheme_type]
           sample_root_not_cached).
Defined.

Lemma sample_realm_out_of_order :
  run_in_order (t_ident <$> r_sub_topics Sample.atmos_nested) ∅
    (Walk.of_root Sample.atmos_nested) = false.
Proof. vm_compute. reflexivity. Qed.

Lemma events_in_order_sample :
  (run_in_order (t_ident <$> r_sub_topics Sample.atmos) ∅ (Walk.of_root Sample.atmos)
   = true
   ∧ ∃ s', run Sample.get_label (Walk.of_root Sample.atmos) (init Sample.atmos)
           = OK (tt, s'))
  ∧ t_kind <$> r_sub_topics Sample.atmos_nested = [Realm]
  ∧ run Sample.get_label (Walk.of_root Sample.atmos_nested) (init Sample.atmos_nested)
    = Err KeyError.
Proof.
  split; [split; [exact sample_in_order |] | split; [reflexivity |]].
  - destruct (events_in_order Sample.get_label Sample.atmos (Walk.of_root Sample.atmos))
      as [[_ H] _].
    exact (H sample_in_order).
  - destruct (events_in_order Sample.get_label Sample.atmos_nested
                (Walk.of_root Sample.atmos_nested)) as [_ H].
    exact (H sample_realm_out_of_order).
Defined.

Lemma sample_authors_entries : split_entries " Ada L ,Bob M" ["Ada L"; "Bob M"].
Proof.
  exists [" Ada L "; "Bob M"]. split_and!; [done | done | by repeat constructor |].
  constructor; [| constructor; [| constructor]].
  - exists " ", " ". split_and!; [done | done | done |].
    apply (strip_stripped " Ada L ").
  - exists "", "". split_and!; [done | done | done |].
    apply (strip_stripped "Bob M").
Qed.

Lemma authors_split_sample :
  PyStrFacts.is_ascii (r_authors Sample.atmos_spaced) = true
  ∧ PyStrFacts.is_ascii (r_contributors Sample.atmos_spaced) = true
  ∧ r_authors Sample.atmos_spaced = " Ada L ,Bob M"
  ∧ od_get "authors" (root_obj Sample.get_label Sample.atmos_spaced)
    = Some (JList [JStr "Ada L"; JStr "Bob M"])
  ∧ od_get "contributors" (root_obj Sample.get_label Sample.atmos_spaced)
    = Some (JList [JStr ""]).
Proof.
  split; [reflexivity |]. split; [reflexivity |]. split; [reflexivity |].
  destruct (authors_split Sample.get_label Sample.atmos_spaced eq_refl eq_refl)
    as (names & others & H1 & H2 & _ & _ & Hnames & _ & _ & _ & _ & Hothers & _).
  rewrite <- (Hnames _ sample_authors_entries) in H1.
  rewrite (Hothers eq_refl) in H2.
  split; [exact H1 | exact H2].
Defined.

End JSBehaviour.

(** ** Behaviour of the graph form: nodes, errors and invariants *)

Module MMBehaviour.
Import MM MMFacts.

(** The value of the note [Description]. *)
Definition description_note (n : node) : string :=
  match node_description n with
  | None => "N/A"
  | Some d => PyStr.replace "&" "and" d
  end.

(** The notes of a model node as texts: label and value. *)
Definition node_notes (n : node) : list (string * string) :=
  [("Description", description_note n); ("Spec. ID", node_id n)]
  ++ match n with
     | NProperty p =>
         [("Type", p_typeof p); ("Cardinality", p_cardinality p);
          ("Specialization ID", p_id p)]
     | NRoot r =>
         [("Contact", r_contact r); ("Authors", r_authors r);
          ("Contributors", r_contributors r)]
     | _ => []
     end.

(** The model node a handler emits a graph node for, and the model node
    it puts the graph node under. *)
Definition parent_of (rt : ident) (e : event) : option ident :=
  match e with
  | RootEnter _ | RootExit _ => None
  | TopicEnter _ => Some rt
  | SubprocessEnter sp => Some (sp_parent sp)
  | PropertySetEnter ps => Some (ps_owner ps)
  | PropertyEnter p => Some (p_owner p)
  | EnumChoiceEnter c => Some (ec_enum_detail c)
  end.

(** The tags of the children a handler leaves under the graph node. *)
Definition handler_decorations (e : event) : list (option string) :=
  match e with
  | RootEnter _ => [Some "font"; Some "richcontent"; Some "node"; Some "node"]
  | TopicEnter t =>
      match t_kind t with
      | Process => [Some "font"; Some "richcontent"; Some "richcontent"]
      | _ => [Some "font"; Some "richcontent"]
      end
  | PropertyEnter _ => [Some "font"; Some "richcontent"; Some "richcontent"]
  | _ => [Some "font"; Some "richcontent"]
  end.

(** The text of the notes of a model node, as the parser is handed it. *)
Definition node_html (n : node) : string := html_notes (node_notes n).

(** The texts the handler of an event hands to the parser, in order. *)
Definition parsed (e : event) : list string :=
  match e with
  | RootEnter r =>
      node_html (NRoot r)
      :: ((λ '(version, date, person, comment),
             html_notes [("Version", version); ("Date", date);
                         ("Person", person); ("Comment", comment)])
          <$> r_change_history r)
      ++ ((λ c, html_notes [("Description", description c)])
          <$> omap get_section _SECTIONS.*1)
  | RootExit _ => []
  | TopicEnter t =>
      match t_kind t with
      | Realm => []
      | Process => [node_html (NTopic t); node_html (NTopic t)]
      | _ => [node_html (NTopic t)]
      end
  | SubprocessEnter sp => [node_html (NSubprocess sp)]
  | PropertySetEnter ps =>
      if ps_are_cim_properties ps then [] else [node_html (NPropertySet ps)]
  | PropertyEnter p =>
      if p_was_injected p then []
      else [node_html (NProperty p); node_html (NProperty p)]
  | EnumChoiceEnter c => [node_html (NEnumChoice c)]
  end.

Section WithParser.
Variable fromstring : string → option xml.

(** *** Notes *)

Lemma node_notes_text_eq n : node_notes_text n = OK (notes_text (node_notes n)).
Proof. by destruct n. Qed.

(** X1.  The notes block that [_emit_node] puts under a graph node is the
    parse of a definition list in an HTML frame, with a term in bold and
    a definition for each note of the kind: Description and Spec. ID; for
    a property Type, Cardinality and Specialization ID as well; for the
    root Contact, Authors and Contributors as well.  The description
    reads N/A when the node has none; a description without ampersand is
    written as it is, one with a single ampersand has the word and in its
    place, and no description is written with an ampersand.  The other
    values are written as they are. *)
Theorem node_notes_content parent owner text style s s' :
  _emit_node fromstring parent owner text style s = OK (tt, s') →
  ∃ l e l_notes tree descr,
    nodes s' !! node_ident owner = Some l
    ∧ store s' !! l = Some e
    ∧ ChildRef l_notes ∈ children e
    ∧ store s' !! l_notes
      = Some {| tag := "richcontent"; attrib := {[ "TYPE" := "NOTE" ]};
                children := [ChildTree tree] |}
    ∧ fromstring
        (html_notes
           ([("Description", descr); ("Spec. ID", node_id owner)]
            ++ match owner with
               | NProperty p =>
                   [("Type", p_typeof p); ("Cardinality", p_cardinality p);
                    ("Specialization ID", p_id p)]
               | NRoot r =>
                   [("Contact", r_contact r); ("Authors", r_authors r);
                    ("Contributors", r_contributors r)]
               | _ => []
               end))
      = Some tree
    ∧ (node_description owner = None → descr = "N/A")
    ∧ (∀ d, node_description owner = Some d →
            PyStrFacts.contains "&" d = false → descr = d)
    ∧ (∀ pre post, node_description owner = Some (pre +:+ "&" +:+ post) →
                   PyStrFacts.contains "&" pre = false →
                   PyStrFacts.contains "&" post = false →
                   descr = pre +:+ "and" +:+ post)
    ∧ PyStrFacts.contains "&" descr = false.
Proof.
  intros Hemit.
  pose proof (emit_node_inv fromstring _ _ _ _ _ _ Hemit)
    as (c & txt & tree & _ & _ & Hn & _ & H0 & _ & H2).
  assert (Htree : fromstring (notes_text (node_notes owner)) = Some tree).
  { revert Hemit H2. rewrite emit_node_eq, node_notes_text_eq.
    destruct (get_section _) as [c' |]; [| done].
    destruct (node_text _ _) as [txt' |]; [| done].
    destruct (parent_loc _ _) as [p |]; [| done].
    destruct (store s !! p) as [e |]; [| done].
    destruct (fromstring _) as [tree' |]; [| done].
    intros [= <-]. cbn [store].
    rewrite lookup_app_r, length_insert by (rewrite length_insert; lia).
    replace (S (S (length (store s))) - length (store s)) with 2 by lia.
    by intros [= ->]. }
  rewrite notes_text_html in Htree.
  eexists _, _, (S (S (length (store s)))), tree, (description_note owner). split_and!.
  - by rewrite Hn, lookup_insert_eq.
  - exact H0.
  - cbn [children element]. apply list_elem_of_further, list_elem_of_here.
  - exact H2.
  - exact Htree.
  - unfold description_note. by intros ->.
  - unfold description_note. intros d -> Hd.
    by apply (PyStrFacts.replace_absent "&" "" "and").
  - unfold description_note. intros pre post -> Hpre Hpost.
    by apply (PyStrFacts.replace_once "&" "" "and").
  - unfold description_note. destruct (node_description owner) as [d |]; [| done].
    by apply (PyStrFacts.replace_char_gone "&" "and" d).
Qed.

(** *** Attributes *)

(** X2.  The graph node that [_emit_node] caches for a model node is a
    [node] element whose FOLDED, COLOR and BACKGROUND_COLOR come from the
    section of [_CONFIG] under the type key of the model node (FOLDED in
    lower case), whose STYLE is the style handed in, and whose TEXT is the
    text handed in when there is a non-empty one and the name of the model
    node otherwise.  Its font child has BOLD (with a capital, as [str]
    writes a bool), NAME and SIZE from the same section. *)
Theorem node_attributes parent owner text style s s' :
  _emit_node fromstring parent owner text style s = OK (tt, s') →
  ∃ c txt l e l_font e_font,
    get_section (type_key owner) = Some c
    ∧ match text with
      | Some (String a t) => txt = String a t
      | _ => node_name owner = OK txt
      end
    ∧ nodes s' !! node_ident owner = Some l
    ∧ store s' !! l = Some e
    ∧ tag e = "node"
    ∧ attrib e !! "FOLDED" = Some (if is_collapsed c then "true" else "false")
    ∧ attrib e !! "COLOR" = Some (font_color c)
    ∧ attrib e !! "BACKGROUND_COLOR" = Some (bg_color c)
    ∧ attrib e !! "STYLE" = Some style
    ∧ attrib e !! "TEXT" = Some txt
    ∧ children e !! 0 = Some (ChildRef l_font)
    ∧ store s' !! l_font = Some e_font
    ∧ tag e_font = "font"
    ∧ attrib e_font !! "BOLD" = Some (if font_bold c then "True" else "False")
    ∧ attrib e_font !! "NAME" = Some (font_name c)
    ∧ attrib e_font !! "SIZE" = Some (PyStr.of_int (font_size c))
    ∧ children e_font = [].
Proof.
  intros (c & txt & tree & Hc & Htxt & Hn & _ & H0 & H1 & _)%emit_node_inv.
  eexists c, txt, _, _, _, _. split_and!.
  - exact Hc.
  - unfold node_text in Htxt. destruct text as [[| a t] |]; [done | | done].
    by injection Htxt.
  - by rewrite Hn, lookup_insert_eq.
  - exact H0.
  - done.
  - cbn [attrib element]. unfold node_atts.
    destruct (node_url owner); [rewrite lookup_insert_ne by done |];
      by destruct (is_collapsed c).
  - cbn [attrib element]. unfold node_atts.
    by destruct (node_url owner); [rewrite lookup_insert_ne by done |].
  - cbn [attrib element]. unfold node_atts.
    by destruct (node_url owner); [rewrite lookup_insert_ne by done |].
  - cbn [attrib element]. unfold node_atts.
    by destruct (node_url owner); [rewrite lookup_insert_ne by done |].
  - cbn [attrib element]. unfold node_atts.
    by destruct (node_url owner); [rewrite lookup_insert_ne by done |].
  - done.
  - exact H1.
  - done.
  - cbn [attrib element]. unfold font_atts. by destruct (font_bold c).
  - done.
  - done.
  - done.
Qed.

(** *** Where a graph node is put *)

Lemma emit_node_attached k owner text style s s' :
  _emit_node fromstring (PNode k) owner text style s = OK (tt, s') →
  ∃ p e0,
    nodes s !! k = Some p
    ∧ store s !! p = Some e0
    ∧ nodes s' = <[node_ident owner := length (store s)]> (nodes s)
    ∧ store s' !! p = Some (add_child (ChildRef (length (store s))) e0)
    ∧ length (store s') = length (store s) + 3.
Proof.
  rewrite emit_node_eq.
  destruct (get_section _) as [c |]; [| done].
  destruct (node_text _ _) as [txt |]; [| done].
  cbn [parent_loc]. destruct (nodes s !! k) as [p |] eqn:Hk; [| done]. cbn [subscript].
  destruct (store s !! p) as [e0 |] eqn:Hp; [| done].
  destruct (node_notes_text _) as [html |]; [| done].
  destruct (fromstring html) as [tree |]; [| done].
  intros [= <-]. exists p, e0. cbn [nodes store].
  pose proof (lookup_lt_Some _ _ _ Hp) as Hlt.
  split_and!; try done.
  - rewrite lookup_app_l by by rewrite length_insert.
    by apply list_lookup_insert_eq.
  - rewrite length_app, length_insert. simpl. lia.
Qed.

(** A further notes block for a node leaves every other element alone. *)
Lemma emit_notes_elsewhere n s s' l p :
  _emit_notes fromstring (OwnerNode n) [] s = OK (tt, s') →
  nodes s !! node_ident n = Some l → p ≠ l → p < length (store s) →
  store s' !! p = store s !! p ∧ nodes s' = nodes s.
Proof.
  rewrite emit_notes_node_eq. intros H Hl Hne Hlt. rewrite Hl in H.
  destruct (node_notes_text _) as [html |]; [| done].
  destruct (store s !! l) as [e |]; [| done].
  destruct (fromstring html) as [tree |]; [| done].
  injection H as <-. cbn [nodes store with_store]. split; [| done].
  rewrite lookup_app_l by by rewrite length_insert.
  by apply list_lookup_insert_ne.
Qed.

(** X3.  A handler that emits a graph node appends it to the children of
    the graph node of the parent, after the children that are there, and
    caches it for the model node: a topic goes under the root the
    generator was made for, a subprocess under its parent, a property and
    a property set under their owner, an enum choice under the property of
    its enumeration.  The parent keeps its tag and its attributes. *)
Theorem node_placement e s s' k pk :
  handle fromstring e s = OK (tt, s') →
  k ∈ rendered e →
  parent_of (r_ident (root s)) e = Some pk →
  ∃ p e0 e1 l,
    nodes s !! pk = Some p
    ∧ store s !! p = Some e0
    ∧ nodes s' !! k = Some l
    ∧ store s !! l = None
    ∧ store s' !! p = Some e1
    ∧ tag e1 = tag e0
    ∧ attrib e1 = attrib e0
    ∧ children e1 = children e0 ++ [ChildRef l].
Proof.
  assert (Hone : ∀ k0 owner text style s0 s1,
             _emit_node fromstring (PNode k0) owner text style s0 = OK (tt, s1) →
             ∃ p e0 e1 l,
               nodes s0 !! k0 = Some p
               ∧ store s0 !! p = Some e0
               ∧ nodes s1 !! node_ident owner = Some l
               ∧ store s0 !! l = None
               ∧ store s1 !! p = Some e1
               ∧ tag e1 = tag e0
               ∧ attrib e1 = attrib e0
               ∧ children e1 = children e0 ++ [ChildRef l]).
  { intros k0 owner text style s0 s1 (p & e0 & Hk & Hp & Hn & Hp' & _)%emit_node_attached.
    exists p, e0, (add_child (ChildRef (length (store s0))) e0), (length (store s0)).
    split_and!; try done.
    - by rewrite Hn, lookup_insert_eq.
    - by apply lookup_ge_None_2. }
  assert (Htwo : ∀ k0 owner text style s0 s1,
             (_emit_node fromstring (PNode k0) owner text style
              >> _emit_notes fromstring (OwnerNode owner) []) s0 = OK (tt, s1) →
             ∃ p e0 e1 l,
               nodes s0 !! k0 = Some p
               ∧ store s0 !! p = Some e0
               ∧ nodes s1 !! node_ident owner = Some l
               ∧ store s0 !! l = None
               ∧ store s1 !! p = Some e1
               ∧ tag e1 = tag e0
               ∧ attrib e1 = attrib e0
               ∧ children e1 = children e0 ++ [ChildRef l]).
  { intros k0 owner text style s0 s1 ([] & s2 & H1 & H2)%bind_inv.
    apply emit_node_attached in H1 as (p & e0 & Hk & Hp & Hn & Hp' & Hlen).
    pose proof (lookup_lt_Some _ _ _ Hp) as Hlt.
    destruct (emit_notes_elsewhere owner s2 s1 (length (store s0)) p H2) as [Hs Hn'];
      [by rewrite Hn, lookup_insert_eq | lia | lia |].
    exists p, e0, (add_child (ChildRef (length (store s0))) e0), (length (store s0)).
    split_and!; try done.
    - by rewrite Hn', Hn, lookup_insert_eq.
    - by apply lookup_ge_None_2.
    - by rewrite Hs. }
  destruct e as [r | r | t | sp | ps | p | c]; cbn [handle rendered parent_of]; try done.
  - destruct (t_kind t) eqn:Hkind; [by intros _ ?%elem_of_nil | | |].
    + unfold on_grid_parse. intros (r0 & s1 & [= <- <-] & H)%bind_inv ->%list_elem_of_singleton [= <-].
      by apply Hone in H.
    + unfold on_keyprops_parse. intros (r0 & s1 & [= <- <-] & H)%bind_inv ->%list_elem_of_singleton [= <-].
      by apply Hone in H.
    + unfold on_process_parse. intros (r0 & s1 & [= <- <-] & H)%bind_inv ->%list_elem_of_singleton [= <-].
      by apply Htwo in H.
  - unfold on_subprocess_parse. intros H ->%list_elem_of_singleton [= <-].
    by apply Hone in H.
  - unfold on_property_set_parse. destruct (ps_are_cim_properties ps).
    + by intros _ ?%elem_of_nil.
    + intros H ->%list_elem_of_singleton [= <-]. by apply Hone in H.
  - unfold on_property_parse. destruct (p_was_injected p).
    + by intros _ ?%elem_of_nil.
    + intros H ->%list_elem_of_singleton [= <-]. by apply Htwo in H.
  - unfold on_enum_choice_parse. intros H ->%list_elem_of_singleton [= <-].
    by apply Hone in H.
Qed.

(** *** The children a handler leaves under a graph node *)

(** X4.  After the handler of an event the graph node of the model node
    holds, in this order: one font and one notes block; for a process
    and for a property a second notes block; for the root the section of
    the change history and the section of the legend. *)
Theorem decorations_of_handler e s s' k :
  handle fromstring e s = OK (tt, s') →
  k ∈ rendered e →
  decorations s' k = Some (handler_decorations e).
Proof.
  destruct e as [r | r | t | sp | ps | p | c]; cbn [handle rendered handler_decorations].
  - rewrite on_root_parse_eq.
    destruct (get_section _) as [c |]; [| done].
    destruct (node_notes_text _) as [html |]; [| done].
    destruct (fromstring html) as [tree |]; [| done].
    destruct (map_r _ (r_change_history r)) as [history |] eqn:Hh; [| done].
    destruct (map_r _ legend_items) as [legend |]; [| done].
    intros [= <-] ->%list_elem_of_singleton.
    unfold decorations. cbn [nodes store]. rewrite lookup_insert_eq.
    cbn [mbind option_bind].
    set (n := length (store s)).
    assert (Hat : ∀ i, (store s ++ root_block n r c tree history legend) !! (n + i)
                       = root_block n r c tree history legend !! i).
    { intros i. rewrite lookup_app_r by (unfold n; lia). f_equal. unfold n. lia. }
    set (B := root_block n r c tree history legend) in *.
    assert (H1 : B !! 1 = Some (element "node" (node_atts c "fork" (r_name r) (r_url r))
                                  [ChildRef (n + 2); ChildRef (n + 3); ChildRef (n + 4);
                                   ChildRef (n + (5 + 2 * length (r_change_history r)))])).
    { replace (n + (5 + 2 * length (r_change_history r)))
        with (n + 5 + 2 * length (r_change_history r)) by lia.
      reflexivity. }
    assert (H2 : tag <$> B !! 2 = Some "font") by done.
    assert (H3 : tag <$> B !! 3 = Some "richcontent") by done.
    assert (H4 : tag <$> B !! 4 = Some "node") by done.
    assert (H5 : tag <$> B !! (5 + 2 * length (r_change_history r)) = Some "node").
    { unfold B, root_block. rewrite (assoc_L (++)), lookup_app_r; cycle 1.
      { rewrite length_app, section_block_length, length_zip_with, length_fmap,
          (map_r_length _ _ _ Hh), Nat.min_id. cbn [length]. lia. }
      rewrite length_app, section_block_length, length_zip_with, length_fmap,
        (map_r_length _ _ _ Hh), Nat.min_id. cbn [length].
      by replace (5 + 2 * length (r_change_history r)
                  - (4 + S (2 * length (r_change_history r)))) with 0 by lia. }
    replace (S n) with (n + 1) by lia. rewrite Hat, H1.
    cbn [mbind option_bind children element fmap list_fmap child_tag].
    by rewrite !Hat, H2, H3, H4, H5.
  - by intros _ ?%elem_of_nil.
  - destruct (t_kind t); [by intros _ ?%elem_of_nil | | |].
    + unfold on_grid_parse. intros (r0 & s1 & [= <- <-] & H)%bind_inv ->%list_elem_of_singleton.
      by apply emit_node_decorations in H.
    + unfold on_keyprops_parse.
      intros (r0 & s1 & [= <- <-] & H)%bind_inv ->%list_elem_of_singleton.
      by apply emit_node_decorations in H.
    + intros H ->%list_elem_of_singleton. by apply process_decorations in H.
  - unfold on_subprocess_parse. intros H ->%list_elem_of_singleton.
    by apply emit_node_decorations in H.
  - unfold on_property_set_parse. destruct (ps_are_cim_properties ps).
    + by intros _ ?%elem_of_nil.
    + intros H ->%list_elem_of_singleton. by apply emit_node_decorations in H.
  - destruct (p_was_injected p) eqn:Hp.
    + by intros _ ?%elem_of_nil.
    + intros H ->%list_elem_of_singleton. by apply property_decorations in H.
  - unfold on_enum_choice_parse. intros H ->%list_elem_of_singleton.
    by apply emit_node_decorations in H.
Qed.

(** *** What a run never does *)

(** The graph node of an event is cached for a new element. *)
Lemma handle_cached e s s' k :
  handle fromstring e s = OK (tt, s') →
  k ∈ rendered e →
  ∃ l, nodes s' !! k = Some l ∧ length (store s) ≤ l < length (store s').
Proof.
  assert (Hone : ∀ parent owner text style s0 s1,
             _emit_node fromstring parent owner text style s0 = OK (tt, s1) →
             ∃ l, nodes s1 !! node_ident owner = Some l
                  ∧ length (store s0) ≤ l < length (store s1)).
  { intros parent owner text style s0 s1
      (c & txt & tree & _ & _ & Hn & Hlen & _)%emit_node_inv.
    exists (length (store s0)). rewrite Hn, lookup_insert_eq. split; [done | lia]. }
  assert (Htwo : ∀ parent owner text style s0 s1,
             (_emit_node fromstring parent owner text style
              >> _emit_notes fromstring (OwnerNode owner) []) s0 = OK (tt, s1) →
             ∃ l, nodes s1 !! node_ident owner = Some l
                  ∧ length (store s0) ≤ l < length (store s1)).
  { intros parent owner text style s0 s1 ([] & s2 & H1 & H2)%bind_inv.
    apply Hone in H1 as (l & Hl & Hlt).
    pose proof (emit_notes_nodes _ _ _ _ H2) as Hn.
    apply emit_notes_extends in H2 as [Hext _]. apply extends_length in Hext.
    exists l. rewrite Hn. split; [done | lia]. }
  destruct e as [r | r | t | sp | ps | p | c]; cbn [handle rendered].
  - rewrite on_root_parse_eq.
    destruct (get_section _) as [c |]; [| done].
    destruct (node_notes_text _) as [html |]; [| done].
    destruct (fromstring html) as [tree |]; [| done].
    destruct (map_r _ (r_change_history r)) as [history |]; [| done].
    destruct (map_r _ legend_items) as [legend |]; [| done].
    intros [= <-] ->%list_elem_of_singleton. exists (S (length (store s))).
    cbn [nodes store]. rewrite lookup_insert_eq. split; [done |].
    rewrite length_app. unfold root_block. cbn [length app]. lia.
  - by intros _ ?%elem_of_nil.
  - destruct (t_kind t); [by intros _ ?%elem_of_nil | | |].
    + unfold on_grid_parse. intros (r0 & s1 & [= <- <-] & H)%bind_inv ->%list_elem_of_singleton.
      by apply Hone in H.
    + unfold on_keyprops_parse.
      intros (r0 & s1 & [= <- <-] & H)%bind_inv ->%list_elem_of_singleton.
      by apply Hone in H.
    + unfold on_process_parse.
      intros (r0 & s1 & [= <- <-] & H)%bind_inv ->%list_elem_of_singleton.
      by apply Htwo in H.
  - unfold on_subprocess_parse. intros H ->%list_elem_of_singleton. by apply Hone in H.
  - unfold on_property_set_parse. destruct (ps_are_cim_properties ps).
    + by intros _ ?%elem_of_nil.
    + intros H ->%list_elem_of_singleton. by apply Hone in H.
  - unfold on_property_parse. destruct (p_was_injected p).
    + by intros _ ?%elem_of_nil.
    + intros H ->%list_elem_of_singleton. by apply Htwo in H.
  - unfold on_enum_choice_parse. intros H ->%list_elem_of_singleton. by apply Hone in H.
Qed.

Lemma handle_keeps_cache e s s' k :
  handle fromstring e s = OK (tt, s') →
  is_Some (nodes s !! k) → is_Some (nodes s' !! k).
Proof.
  intros He Hk. destruct (decide (k ∈ rendered e)) as [Hin | Hnotin].
  - destruct (handle_cached e s s' k He Hin) as (l & -> & _). by eexists.
  - by rewrite (handle_nodes _ _ _ _ He k Hnotin).
Qed.

(** X5.  A run only adds to the mindmap.  An element that was there keeps
    its place, its tag and its attributes, and its children are still its
    first children, in the same order; no element is removed; a model
    node that had a graph node still has one; the root the generator was
    made for stays. *)
Theorem run_only_appends evs s s' :
  run fromstring evs s = OK (tt, s') →
  root s' = root s
  ∧ length (store s) ≤ length (store s')
  ∧ (∀ l e, store s !! l = Some e →
            ∃ e', store s' !! l = Some e'
                  ∧ tag e' = tag e
                  ∧ attrib e' = attrib e
                  ∧ children e `prefix_of` children e')
  ∧ (∀ k, is_Some (nodes s !! k) → is_Some (nodes s' !! k)).
Proof.
  intros Hrun. pose proof (run_extends _ _ _ _ Hrun) as [Hext _].
  split_and!.
  - apply (ext_root _ _ Hext).
  - by apply extends_length.
  - intros l e He. destruct (ext_grows _ _ Hext _ _ He) as (e' & He' & Ht & Ha & Hc).
    by exists e'.
  - revert s Hrun Hext. unfold run. induction evs as [| e evs IH]; intros s Hrun _ k Hk.
    + by injection Hrun as <-.
    + rewrite for_each_cons in Hrun.
      destruct (handle fromstring e s) as [[[] s1] |] eqn:He; [| done].
      apply (IH s1 Hrun); [by apply run_extends in Hrun as [] |].
      by eapply handle_keeps_cache.
Qed.

(** *** When [_emit_node] fails *)

(** X6.  [_emit_node] fails with [KeyError] when [_CONFIG] has no section
    under the type key of the model node ([get_section] itself answers
    with an empty section); with [AttributeError] when there is no text to
    show and the model node has no name; with [KeyError] when the parent
    is a model node that has no graph node; with the error of the parser
    when [ET.fromstring] rejects the notes text.  There is no other way
    for it to fail: it succeeds exactly when the section is there, there
    is a text, the parent is an element of the mindmap and the notes text
    is well-formed. *)
Theorem emit_node_outcome parent owner text style s :
  (get_section (type_key owner) = None →
   _emit_node fromstring parent owner text style s = Err KeyError)
  ∧ (is_Some (get_section (type_key owner)) →
     node_text owner text = Err AttributeError →
     _emit_node fromstring parent owner text style s = Err AttributeError)
  ∧ (∀ k, is_Some (get_section (type_key owner)) →
          (∃ txt, node_text owner text = OK txt) →
          parent = PNode k → nodes s !! k = None →
          _emit_node fromstring parent owner text style s = Err KeyError)
  ∧ (∀ p, is_Some (get_section (type_key owner)) →
          (∃ txt, node_text owner text = OK txt) →
          parent_loc parent s = OK p → is_Some (store s !! p) →
          fromstring (notes_text (node_notes owner)) = None →
          _emit_node fromstring parent owner text style s = Err ParseError)
  ∧ ((∃ s', _emit_node fromstring parent owner text style s = OK (tt, s'))
     ↔ is_Some (get_section (type_key owner))
       ∧ (∃ txt, node_text owner text = OK txt)
       ∧ (∃ p, parent_loc parent s = OK p ∧ is_Some (store s !! p))
       ∧ is_Some (fromstring (notes_text (node_notes owner)))).
Proof.
  rewrite emit_node_eq, node_notes_text_eq. split_and!.
  - by intros ->.
  - intros [c ->] ->. done.
  - intros k [c ->] [txt ->] -> Hk. cbn [parent_loc]. by rewrite Hk.
  - intros p [c ->] [txt ->] -> [e ->] ->. done.
  - split.
    + intros [s' H].
      destruct (get_section _) as [c |]; [| done].
      destruct (node_text _ _) as [txt |]; [| done].
      destruct (parent_loc _ _) as [p |]; [| done].
      destruct (store s !! p) as [e |] eqn:Hp; [| done].
      destruct (fromstring _) as [tree |]; [| done].
      split_and!; [done | by eexists | | done].
      exists p. by rewrite Hp.
    + intros ([c ->] & [txt ->] & (p & -> & [e ->]) & [tree ->]). by eexists.
Qed.

(** *** When a run succeeds *)

Definition configured (key : string) : bool :=
  bool_decide (is_Some (get_section key)).

(** There is a text to show for an enum choice: its value, or its name
    when the value is empty. *)
Definition shows_text (c : EnumChoice) : bool :=
  match ec_value c with
  | "" => bool_decide (is_Some (ec_name c))
  | _ => true
  end.

(** What the handler of an event needs, [seen] being the model nodes that
    have a graph node and [rt] the root the generator was made for. *)
Definition admissible (rt : ident) (seen : list ident) (e : event) : bool :=
  match e with
  | RootEnter r => configured (r_type_key r)
  | RootExit _ => true
  | TopicEnter t =>
      match t_kind t with
      | Realm => true
      | _ => configured (t_type_key t) && bool_decide (rt ∈ seen)
      end
  | SubprocessEnter sp =>
      configured (sp_type_key sp) && bool_decide (sp_parent sp ∈ seen)
  | PropertySetEnter ps =>
      ps_are_cim_properties ps
      || configured (ps_type_key ps) && bool_decide (ps_owner ps ∈ seen)
  | PropertyEnter p =>
      p_was_injected p
      || configured (p_type_key p) && bool_decide (p_owner p ∈ seen)
  | EnumChoiceEnter c =>
      configured (ec_type_key c) && shows_text c
      && bool_decide (ec_enum_detail c ∈ seen)
  end.

Fixpoint admissible_run (rt : ident) (seen : list ident) (evs : list event) : bool :=
  match evs with
  | [] => true
  | e :: evs' => admissible rt seen e && admissible_run rt (rendered e ++ seen) evs'
  end.

(** The cache holds the nodes in [seen], each for an element of the
    mindmap. *)
Record cache_ok (s : state) (seen : list ident) : Prop := {
  ok_seen : ∀ k, k ∈ seen ↔ is_Some (nodes s !! k);
  ok_valid : ∀ k l, nodes s !! k = Some l → l < length (store s)
}.

Lemma map_r_total {A B} (f : A → result B) (xs : list A) :
  (∀ x, ∃ y, f x = OK y) → ∃ ys, map_r f xs = OK ys.
Proof.
  intros Hf. induction xs as [| x xs [ys IH]]; [by eexists |].
  destruct (Hf x) as [y Hy]. cbn [map_r]. rewrite Hy, IH. by eexists.
Qed.

Lemma cache_ok_insert s seen k new p e :
  cache_ok s seen → new ≠ [] →
  cache_ok {| root := root s; mmap := mmap s;
              nodes := <[k := length (store s)]> (nodes s);
              store := <[p := e]> (store s) ++ new |} (k :: seen).
Proof.
  intros [Hseen Hvalid] Hnew. split; cbn [nodes store].
  - intros k0. rewrite elem_of_cons, Hseen.
    destruct (decide (k = k0)) as [-> | Hne].
    + rewrite lookup_insert_eq. split; [by eexists | by left].
    + rewrite lookup_insert_ne by done. split; [by intros [-> |] | by right].
  - intros k0 l. rewrite length_app, length_insert.
    destruct (decide (k = k0)) as [-> | Hne].
    + rewrite lookup_insert_eq. intros [= <-]. destruct new; [done |]. simpl. lia.
    + rewrite lookup_insert_ne by done. intros Hl%Hvalid. lia.
Qed.

(** The parser accepts a text. *)
Definition accepts (html : string) : bool := bool_decide (is_Some (fromstring html)).

Lemma accepts_spec html :
  if accepts html then ∃ tree, fromstring html = Some tree else fromstring html = None.
Proof.
  unfold accepts. destruct (fromstring html) as [tree |].
  - rewrite bool_decide_eq_true_2 by by eexists. by eexists.
  - by rewrite bool_decide_eq_false_2 by by intros [].
Qed.

Lemma forallb_accepts (texts : list string) :
  forallb accepts texts = true ↔ Forall (λ html, is_Some (fromstring html)) texts.
Proof.
  induction texts as [| html texts IH]; [done |].
  cbn [forallb]. rewrite andb_true_iff, Forall_cons, IH.
  unfold accepts. by rewrite bool_decide_eq_true.
Qed.

Lemma map_r_accepts {A} (f : A → string) (xs : list A) :
  if forallb accepts (f <$> xs)
  then ∃ ys, map_r (λ x, parse fromstring (f x)) xs = OK ys
  else ∃ err, map_r (λ x, parse fromstring (f x)) xs = Err err.
Proof.
  induction xs as [| x xs IH]; [by eexists |].
  rewrite fmap_cons. cbn [forallb map_r]. unfold parse at 1 3.
  pose proof (accepts_spec (f x)) as Hx.
  destruct (accepts (f x)); cbn [andb].
  - destruct Hx as [tree ->]. destruct (forallb accepts (f <$> xs)).
    + destruct IH as [ys ->]. by eexists.
    + destruct IH as [err ->]. by eexists.
  - rewrite Hx. by eexists.
Qed.

Lemma parsed_root (r : Root) :
  forallb accepts (parsed (RootEnter r))
  = accepts (notes_text (node_notes (NRoot r)))
    && forallb accepts ((λ x, notes_text (history_notes x)) <$> r_change_history r)
    && forallb accepts ((λ x, notes_text (legend_notes x)) <$> legend_items).
Proof.
  cbn [parsed forallb]. rewrite forallb_app, andb_assoc. unfold node_html.
  rewrite <- notes_text_html. do 3 f_equal.
  apply list_fmap_ext. intros i [[[version date] person] comment] _.
  by rewrite notes_text_html.
Qed.

Lemma emit_node_step k owner text style s seen :
  cache_ok s seen →
  if configured (type_key owner)
     && (if node_text owner text is OK _ then true else false)
     && bool_decide (k ∈ seen)
     && accepts (node_html owner)
  then ∃ s', _emit_node fromstring (PNode k) owner text style s = OK (tt, s')
             ∧ cache_ok s' (node_ident owner :: seen)
             ∧ root s' = root s
  else ∃ err, _emit_node fromstring (PNode k) owner text style s = Err err.
Proof.
  intros Hok. rewrite emit_node_eq, node_notes_text_eq, notes_text_html.
  fold (node_html owner). unfold configured.
  destruct (get_section (type_key owner)) as [c |]; cycle 1.
  { rewrite bool_decide_eq_false_2 by by intros []. by eexists. }
  rewrite bool_decide_eq_true_2 by by eexists.
  destruct (node_text owner text) as [txt | err]; [| by eexists]. cbn [andb parent_loc].
  destruct (decide (k ∈ seen)) as [Hk | Hk].
  - rewrite bool_decide_eq_true_2 by done. cbn [andb].
    apply (ok_seen _ _ Hok) in Hk as [p Hp]. rewrite Hp. cbn [subscript].
    destruct (lookup_lt_is_Some_2 (store s) p (ok_valid _ _ Hok _ _ Hp)) as [e He].
    rewrite He. pose proof (accepts_spec (node_html owner)) as Ha.
    destruct (accepts (node_html owner)); [| rewrite Ha; by eexists].
    destruct Ha as [tree ->].
    eexists. split; [done |]. split; [| done].
    by apply cache_ok_insert.
  - rewrite bool_decide_eq_false_2 by done. cbn [andb].
    assert (nodes s !! k = None) as ->.
    { apply eq_None_not_Some. by rewrite <- (ok_seen _ _ Hok). }
    by eexists.
Qed.

Lemma emit_notes_step n s seen :
  cache_ok s seen → node_ident n ∈ seen →
  if accepts (node_html n)
  then ∃ s', _emit_notes fromstring (OwnerNode n) [] s = OK (tt, s')
             ∧ cache_ok s' seen ∧ root s' = root s
  else ∃ err, _emit_notes fromstring (OwnerNode n) [] s = Err err.
Proof.
  intros Hok Hn. rewrite emit_notes_node_eq, node_notes_text_eq, notes_text_html.
  fold (node_html n).
  apply (ok_seen _ _ Hok) in Hn as [l Hl]. rewrite Hl.
  destruct (lookup_lt_is_Some_2 (store s) l (ok_valid _ _ Hok _ _ Hl)) as [e He].
  rewrite He. pose proof (accepts_spec (node_html n)) as Ha.
  destruct (accepts (node_html n)); [| rewrite Ha; by eexists].
  destruct Ha as [tree ->].
  eexists. split; [done |]. split; [| done].
  destruct Hok as [Hseen Hvalid]. split; cbn [nodes store with_store]; [done |].
  intros k0 l0 Hl0%Hvalid. rewrite length_app, length_insert. lia.
Qed.

Lemma handle_step e s seen :
  cache_ok s seen →
  if admissible (r_ident (root s)) seen e && forallb accepts (parsed e)
  then ∃ s', handle fromstring e s = OK (tt, s')
             ∧ cache_ok s' (rendered e ++ seen)
             ∧ root s' = root s
  else ∃ err, handle fromstring e s = Err err.
Proof.
  intros Hok.
  assert (Hone : ∀ k owner,
             (∃ txt, node_text owner None = OK txt) →
             if configured (type_key owner) && bool_decide (k ∈ seen)
                && accepts (node_html owner)
             then ∃ s', _emit_node fromstring (PNode k) owner None "bubble" s = OK (tt, s')
                        ∧ cache_ok s' (node_ident owner :: seen)
                        ∧ root s' = root s
             else ∃ err, _emit_node fromstring (PNode k) owner None "bubble" s = Err err).
  { intros k owner [txt Htxt].
    pose proof (emit_node_step k owner None "bubble" s seen Hok) as H.
    rewrite Htxt in H. by rewrite andb_true_r in H. }
  assert (Htwo : ∀ k owner,
             (∃ txt, node_text owner None = OK txt) →
             if configured (type_key owner) && bool_decide (k ∈ seen)
                && accepts (node_html owner)
             then ∃ s', (_emit_node fromstring (PNode k) owner None "bubble"
                         >> _emit_notes fromstring (OwnerNode owner) []) s = OK (tt, s')
                        ∧ cache_ok s' (node_ident owner :: seen)
                        ∧ root s' = root s
             else ∃ err, (_emit_node fromstring (PNode k) owner None "bubble"
                          >> _emit_notes fromstring (OwnerNode owner) []) s = Err err).
  { intros k owner Htxt. pose proof (Hone k owner Htxt) as H.
    unfold bind. destruct (accepts (node_html owner)) eqn:Ha.
    - rewrite andb_true_r in *. destruct (configured _ && _).
      + destruct H as (s1 & -> & Hok1 & Hr1).
        pose proof (emit_notes_step owner s1 _ Hok1 (list_elem_of_here _ _)) as H2.
        rewrite Ha in H2. destruct H2 as (s2 & H2 & Hok2 & Hr2).
        exists s2. split; [done |]. split; [done | congruence].
      + destruct H as [err ->]. by eexists.
    - rewrite andb_false_r in *. destruct H as [err ->]. by eexists. }
  destruct e as [r | r | t | sp | ps | p | c]; cbn [handle admissible rendered app].
  - rewrite parsed_root, on_root_parse_eq, node_notes_text_eq. unfold configured.
    destruct (get_section (r_type_key r)) as [c |]; cycle 1.
    { rewrite bool_decide_eq_false_2 by by intros []. by eexists. }
    rewrite bool_decide_eq_true_2 by by eexists.
    pose proof (accepts_spec (notes_text (node_notes (NRoot r)))) as Ha.
    destruct (accepts (notes_text (node_notes (NRoot r)))); cbn [andb];
      [| rewrite Ha; by eexists].
    destruct Ha as [tree ->].
    pose proof (map_r_accepts (λ x, notes_text (history_notes x)) (r_change_history r))
      as Hh.
    destruct (forallb accepts (_ <$> r_change_history r)); cbn [andb]; cycle 1.
    { destruct Hh as [err ->]. by eexists. }
    destruct Hh as [history ->].
    pose proof (map_r_accepts (λ x, notes_text (legend_notes x)) legend_items) as Hl.
    destruct (forallb accepts (_ <$> legend_items)); cycle 1.
    { destruct Hl as [err ->]. by eexists. }
    destruct Hl as [legend ->].
    eexists. split; [done |]. split; [| done].
    destruct Hok as [Hseen Hvalid]. split; cbn [nodes store].
    + intros k0. rewrite elem_of_cons, Hseen.
      destruct (decide (r_ident r = k0)) as [-> | Hne].
      * rewrite lookup_insert_eq. split; [by eexists | by left].
      * rewrite lookup_insert_ne by done. split; [by intros [-> |] | by right].
    + intros k0 l. rewrite length_app. unfold root_block. cbn [length app].
      destruct (decide (r_ident r = k0)) as [-> | Hne].
      * rewrite lookup_insert_eq. intros [= <-]. lia.
      * rewrite lookup_insert_ne by done. intros Hl%Hvalid. lia.
  - by exists s.
  - cbn [parsed]. destruct (t_kind t); cbn [forallb].
    + by exists s.
    + rewrite andb_true_r. unfold on_grid_parse, bind, gets.
      apply (Hone (r_ident (root s)) (NTopic t)). by eexists.
    + rewrite andb_true_r. unfold on_keyprops_parse, bind at 1, gets.
      apply (Hone (r_ident (root s)) (NTopic t)). by eexists.
    + rewrite andb_true_r, andb_diag. unfold on_process_parse, bind at 1, gets.
      apply (Htwo (r_ident (root s)) (NTopic t)). by eexists.
  - cbn [parsed forallb]. rewrite andb_true_r. unfold on_subprocess_parse.
    apply (Hone (sp_parent sp) (NSubprocess sp)). by eexists.
  - cbn [parsed]. unfold on_property_set_parse.
    destruct (ps_are_cim_properties ps); [by exists s |].
    cbn [orb forallb]. rewrite andb_true_r.
    apply (Hone (ps_owner ps) (NPropertySet ps)). by eexists.
  - cbn [parsed]. unfold on_property_parse. destruct (p_was_injected p); [by exists s |].
    cbn [orb forallb]. rewrite andb_true_r, andb_diag.
    apply (Htwo (p_owner p) (NProperty p)). by eexists.
  - cbn [parsed forallb]. rewrite andb_true_r. unfold on_enum_choice_parse.
    pose proof (emit_node_step (ec_enum_detail c) (NEnumChoice c) (Some (ec_value c))
                  "bubble" s seen Hok) as H.
    assert (Htxt : (if node_text (NEnumChoice c) (Some (ec_value c)) is OK _
                    then true else false) = shows_text c).
    { unfold node_text, shows_text. destruct (ec_value c); [| done].
      cbn [node_name]. by destruct (ec_name c). }
    by rewrite Htxt in H.
Qed.

Lemma run_step evs s seen :
  cache_ok s seen →
  if admissible_run (r_ident (root s)) seen evs && forallb accepts (evs ≫= parsed)
  then ∃ s', run fromstring evs s = OK (tt, s')
             ∧ (∀ k, is_Some (nodes s' !! k) ↔ k ∈ (evs ≫= rendered) ++ seen)
  else ∃ err, run fromstring evs s = Err err.
Proof.
  unfold run. revert s seen. induction evs as [| e evs IH]; intros s seen Hok.
  - exists s. split; [done |]. intros k. by rewrite (ok_seen _ _ Hok).
  - cbn [admissible_run]. rewrite bind_cons, forallb_app, for_each_cons.
    pose proof (handle_step e s seen Hok) as He.
    destruct (admissible _ _ e); cycle 1.
    { destruct He as [err ->]. by eexists. }
    destruct (forallb accepts (parsed e)); cycle 1.
    { rewrite andb_false_r. destruct He as [err ->]. by eexists. }
    destruct He as (s1 & -> & Hok1 & Hr1). cbn [andb].
    specialize (IH s1 _ Hok1). rewrite Hr1 in IH.
    destruct (admissible_run _ _ evs && _); [| done].
    destruct IH as (s' & Hrun & Hdom). exists s'. split; [done |].
    intros k. rewrite Hdom, bind_cons, !elem_of_app. tauto.
Qed.

(** X7.  The run of a new generator succeeds exactly when every event is
    admissible where it comes and the parser accepts every notes text
    the handlers hand to it.  Admissible: the type key has a section in
    [_CONFIG]; the parent already has a graph node (for a topic: the root
    the generator was made for); an enum choice has a value or a name to
    show.  Realms below the root, the exit of the root, inherited
    property sets and injected properties need nothing.  The texts: for
    the root its notes, one definition list per entry of the change
    history and one per entry of the legend; for a process and a property
    their notes, twice; for any other node its notes.  After such a run
    the model nodes that have a graph node are those the handlers emitted
    one for. *)
Theorem run_succeeds_iff (r0 : Root) (evs : list event) :
  ((∃ s', run fromstring evs (init r0) = OK (tt, s'))
   ↔ admissible_run (r_ident r0) [] evs = true
     ∧ Forall (λ html, is_Some (fromstring html)) (evs ≫= parsed))
  ∧ (∀ s', run fromstring evs (init r0) = OK (tt, s') →
           ∀ k, is_Some (nodes s' !! k) ↔ k ∈ evs ≫= rendered).
Proof.
  assert (Hok : cache_ok (init r0) []).
  { split; cbn [init nodes store].
    - intros k. rewrite lookup_empty. split; [by intros ?%elem_of_nil | by intros []].
    - intros k l. by rewrite lookup_empty. }
  pose proof (run_step evs (init r0) [] Hok) as H. cbn [init root] in H.
  rewrite <- forallb_accepts, <- andb_true_iff.
  destruct (admissible_run (r_ident r0) [] evs && _).
  - destruct H as (s' & Hrun & Hdom). split.
    + split; [done | intros _; by exists s'].
    + intros s'' Hrun'. rewrite Hrun in Hrun'. injection Hrun' as <-.
      intros k. by rewrite Hdom, app_nil_r.
  - destruct H as [err Herr]. split.
    + split; [| done]. intros [s' Hrun]. by rewrite Herr in Hrun.
    + intros s' Hrun. by rewrite Herr in Hrun.
Qed.

(** *** The output of a run *)

(** A child reference points further into the store, and into it. *)
Definition forward_child (l total : nat) (c : child) : Prop :=
  match c with
  | ChildRef l' => l < l' < total
  | ChildTree _ => True
  end.

(** The elements [es], held from place [b] on in a store of [total]
    elements, refer forward. *)
Definition forward_from (b total : nat) (es : list Element) : Prop :=
  ∀ i e, es !! i = Some e → Forall (forward_child (b + i) total) (children e).

Record sound (s : state) : Prop := {
  sound_forward : forward_from 0 (length (store s)) (store s);
  sound_mmap : ∀ l, mmap s = Some l → l < length (store s)
}.

Lemma forward_from_mono b total total' es :
  total ≤ total' → forward_from b total es → forward_from b total' es.
Proof.
  intros Hle Hes i e He. eapply Forall_impl; [by apply Hes |].
  intros [l' | x]; cbn [forward_child]; [lia | done].
Qed.

Lemma forward_from_app b total xs ys :
  forward_from b total xs → forward_from (b + length xs) total ys →
  forward_from b total (xs ++ ys).
Proof.
  intros Hxs Hys i e. destruct (decide (i < length xs)) as [Hlt | Hge].
  - rewrite lookup_app_l by done. apply Hxs.
  - rewrite lookup_app_r by lia. intros He. apply Hys in He.
    by replace (b + length xs + (i - length xs)) with (b + i) in He by lia.
Qed.

Lemma forward_from_cons b total e es :
  Forall (forward_child b total) (children e) → forward_from (S b) total es →
  forward_from b total (e :: es).
Proof.
  intros He Hes [| i] e0; cbn [lookup list_lookup].
  - intros [= <-]. by rewrite Nat.add_0_r.
  - intros Hi. apply Hes in Hi.
    by replace (S b + i) with (b + S i) in Hi by lia.
Qed.

Lemma forward_from_nil b total : forward_from b total [].
Proof. by intros i e. Qed.

Lemma forward_step h p e new :
  forward_from 0 (length h) h → h !! p = Some e → new ≠ [] →
  forward_from (length h) (length h + length new) new →
  forward_from 0 (length h + length new)
    (<[p := add_child (ChildRef (length h)) e]> h ++ new).
Proof.
  intros Hh Hp Hne Hnew. pose proof (lookup_lt_Some _ _ _ Hp) as Hlt.
  apply forward_from_app; [| by rewrite length_insert].
  intros i e0. destruct (decide (i = p)) as [-> | Hip].
  - rewrite list_lookup_insert_eq by done. intros [= <-].
    cbn [add_child children]. apply Forall_app. split.
    + eapply Forall_impl; [by apply Hh |].
      intros [l' | x]; cbn [forward_child]; [lia | done].
    + apply Forall_singleton. cbn [forward_child].
      destruct new; [done |]. cbn [length]. lia.
  - rewrite list_lookup_insert_ne by done. intros He0.
    eapply Forall_impl; [by apply Hh |].
    intros [l' | x]; cbn [forward_child]; [lia | done].
Qed.

Lemma forward_refs a n k total :
  a < n → n + 2 * k ≤ total → Forall (forward_child a total) (section_refs n k).
Proof.
  revert n. induction k as [| k IH]; intros n Han Hle; [constructor |].
  cbn [section_refs]. constructor; [cbn [forward_child]; lia |].
  apply IH; lia.
Qed.

Lemma forward_entries n total items :
  n + 2 * length items ≤ total → forward_from n total (section_entries n items).
Proof.
  revert n. induction items as [| [atts tree] items IH]; intros n Hle.
  - apply forward_from_nil.
  - cbn [section_entries entry_block app length] in *.
    apply forward_from_cons.
    { cbn [children element]. apply Forall_singleton. cbn [forward_child]. lia. }
    apply forward_from_cons.
    { cbn [children notes_block element]. by apply Forall_singleton. }
    apply IH. lia.
Qed.

Lemma forward_section a total atts items :
  a + S (2 * length items) ≤ total → forward_from a total (section_block a atts items).
Proof.
  intros Hle. unfold section_block. apply forward_from_cons.
  - cbn [children element]. apply forward_refs; lia.
  - apply forward_entries. lia.
Qed.

Lemma forward_emitted n atts c tree :
  forward_from n (n + 3) (emitted n atts c tree).
Proof.
  unfold emitted. apply forward_from_cons.
  { cbn [children element]. repeat constructor; lia. }
  apply forward_from_cons; [constructor |].
  apply forward_from_cons; [by apply Forall_singleton |].
  apply forward_from_nil.
Qed.

Lemma forward_root_block n r c tree history legend :
  length history = length (r_change_history r) →
  forward_from n (n + length (root_block n r c tree history legend))
    (root_block n r c tree history legend).
Proof.
  intros Hh.
  assert (Hlen : length (zip (history_atts <$> r_change_history r) history)
                 = length (r_change_history r)).
  { rewrite length_zip_with, length_fmap. lia. }
  unfold root_block. rewrite !length_app, !section_block_length, Hlen. cbn [length app].
  set (m := length (zip (legend_atts <$> legend_items) legend)).
  set (k := length (r_change_history r)) in *.
  apply forward_from_cons.
  { cbn [children element]. repeat constructor; lia. }
  apply forward_from_cons.
  { cbn [children element]. repeat constructor; lia. }
  apply forward_from_cons; [constructor |].
  apply forward_from_cons; [by apply Forall_singleton |].
  replace (S (S (S (S n)))) with (n + 4) by lia.
  apply forward_from_app.
  - apply forward_section. rewrite Hlen. lia.
  - rewrite section_block_length, Hlen.
    replace (n + 4 + S (2 * k)) with (n + 5 + 2 * k) by lia.
    apply forward_section. fold m. lia.
Qed.

Lemma emit_node_sound parent owner text style s s' :
  _emit_node fromstring parent owner text style s = OK (tt, s') →
  sound s → sound s'.
Proof.
  rewrite emit_node_eq.
  destruct (get_section _) as [c |]; [| done].
  destruct (node_text _ _) as [txt |]; [| done].
  destruct (parent_loc _ _) as [p |]; [| done].
  destruct (store s !! p) as [e |] eqn:Hp; [| done].
  destruct (node_notes_text _) as [html |]; [| done].
  destruct (fromstring html) as [tree |]; [| done].
  intros [= <-] [Hfwd Hmmap]. split; cbn [store mmap].
  - rewrite length_app, length_insert. cbn [emitted length].
    apply (forward_step (store s) p e (emitted (length (store s)) _ c tree)); try done.
    apply forward_emitted.
  - intros l Hl%Hmmap. rewrite length_app, length_insert. lia.
Qed.

Lemma emit_notes_sound n s s' :
  _emit_notes fromstring (OwnerNode n) [] s = OK (tt, s') → sound s → sound s'.
Proof.
  rewrite emit_notes_node_eq.
  destruct (nodes s !! node_ident n) as [p |]; [| done].
  destruct (node_notes_text _) as [html |]; [| done].
  destruct (store s !! p) as [e |] eqn:Hp; [| done].
  destruct (fromstring html) as [tree |]; [| done].
  intros [= <-] [Hfwd Hmmap]. split; cbn [store mmap with_store].
  - rewrite length_app, length_insert. cbn [length].
    apply (forward_step (store s) p e [notes_block tree]); try done.
    apply forward_from_cons; [by apply Forall_singleton | apply forward_from_nil].
  - intros l Hl%Hmmap. rewrite length_app, length_insert. lia.
Qed.

Lemma handle_sound e s s' :
  handle fromstring e s = OK (tt, s') → sound s → sound s'.
Proof.
  destruct e as [r | r | t | sp | ps | p | c]; cbn [handle].
  - rewrite on_root_parse_eq.
    destruct (get_section _) as [c |]; [| done].
    destruct (node_notes_text _) as [html |]; [| done].
    destruct (fromstring html) as [tree |]; [| done].
    destruct (map_r _ (r_change_history r)) as [history |] eqn:Hh; [| done].
    destruct (map_r _ legend_items) as [legend |]; [| done].
    intros [= <-] [Hfwd Hmmap]. split; cbn [store mmap].
    + rewrite length_app. apply forward_from_app.
      * eapply forward_from_mono; [| exact Hfwd]. lia.
      * apply forward_root_block. by apply map_r_length in Hh.
    + intros l [= <-]. rewrite length_app. unfold root_block. cbn [length app]. lia.
  - by intros [= <-].
  - destruct (t_kind t).
    + by intros [= <-].
    + unfold on_grid_parse. intros (r0 & s1 & [= <- <-] & H)%bind_inv.
      by eapply emit_node_sound.
    + unfold on_keyprops_parse. intros (r0 & s1 & [= <- <-] & H)%bind_inv.
      by eapply emit_node_sound.
    + unfold on_process_parse. intros (r0 & s1 & [= <- <-] & H)%bind_inv Hs.
      apply bind_inv in H as ([] & s2 & H1 & H2).
      eapply emit_notes_sound; [done |]. by eapply emit_node_sound.
  - unfold on_subprocess_parse. by eapply emit_node_sound.
  - unfold on_property_set_parse. destruct (ps_are_cim_properties ps).
    + by intros [= <-].
    + by eapply emit_node_sound.
  - unfold on_property_parse. destruct (p_was_injected p).
    + by intros [= <-].
    + intros H Hs. apply bind_inv in H as ([] & s2 & H1 & H2).
      eapply emit_notes_sound; [done |]. by eapply emit_node_sound.
  - unfold on_enum_choice_parse. by eapply emit_node_sound.
Qed.

Lemma run_sound evs s s' :
  run fromstring evs s = OK (tt, s') → sound s → sound s'.
Proof.
  unfold run. revert s. induction evs as [| e evs IH]; intros s.
  - by intros [= <-].
  - rewrite for_each_cons.
    destruct (handle fromstring e s) as [[[] s1] |] eqn:He; [| done].
    intros Hrun Hs. apply (IH s1 Hrun). by eapply handle_sound.
Qed.

Lemma handle_mmap e s s' :
  handle fromstring e s = OK (tt, s') →
  is_root_enter e ∨ is_Some (mmap s) → is_Some (mmap s').
Proof.
  intros He H.
  assert (Hcase : (∃ r, e = RootEnter r) ∨ ¬ is_root_enter e).
  { destruct e; [left; by eexists | right; by intros [] ..]. }
  destruct Hcase as [[r ->] | Hne].
  - cbn [handle] in He. rewrite on_root_parse_eq in He.
    destruct (get_section _) as [c |]; [| done].
    destruct (node_notes_text _) as [html |]; [| done].
    destruct (fromstring html) as [tree |]; [| done].
    destruct (map_r _ (r_change_history r)) as [history |]; [| done].
    destruct (map_r _ legend_items) as [legend |]; [| done].
    injection He as <-. by eexists.
  - apply handle_extends in He as [_ Hm]. rewrite (Hm Hne). by destruct H.
Qed.

Lemma run_mmap evs s s' :
  run fromstring evs s = OK (tt, s') →
  Exists is_root_enter evs ∨ is_Some (mmap s) → is_Some (mmap s').
Proof.
  unfold run. revert s. induction evs as [| e evs IH]; intros s.
  - intros [= <-] [H%Exists_nil | H]; done.
  - rewrite for_each_cons.
    destruct (handle fromstring e s) as [[[] s1] |] eqn:He; [| done].
    intros Hrun H. apply (IH s1 Hrun).
    destruct H as [[Hr | Hex]%Exists_cons | H].
    + right. apply (handle_mmap _ _ _ He). by left.
    + by left.
    + right. apply (handle_mmap _ _ _ He). by right.
Qed.

Lemma map_r_ok {A B} (f : A → result B) (xs : list A) :
  Forall (λ x, ∃ y, f x = OK y) xs → ∃ ys, map_r f xs = OK ys.
Proof.
  induction 1 as [| x xs [y Hy] _ [ys IH]]; [by eexists |].
  cbn [map_r]. rewrite Hy, IH. by eexists.
Qed.

(** In a store whose references point forward, any fuel that bounds the
    elements behind [l] is enough. *)
Lemma reify_forward h :
  forward_from 0 (length h) h →
  ∀ fuel l, l < length h → length h - l ≤ fuel → ∃ x, reify fuel h l = OK x.
Proof.
  intros Hh. induction fuel as [| fuel IH]; intros l Hl Hfuel; [lia |].
  rewrite reify_S. destruct (lookup_lt_is_Some_2 h l Hl) as [e He]. rewrite He.
  destruct (map_r_ok (reify_child fuel h) (children e)) as [ys ->]; [| by eexists].
  eapply Forall_impl; [by apply Hh |].
  intros [l' | x]; cbn [forward_child reify_child]; [| by eexists].
  intros Hl'. apply IH; lia.
Qed.

(** X8.  After a run of a new generator that entered a root and did not
    fail, [get_output] returns: the mindmap is there, every reference in
    it leads to an element, and no element is reached a second time on
    the way down. *)
Theorem output_after_root (tostring : xml → string) r0 evs s' :
  run fromstring evs (init r0) = OK (tt, s') →
  Exists is_root_enter evs →
  ∃ x, output_tree s' = OK (x, s')
       ∧ generate_from fromstring tostring (init r0) evs = OK (tostring x).
Proof.
  intros Hrun Hroot.
  assert (Hs : sound s').
  { apply (run_sound _ _ _ Hrun). split; [apply forward_from_nil | done]. }
  destruct (run_mmap _ _ _ Hrun (or_introl Hroot)) as [l Hl].
  destruct (reify_forward (store s') (sound_forward _ Hs) (length (store s')) l)
    as [x Hx]; [by apply (sound_mmap _ Hs) | lia |].
  exists x. unfold generate_from, get_output, bind. rewrite Hrun.
  unfold output_tree. by rewrite Hl, Hx.
Qed.

Lemma emit_node_blank k owner text style s :
  nodes s = ∅ →
  _emit_node fromstring (PNode k) owner text style s = Err KeyError
  ∨ _emit_node fromstring (PNode k) owner text style s = Err AttributeError.
Proof.
  intros Hs. rewrite emit_node_eq.
  destruct (get_section _) as [c |]; [| by left].
  assert (Htext : (∃ txt, node_text owner text = OK txt)
                  ∨ node_text owner text = Err AttributeError).
  { unfold node_text. destruct text as [[| a t] |]; [| left; by eexists |];
      (destruct owner as [| | | | | ch]; try (left; by eexists));
      cbn [node_name]; (destruct (ec_name ch); [left; by eexists | by right]). }
  destruct Htext as [[txt ->] | ->]; [| by right].
  cbn [parent_loc]. rewrite Hs, lookup_empty. by left.
Qed.

Lemma handle_blank e s :
  ¬ is_root_enter e → nodes s = ∅ →
  handle fromstring e s = OK (tt, s)
  ∨ handle fromstring e s = Err KeyError
  ∨ handle fromstring e s = Err AttributeError.
Proof.
  intros He Hs.
  assert (Hone : ∀ k owner text,
             _emit_node fromstring (PNode k) owner text "bubble" s = OK (tt, s)
             ∨ _emit_node fromstring (PNode k) owner text "bubble" s = Err KeyError
             ∨ _emit_node fromstring (PNode k) owner text "bubble" s = Err AttributeError).
  { intros k owner text. right. by apply emit_node_blank. }
  assert (Htwo : ∀ k owner,
             (_emit_node fromstring (PNode k) owner None "bubble"
              >> _emit_notes fromstring (OwnerNode owner) []) s = OK (tt, s)
             ∨ (_emit_node fromstring (PNode k) owner None "bubble"
                >> _emit_notes fromstring (OwnerNode owner) []) s = Err KeyError
             ∨ (_emit_node fromstring (PNode k) owner None "bubble"
                >> _emit_notes fromstring (OwnerNode owner) []) s = Err AttributeError).
  { intros k owner. right. unfold bind.
    destruct (emit_node_blank k owner None "bubble" s Hs) as [-> | ->]; [by left | by right]. }
  destruct e as [r | r | t | sp | ps | p | c]; cbn [handle].
  - by destruct He.
  - by left.
  - destruct (t_kind t); [by left | | |].
    + unfold on_grid_parse, bind, gets. apply Hone.
    + unfold on_keyprops_parse, bind, gets. apply Hone.
    + unfold on_process_parse, bind at 1, gets. apply Htwo.
  - apply Hone.
  - unfold on_property_set_parse. destruct (ps_are_cim_properties ps); [by left | apply Hone].
  - unfold on_property_parse. destruct (p_was_injected p); [by left | apply Htwo].
  - apply Hone.
Qed.

(** X9.  Without the event of a root a new generator has no output: the
    first event for which a graph node is to be emitted fails, with
    [KeyError] (no section for the type key, or no graph node of the
    parent) or [AttributeError] (no text to show); and when no such event
    comes, [get_output] fails with [AttributeError], there being no
    mindmap to serialise. *)
Theorem no_output_without_root (tostring : xml → string) r0 evs :
  Forall (λ e, ¬ is_root_enter e) evs →
  generate_from fromstring tostring (init r0) evs = Err KeyError
  ∨ generate_from fromstring tostring (init r0) evs = Err AttributeError.
Proof.
  intros Hevs.
  assert (Hgen : ∀ s, nodes s = ∅ → mmap s = None →
                      (run fromstring evs >> get_output tostring) s = Err KeyError
                      ∨ (run fromstring evs >> get_output tostring) s = Err AttributeError).
  { unfold run. induction Hevs as [| e evs He _ IH]; intros s Hn Hm.
    - right. unfold bind, get_output, bind, output_tree. cbn [for_each ret]. by rewrite Hm.
    - assert (Hcons : (for_each (e :: evs) (handle fromstring) >> get_output tostring) s
                      = match handle fromstring e s with
                        | OK (_, s1) =>
                            (for_each evs (handle fromstring) >> get_output tostring) s1
                        | Err err => Err err
                        end).
      { unfold bind. rewrite for_each_cons.
        by destruct (handle fromstring e s) as [[[] s1] |]. }
      rewrite Hcons.
      destruct (handle_blank e s He Hn) as [-> | [-> | ->]]; [| by left | by right].
      by apply IH. }
  unfold generate_from.
  destruct (Hgen (init r0) eq_refl eq_refl) as [-> | ->]; [by left | by right].
Qed.

(** *** The root of the mindmap *)

(** X21.  After a run of a new generator that enters a root first and no
    root again, the mindmap is a [map] element without attributes whose
    only child is the graph node of that root, whatever came after: a
    [node] in the style fork that shows the name of the root, in the
    colours of the section of its type key. *)
Theorem mindmap_single_root (r0 r : Root) (evs : list event) (s' : state) :
  run fromstring (RootEnter r :: evs) (init r0) = OK (tt, s') →
  Forall (λ e, ¬ is_root_enter e) evs →
  ∃ c l_map l_root e_root,
    get_section (r_type_key r) = Some c
    ∧ mmap s' = Some l_map
    ∧ store s' !! l_map
      = Some {| tag := "map"; attrib := ∅; children := [ChildRef l_root] |}
    ∧ store s' !! l_root = Some e_root
    ∧ tag e_root = "node"
    ∧ attrib e_root !! "STYLE" = Some "fork"
    ∧ attrib e_root !! "TEXT" = Some (r_name r)
    ∧ attrib e_root !! "COLOR" = Some (font_color c)
    ∧ attrib e_root !! "BACKGROUND_COLOR" = Some (bg_color c)
    ∧ attrib e_root !! "LINK" = r_url r.
Proof.
  unfold run. rewrite for_each_cons. cbn [handle]. rewrite on_root_parse_eq.
  destruct (get_section _) as [c |]; [| done].
  destruct (node_notes_text _) as [html |]; [| done].
  destruct (fromstring html) as [tree |]; [| done].
  destruct (map_r _ (r_change_history r)) as [history |]; [| done].
  destruct (map_r _ legend_items) as [legend |]; [| done].
  cbn [init store nodes root mmap length app].
  set (s1 := {| root := r0; mmap := Some 0; nodes := <[r_ident r := 1]> ∅;
                store := root_block 0 r c tree history legend |}).
  intros Hrun Hevs. apply run_extends in Hrun as [Hext Hmmap].
  specialize (Hmmap Hevs).
  destruct (ext_grows _ _ Hext 1 _ eq_refl) as (e_root & He_root & Htag & Hatt & _).
  exists c, 0, 1, e_root. split_and!; try done.
  - apply (ext_frame _ _ Hext 0); [done |].
    intros k. cbn [nodes s1]. destruct (decide (r_ident r = k)) as [<- | Hk].
    + by rewrite lookup_insert_eq.
    + by rewrite lookup_insert_ne.
  - rewrite Hatt. cbn [attrib element]. unfold node_atts.
    by destruct (r_url r); [rewrite lookup_insert_ne by done |].
  - rewrite Hatt. cbn [attrib element]. unfold node_atts.
    by destruct (r_url r); [rewrite lookup_insert_ne by done |].
  - rewrite Hatt. cbn [attrib element]. unfold node_atts.
    by destruct (r_url r); [rewrite lookup_insert_ne by done |].
  - rewrite Hatt. cbn [attrib element]. unfold node_atts.
    by destruct (r_url r); [rewrite lookup_insert_ne by done |].
  - rewrite Hatt. cbn [attrib element]. apply node_atts_link.
Qed.

End WithParser.

(** *** At the sample realm *)

(** The states after the root and its process were entered, after the
    property of the process as well, and after the whole walk. *)
Definition topic_state : state :=
  final (run Sample.fromstring [RootEnter Sample.atmos; TopicEnter Sample.dynamics]
           (init Sample.atmos)).

Definition property_state : state :=
  final (_emit_node Sample.fromstring (PNode 2) (NProperty Sample.scheme_type)
           None "bubble" topic_state).

Definition choice_state : state :=
  final (_emit_node Sample.fromstring (PNode 3) (NEnumChoice Sample.choice_a)
           (Some "eulerian") "bubble" property_state).

Definition core_state : state :=
  final (handle Sample.fromstring (SubprocessEnter Sample.core) topic_state).

Lemma sample_property_emitted :
  _emit_node Sample.fromstring (PNode 2) (NProperty Sample.scheme_type)
    None "bubble" topic_state = OK (tt, property_state).
Proof. vm_compute. reflexivity. Qed.

Lemma sample_choice_emitted :
  _emit_node Sample.fromstring (PNode 3) (NEnumChoice Sample.choice_a)
    (Some "eulerian") "bubble" property_state = OK (tt, choice_state).
Proof. vm_compute. reflexivity. Qed.

Lemma sample_core_handled :
  handle Sample.fromstring (SubprocessEnter Sample.core) topic_state = OK (tt, core_state).
Proof. vm_compute. reflexivity. Qed.

Lemma sample_root_handled :
  handle Sample.fromstring (RootEnter Sample.atmos) (init Sample.atmos)
  = OK (tt, root_state).
Proof. vm_compute. reflexivity. Qed.

Lemma sample_tail_run :
  run Sample.fromstring sample_tail root_state = OK (tt, sample_state).
Proof. vm_compute. reflexivity. Qed.

Definition dynamics_state : state :=
  final (_emit_node Sample.fromstring (PNode 1) (NTopic Sample.dynamics)
           None "bubble" root_state).

Lemma sample_dynamics_emitted :
  _emit_node Sample.fromstring (PNode 1) (NTopic Sample.dynamics)
    None "bubble" root_state = OK (tt, dynamics_state).
Proof. vm_compute. reflexivity. Qed.

Lemma node_notes_content_sample :
  t_description Sample.dynamics = Some "Dynamics & transport"
  ∧ _emit_node Sample.fromstring (PNode 1) (NTopic Sample.dynamics)
      None "bubble" root_state = OK (tt, dynamics_state)
  ∧ ∃ l e l_notes,
      nodes dynamics_state !! t_ident Sample.dynamics = Some l
      ∧ store dynamics_state !! l = Some e
      ∧ ChildRef l_notes ∈ children e
      ∧ store dynamics_state !! l_notes
        = Some {| tag := "richcontent"; attrib := {[ "TYPE" := "NOTE" ]};
                  children := [ChildTree (XElem "html" ∅ "
<html>
  <head></head>
  <body>
    <dl>
        <dt><b>Description</b></dt><dd>Dynamics and transport</dd><dt><b>Spec. ID</b></dt><dd>cordexp.atmos.dynamics</dd>
    </dl>
  </body>
</html>
" [])] |}.
Proof.
  split; [reflexivity |]. split; [exact sample_dynamics_emitted |].
  destruct (node_notes_content Sample.fromstring _ _ _ _ _ _ sample_dynamics_emitted)
    as (l & e & l_notes & tree & descr & H1 & H2 & H3 & H4 & H5 & _ & _ & Hd & _).
  exists l, e, l_notes. split; [exact H1 |]. split; [exact H2 |].
  split; [exact H3 |].
  rewrite (Hd "Dynamics " " transport" eq_refl eq_refl eq_refl) in H5.
  injection H5 as <-. exact H4.
Defined.

Lemma node_attributes_sample :
  _emit_node Sample.fromstring (PNode 3) (NEnumChoice Sample.choice_a)
    (Some "eulerian") "bubble" property_state = OK (tt, choice_state)
  ∧ ∃ l e,
      nodes choice_state !! ec_ident Sample.choice_a = Some l
      ∧ store choice_state !! l = Some e
      ∧ attrib e !! "FOLDED" = Some "true"
      ∧ attrib e !! "BACKGROUND_COLOR" = Some "#FFFFFF"
      ∧ attrib e !! "STYLE" = Some "bubble"
      ∧ attrib e !! "TEXT" = Some "eulerian".
Proof.
  split; [exact sample_choice_emitted |].
  destruct (node_attributes Sample.fromstring _ _ _ _ _ _ sample_choice_emitted)
    as (c & txt & l & e & l_font & e_font & Hc & Htxt & H1 & H2 & _ & H3 & _ & H4
        & H5 & H6 & _).
  injection Hc as <-. cbn in Htxt. subst txt.
  exists l, e. split; [exact H1 |]. split; [exact H2 |]. split; [exact H3 |].
  split; [exact H4 |]. split; [exact H5 |]. exact H6.
Defined.

Lemma node_placement_sample :
  handle Sample.fromstring (SubprocessEnter Sample.core) topic_state = OK (tt, core_state)
  ∧ ∃ p e0 e1 l,
      nodes topic_state !! t_ident Sample.dynamics = Some p
      ∧ store topic_state !! p = Some e0
      ∧ nodes core_state !! sp_ident Sample.core = Some l
      ∧ store core_state !! p = Some e1
      ∧ children e1 = children e0 ++ [ChildRef l].
Proof.
  split; [exact sample_core_handled |].
  destruct (node_placement Sample.fromstring (SubprocessEnter Sample.core)
              topic_state core_state (sp_ident Sample.core) (t_ident Sample.dynamics)
              sample_core_handled (list_elem_of_here _ _) eq_refl)
    as (p & e0 & e1 & l & H1 & H2 & H3 & _ & H4 & _ & _ & H5).
  exists p, e0, e1, l. split; [exact H1 |]. split; [exact H2 |]. split; [exact H3 |].
  split; [exact H4 |]. exact H5.
Defined.

Lemma decorations_of_handler_sample :
  handle Sample.fromstring (RootEnter Sample.atmos) (init Sample.atmos)
  = OK (tt, root_state)
  ∧ decorations root_state (r_ident Sample.atmos)
    = Some [Some "font"; Some "richcontent"; Some "node"; Some "node"].
Proof.
  split; [exact sample_root_handled |].
  exact (decorations_of_handler Sample.fromstring (RootEnter Sample.atmos)
           (init Sample.atmos) root_state (r_ident Sample.atmos)
           sample_root_handled (list_elem_of_here _ _)).
Defined.

Lemma run_only_appends_sample :
  run Sample.fromstring sample_tail root_state = OK (tt, sample_state)
  ∧ length (store root_state) ≤ length (store sample_state)
  ∧ (∀ l e, store root_state !! l = Some e →
            ∃ e', store sample_state !! l = Some e'
                  ∧ tag e' = tag e
                  ∧ attrib e' = attrib e
                  ∧ children e `prefix_of` children e').
Proof.
  split; [exact sample_tail_run |].
  destruct (run_only_appends Sample.fromstring sample_tail root_state sample_state
              sample_tail_run) as (_ & H1 & H2 & _).
  split; [exact H1 | exact H2].
Defined.

Lemma sample_admissible :
  admissible_run (r_ident Sample.atmos) [] (Walk.of_root Sample.atmos) = true.
Proof. vm_compute. reflexivity. Qed.

Lemma sample_accepted :
  Forall (λ html, is_Some (Sample.fromstring html)) (Walk.of_root Sample.atmos ≫= parsed).
Proof. apply Forall_forall. intros html _. by eexists. Qed.

Lemma run_succeeds_iff_sample :
  (admissible_run (r_ident Sample.atmos) [] (Walk.of_root Sample.atmos) = true
   ∧ ∃ s', run Sample.fromstring (Walk.of_root Sample.atmos) (init Sample.atmos)
           = OK (tt, s'))
  ∧ Sample.strict_fromstring
      (html_notes [("Version", "0.2.0"); ("Date", "2017-03-01"); ("Person", "Bob M");
                   ("Comment", "Reviewed & extended")]) = None
  ∧ ¬ ∃ s', run Sample.strict_fromstring
              (Walk.of_root (Sample.revised "Reviewed & extended"))
              (init (Sample.revised "Reviewed & extended")) = OK (tt, s').
Proof.
  split; [split; [exact sample_admissible |] | split; [reflexivity |]].
  - destruct (run_succeeds_iff Sample.fromstring Sample.atmos
                (Walk.of_root Sample.atmos)) as [[_ H] _].
    exact (H (conj sample_admissible sample_accepted)).
  - intros Hrun.
    destruct (run_succeeds_iff Sample.strict_fromstring
                (Sample.revised "Reviewed & extended")
                (Walk.of_root (Sample.revised "Reviewed & extended"))) as [[H _] _].
    destruct (H Hrun) as [_ Htexts].
    apply Forall_cons in Htexts as [_ Htexts].
    apply Forall_cons in Htexts as [[tree Htree] _].
    discriminate Htree.
Defined.

Lemma output_after_root_sample :
  run Sample.fromstring (RootEnter Sample.atmos :: sample_tail) (init Sample.atmos)
  = OK (tt, sample_state)
  ∧ ∃ x, output_tree sample_state = OK (x, sample_state)
         ∧ generate_from Sample.fromstring Sample.tostring (init Sample.atmos)
             (RootEnter Sample.atmos :: sample_tail)
           = OK (Sample.tostring x).
Proof.
  split; [exact sample_run |].
  exact (output_after_root Sample.fromstring Sample.tostring Sample.atmos
           (RootEnter Sample.atmos :: sample_tail) sample_state sample_run
           (Exists_cons_hd is_root_enter (RootEnter Sample.atmos) sample_tail I)).
Defined.

Lemma no_output_without_root_sample :
  generate_from Sample.fromstring Sample.tostring (init Sample.atmos)
    [TopicEnter Sample.dynamics; PropertyEnter Sample.scheme_type] = Err KeyError
  ∨ generate_from Sample.fromstring Sample.tostring (init Sample.atmos)
      [TopicEnter Sample.dynamics; PropertyEnter Sample.scheme_type] = Err AttributeError.
Proof.
  apply (no_output_without_root Sample.fromstring Sample.tostring Sample.atmos).
  repeat constructor; by intros [].
Defined.

Lemma mindmap_single_root_sample :
  run Sample.fromstring (RootEnter Sample.atmos :: sample_tail) (init Sample.atmos)
  = OK (tt, sample_state)
  ∧ ∃ l_map l_root e_root,
      mmap sample_state = Some l_map
      ∧ store sample_state !! l_map
        = Some {| tag := "map"; attrib := ∅; children := [ChildRef l_root] |}
      ∧ store sample_state !! l_root = Some e_root
      ∧ attrib e_root !! "STYLE" = Some "fork"
      ∧ attrib e_root !! "TEXT" = Some "atmos".
Proof.
  split; [exact sample_run |].
  destruct (mindmap_single_root Sample.fromstring Sample.atmos Sample.atmos sample_tail
              sample_state sample_run sample_tail_no_root)
    as (c & l_map & l_root & e_root & _ & H1 & H2 & H3 & _ & H4 & H5 & _).
  exists l_map, l_root, e_root. split; [exact H1 |]. split; [exact H2 |].
  split; [exact H3 |]. split; [exact H4 |]. exact H5.
Defined.

End MMBehaviour.
